(** * Crammer: filename metadata, chronological sequencing, store and pipeline

    A shallow embedding of the parts of the application that carry logic:
    - [lib/metadata]: [parseDateFromFilename], [parseSequenceFromFilename],
      [getRecordedAt];
    - [lib/store]: the in-memory store and its update operations;
    - [api/upload], [api/transcribe], [api/process] and
      [api/generate-podcast]: the request handlers that write to the store;
    - the sort of the engine, which [api/process] and [lib/store] call with
      comparators of their own.

    Conventions of the model:
    - file names are strings of 8-bit code units;
    - the JavaScript numbers that the code computes with are integers,
      infinities or NaN: type [number], with the rounding of IEEE doubles
      written out; a number that comes out of the JSON of a service may
      be any double, or no number at all: type [double];
    - a [Date] is its time value, [None] when invalid; the time zone and
      the parsing of date text belong to the host and are a [Runtime];
    - a [Map] is the list of its entries in insertion order;
    - a thrown exception is an [outcome]; the speech and grouping services
      are functions from what they are sent to the outcome of the call;
    - a request handler is a function of the store that also yields every
      store it has written. *)

From Stdlib Require Import ZArith QArith Lqa List String Ascii Bool Lia
  Sorting.Sorted Sorting.Permutation.
Import ListNotations.

Open Scope string_scope.
Open Scope Z_scope.

(** ** JavaScript numbers *)

Inductive number : Type :=
| Fin (z : Z)
| PInf
| NInf
| NaN.

(** Nearest double of a non-negative integer, ties to even; integers below
    2^53 are exact, and what rounds to 2^1024 or more is [Infinity]. *)
Definition round_nonneg (n : Z) : number :=
  if n <? 2 ^ 53 then Fin n
  else
    let e := Z.log2 n - 52 in
    let q := Z.shiftr n e in
    let r := n - Z.shiftl q e in
    let half := 2 ^ (e - 1) in
    let q' := if (half <? r) || ((r =? half) && Z.odd q) then q + 1 else q in
    let v := Z.shiftl q' e in
    if 2 ^ 1024 <=? v then PInf else Fin v.

Definition number_opp (x : number) : number :=
  match x with
  | Fin z => Fin (- z)
  | PInf => NInf
  | NInf => PInf
  | NaN => NaN
  end.

Definition to_double (z : Z) : number :=
  if z <? 0 then number_opp (round_nonneg (- z)) else round_nonneg z.

(** [x - y] on doubles whose finite values are integers. *)
Definition number_sub (x y : number) : number :=
  match x, y with
  | NaN, _ | _, NaN => NaN
  | Fin a, Fin b => to_double (a - b)
  | PInf, PInf | NInf, NInf => NaN
  | PInf, _ => PInf
  | NInf, _ => NInf
  | Fin _, PInf => NInf
  | Fin _, NInf => PInf
  end.

(** [Math.abs]. *)
Definition number_abs (x : number) : number :=
  match x with
  | Fin z => Fin (Z.abs z)
  | PInf | NInf => PInf
  | NaN => NaN
  end.

(** [x < y]; every comparison with NaN is false. *)
Definition number_ltb (x y : number) : bool :=
  match x, y with
  | NaN, _ | _, NaN => false
  | Fin a, Fin b => a <? b
  | NInf, NInf => false
  | NInf, _ => true
  | _, NInf => false
  | PInf, _ => false
  | Fin _, PInf => true
  end.

Definition number_is_neg (x : number) : bool := number_ltb x (Fin 0).
Definition number_is_pos (x : number) : bool := number_ltb (Fin 0) x.

(** ** Numbers out of JSON

    A field that the code takes for a number holds whatever the parsed
    answer of the service has there.  The subtraction that reads it applies
    [ToNumber]: the result is a double, NaN where the field is missing or
    holds no number.  A finite double is given by the rational it is
    equal to. *)

Inductive double : Type :=
| Real (q : Q)
| PlusInf
| MinusInf
| NotNumber.

(** [x - y].  The difference of two finite doubles is rounded; it is zero
    only when the two are equal and has the sign of the exact difference,
    which is what the model keeps. *)
Definition double_sub (x y : double) : double :=
  match x, y with
  | NotNumber, _ | _, NotNumber => NotNumber
  | Real p, Real q => Real (p - q)
  | PlusInf, PlusInf | MinusInf, MinusInf => NotNumber
  | PlusInf, _ => PlusInf
  | MinusInf, _ => MinusInf
  | Real _, PlusInf => MinusInf
  | Real _, MinusInf => PlusInf
  end.

(** [x < 0]; false of NaN. *)
Definition double_is_neg (x : double) : bool :=
  match x with
  | Real q => match (q ?= 0)%Q with Lt => true | _ => false end
  | MinusInf => true
  | PlusInf | NotNumber => false
  end.

(** [x <= y] between two numbers; it holds of no pair with a NaN. *)
Definition double_le (x y : double) : Prop :=
  match x, y with
  | NotNumber, _ | _, NotNumber => False
  | MinusInf, _ => True
  | _, PlusInf => True
  | Real p, Real q => (p <= q)%Q
  | _, _ => False
  end.

(** ** Characters and strings *)

Definition chars := list ascii.

Definition code (c : ascii) : Z := Z.of_N (N_of_ascii c).

Definition is_digit (c : ascii) : bool := (48 <=? code c) && (code c <=? 57).

Definition is_lower_az (c : ascii) : bool := (97 <=? code c) && (code c <=? 122).

Definition is_upper_az (c : ascii) : bool := (65 <=? code c) && (code c <=? 90).

(** [\w]: ASCII letters, digits and the underscore. *)
Definition is_word (c : ascii) : bool :=
  is_digit c || is_lower_az c || is_upper_az c || (code c =? 95).

(** [\s] on code units below 256: TAB, LF, VT, FF, CR, SPACE, NBSP. *)
Definition is_space (c : ascii) : bool :=
  ((9 <=? code c) && (code c <=? 13)) || (code c =? 32) || (code c =? 160).

(** [String.prototype.toLowerCase] on code units below 256. *)
Definition lower_char (c : ascii) : ascii :=
  let n := code c in
  if is_upper_az c then ascii_of_N (Z.to_N (n + 32))
  else if (192 <=? n) && (n <=? 222) && negb (n =? 215)
       then ascii_of_N (Z.to_N (n + 32))
  else c.

Definition toLowerCase (s : chars) : chars := map lower_char s.

(** A pattern character: exact, or under the [i] flag. *)
Definition lit (c : ascii) : ascii -> bool := fun x => Ascii.eqb x c.
Definition lit_i (c : ascii) : ascii -> bool :=
  fun x => Ascii.eqb (lower_char x) (lower_char c) && (code x <? 128).

(** [[_\-\s]] and [[_\-\.]] and [[,\s]] and [[a-z]] under [i]. *)
Definition is_sep_space (c : ascii) : bool :=
  (code c =? 95) || (code c =? 45) || is_space c.
Definition is_sep_dot (c : ascii) : bool :=
  (code c =? 95) || (code c =? 45) || (code c =? 46).
Definition is_comma_space (c : ascii) : bool := (code c =? 44) || is_space c.
Definition is_az_i (c : ascii) : bool := is_lower_az c || is_upper_az c.

(** [parseInt(s, 10)] on a run of decimal digits. *)
Definition digit_value (c : ascii) : Z := code c - 48.

Definition decimal (ds : chars) : Z :=
  fold_left (fun acc c => 10 * acc + digit_value c) ds 0.

Definition parseInt (ds : chars) : number := round_nonneg (decimal ds).

(** ** Regular expressions

    The fragment of JavaScript regular expressions the code uses: character
    classes, greedy bounded repetition of a class, capture groups,
    anchors, word boundary, and one-character negative look-around.  The
    matcher backtracks the way the language prescribes: a repetition first
    takes as many characters as it can and gives them back one at a time. *)

Inductive regex : Type :=
| Eps
| Chr (p : ascii -> bool)
| Seq (r1 r2 : regex)
| Rep (p : ascii -> bool) (min : nat) (max : option nat)
| Group (r : regex)
| Bol
| Eol
| WordB
| NotBehind (p : ascii -> bool)
| NotAhead (p : ascii -> bool).

Definition captures := list chars.

(** A continuation receives the character before the position, the rest of
    the input and the captures so far. *)
Definition cont := option ascii -> chars -> captures -> option captures.

Definition can_take (max : option nat) : bool :=
  match max with
  | Some O => false
  | _ => true
  end.

Fixpoint rep (p : ascii -> bool) (min : nat) (max : option nat) (k : cont)
  (prev : option ascii) (input : chars) (caps : captures) {struct input}
  : option captures :=
  let stop := match min with O => k prev input caps | S _ => None end in
  match input with
  | c :: rest =>
      if p c && can_take max then
        match rep p (Nat.pred min) (option_map Nat.pred max) k (Some c) rest caps with
        | Some res => Some res
        | None => stop
        end
      else stop
  | [] => stop
  end.

Definition opt_test (p : ascii -> bool) (c : option ascii) : bool :=
  match c with
  | Some x => p x
  | None => false
  end.

Fixpoint matcher (r : regex) (k : cont) : cont :=
  match r with
  | Eps => k
  | Chr p => fun _ input caps =>
      match input with
      | c :: rest => if p c then k (Some c) rest caps else None
      | [] => None
      end
  | Seq r1 r2 => matcher r1 (matcher r2 k)
  | Rep p min max => rep p min max k
  | Group r1 => fun prev input caps =>
      matcher r1
        (fun prev' input' caps' =>
           k prev' input'
             (caps' ++ [firstn (List.length input - List.length input') input])%list)
        prev input caps
  | Bol => fun prev input caps =>
      match prev with
      | None => k prev input caps
      | Some _ => None
      end
  | Eol => fun prev input caps =>
      match input with
      | [] => k prev input caps
      | _ :: _ => None
      end
  | WordB => fun prev input caps =>
      if xorb (opt_test is_word prev) (opt_test is_word (hd_error input))
      then k prev input caps else None
  | NotBehind p => fun prev input caps =>
      if opt_test p prev then None else k prev input caps
  | NotAhead p => fun prev input caps =>
      if opt_test p (hd_error input) then None else k prev input caps
  end.

Definition accept : cont := fun _ _ caps => Some caps.

(** [String.prototype.match] with a pattern that has no [g] flag: the
    leftmost match; the result is the list of its capture groups. *)
Fixpoint search (r : regex) (prev : option ascii) (input : chars)
  : option captures :=
  match matcher r accept prev input [] with
  | Some caps => Some caps
  | None =>
      match input with
      | [] => None
      | c :: rest => search r (Some c) rest
      end
  end.

Definition str_match (s : chars) (r : regex) : option captures :=
  search r None s.

Fixpoint seq_of (rs : list regex) : regex :=
  match rs with
  | [] => Eps
  | [r] => r
  | r :: rs' => Seq r (seq_of rs')
  end.

Definition word_i (s : string) : regex :=
  seq_of (map (fun c => Chr (lit_i c)) (list_ascii_of_string s)).

Definition digits (n : nat) : regex := Rep is_digit n (Some n).
Definition digits_1_2 : regex := Rep is_digit 1 (Some 2%nat).
Definition digits_plus : regex := Rep is_digit 1 None.

(** A continuation that fails at every position of a text from some
    point on, and a pattern that no continuation can save there. *)
Definition dead (k : cont) (input : chars) : Prop :=
  forall a b prev caps, input = (a ++ b)%list -> k prev b caps = None.

Definition hopeless (r : regex) (input : chars) : Prop :=
  forall k, dead (matcher r k) input.

Definition no_digit (s : chars) : bool :=
  forallb (fun c => negb (is_digit c)) s.

(** ** [path.extname] and [path.basename] (POSIX) *)

Definition slash : ascii := "/"%char.
Definition dot : ascii := "."%char.

Fixpoint drop_leading_slashes (s : chars) : chars :=
  match s with
  | c :: rest => if Ascii.eqb c slash then drop_leading_slashes rest else s
  | [] => []
  end.

Fixpoint take_until_slash (s : chars) : chars :=
  match s with
  | c :: rest => if Ascii.eqb c slash then [] else c :: take_until_slash rest
  | [] => []
  end.

(** The last component of a path, trailing slashes ignored. *)
Definition last_segment (p : chars) : chars :=
  rev (take_until_slash (drop_leading_slashes (rev p))).

(** The characters after the last dot of [s], reversed scan: [None] when
    [s] has no dot. *)
Fixpoint after_last_dot_rev (r : chars) : option chars :=
  match r with
  | [] => None
  | c :: rest =>
      if Ascii.eqb c dot then Some []
      else option_map (fun t => (t ++ [c])%list) (after_last_dot_rev rest)
  end.

Definition chars_eqb (a b : chars) : bool :=
  String.eqb (string_of_list_ascii a) (string_of_list_ascii b).

(** [path.extname]: from the last dot of the last component to its end;
    empty when there is no dot, when the dot is the first character of the
    component, or when the component is [".."]. *)
Definition extname (p : chars) : chars :=
  let seg := last_segment p in
  match after_last_dot_rev (rev seg) with
  | None => []
  | Some tail =>
      let startDot := (List.length seg - S (List.length tail))%nat in
      if (startDot =? 0)%nat then []
      else if chars_eqb seg [dot; dot] then []
      else dot :: tail
  end.

Definition ends_with (s suffix : chars) : bool :=
  (List.length suffix <=? List.length s)%nat &&
  chars_eqb (skipn (List.length s - List.length suffix) s) suffix.

(** [path.basename(p, suffix)]: the last component, without [suffix] when
    the component ends with it and is more than it. *)
Definition basename (p suffix : chars) : chars :=
  let seg := last_segment p in
  match suffix with
  | [] => seg
  | _ :: _ =>
      if chars_eqb p suffix then []
      else if ends_with seg suffix && negb (chars_eqb seg suffix)
      then firstn (List.length seg - List.length suffix) seg
      else seg
  end.

(** ** [lib/metadata]: sequence number of a file name *)

(** [/^(\d+)[_\-\s]/] *)
Definition re_leading : regex :=
  seq_of [Bol; Group digits_plus; Chr is_sep_space].

(** [/\bpart[_\-\s]*(\d+)\b/i] *)
Definition re_part : regex :=
  seq_of [WordB; word_i "part"; Rep is_sep_space 0 None; Group digits_plus;
          WordB].

(** [/[_\-\s](\d+)$/] *)
Definition re_trailing : regex :=
  seq_of [Chr is_sep_space; Group digits_plus; Eol].

(** [/^(\d+)$/] *)
Definition re_bare : regex := seq_of [Bol; Group digits_plus; Eol].

Definition group (n : nat) (caps : captures) : chars := nth (n - 1) caps [].

Definition base_of (filename : string) : chars :=
  let p := list_ascii_of_string filename in
  basename p (extname p).

Definition parseSequenceFromFilename (filename : string) : option number :=
  let base := base_of filename in
  match str_match base re_leading with
  | Some leading => Some (parseInt (group 1 leading))
  | None =>
  match str_match base re_part with
  | Some part => Some (parseInt (group 1 part))
  | None =>
  match str_match base re_trailing with
  | Some trailing => Some (parseInt (group 1 trailing))
  | None =>
  match str_match base re_bare with
  | Some bare => Some (parseInt (group 1 bare))
  | None => None
  end end end end.

(** ** Dates

    A [Date] is its time value: milliseconds since the epoch, or [None] for
    an invalid date.  What the language leaves to the host is gathered in
    [Runtime]: the offset of local time and the parsing of date text. *)

Record Runtime : Type := {
  (** offset of local time from UTC, in milliseconds, at a local time *)
  localOffset : Z -> Z;
  (** [new Date(text).getTime()], [None] for NaN *)
  dateParse : string -> option Z
}.

Definition msPerDay : Z := 86400000.

(** Days from the epoch to day [d] of month [m] (1 to 12) of year [y] in
    the proleptic Gregorian calendar. *)
Definition days_from_civil (y m d : Z) : Z :=
  let y' := if m <=? 2 then y - 1 else y in
  let era := y' / 400 in
  let yoe := y' - era * 400 in
  let mp := (m + 9) mod 12 in
  let doy := (153 * mp + 2) / 5 + d - 1 in
  let doe := yoe * 365 + yoe / 4 - yoe / 100 + doy in
  era * 146097 + doe - 719468.

(** [MakeDay(year, month, date)]: months outside 0..11 carry into the year,
    days outside the month carry into the neighbouring months. *)
Definition MakeDay (year month date : Z) : Z :=
  let ym := year + month / 12 in
  let mn := month mod 12 in
  days_from_civil ym (mn + 1) 1 + date - 1.

Definition TimeClip (t : Z) : option Z :=
  if 8640000000000000 <? Z.abs t then None else Some t.

(** [new Date(year, monthIndex, day)] in local time. *)
Definition new_Date (rt : Runtime) (year monthIndex day : number) : option Z :=
  match year, monthIndex, day with
  | Fin y, Fin m, Fin d =>
      let yr := if (0 <=? y) && (y <=? 99) then 1900 + y else y in
      let t := MakeDay yr m d * msPerDay in
      TimeClip (t - localOffset rt t)
  | _, _, _ => None
  end.

(** ** [lib/metadata]: date of a file name *)

(** [/(\d{4})[_\-\.](\d{2})[_\-\.](\d{2})/] *)
Definition re_ymd : regex :=
  seq_of [Group (digits 4); Chr is_sep_dot; Group (digits 2); Chr is_sep_dot;
          Group (digits 2)].

(** [/(?<!\d)(\d{4})(\d{2})(\d{2})(?!\d)/] *)
Definition re_compact : regex :=
  seq_of [NotBehind is_digit; Group (digits 4); Group (digits 2);
          Group (digits 2); NotAhead is_digit].

Definition monthNames : list string :=
  ["jan"; "feb"; "mar"; "apr"; "may"; "jun";
   "jul"; "aug"; "sep"; "oct"; "nov"; "dec"].

Definition monthFull : list string :=
  ["january"; "february"; "march"; "april"; "may"; "june";
   "july"; "august"; "september"; "october"; "november"; "december"].

(** [(mon)[a-z]*\s*(\d{1,2})[,\s]+(\d{4})] with flag [i] *)
Definition shortPattern (mon : string) : regex :=
  seq_of [Group (word_i mon); Rep is_az_i 0 None; Rep is_space 0 None;
          Group digits_1_2; Rep is_comma_space 1 None; Group (digits 4)].

(** [(\d{1,2})\s+(mon)[a-z]*[,\s]+(\d{4})] with flag [i] *)
Definition reversePattern (mon : string) : regex :=
  seq_of [Group digits_1_2; Rep is_space 1 None; Group (word_i mon);
          Rep is_az_i 0 None; Rep is_comma_space 1 None; Group (digits 4)].

Definition text (cs : chars) : string := string_of_list_ascii cs.

Definition try_short (rt : Runtime) (lower : chars) (mon full : string)
  : option Z :=
  match str_match lower (shortPattern mon) with
  | Some m1 =>
      dateParse rt
        (full ++ " " ++ text (group 2 m1) ++ " " ++ text (group 3 m1))
  | None => None
  end.

Definition try_reverse (rt : Runtime) (lower : chars) (mon full : string)
  : option Z :=
  match str_match lower (reversePattern mon) with
  | Some m2 =>
      dateParse rt
        (full ++ " " ++ text (group 1 m2) ++ " " ++ text (group 3 m2))
  | None => None
  end.

(** One turn of the loop over the twelve months; [None] lets the loop go on. *)
Definition month_attempt (rt : Runtime) (lower : chars) (mon full : string)
  : option Z :=
  match try_short rt lower mon full with
  | Some d => Some d
  | None => try_reverse rt lower mon full
  end.

Fixpoint month_loop (rt : Runtime) (lower : chars) (months : list (string * string))
  : option Z :=
  match months with
  | [] => None
  | (mon, full) :: rest =>
      match month_attempt rt lower mon full with
      | Some d => Some d
      | None => month_loop rt lower rest
      end
  end.

Definition try_ymd (rt : Runtime) (base : chars) : option Z :=
  match str_match base re_ymd with
  | Some ymd =>
      let d := new_Date rt (parseInt (group 1 ymd))
                 (number_sub (parseInt (group 2 ymd)) (Fin 1))
                 (parseInt (group 3 ymd)) in
      match d with
      | Some t => if number_ltb (Fin 2000) (parseInt (group 1 ymd)) then Some t else None
      | None => None
      end
  | None => None
  end.

Definition number_leb (x y : number) : bool :=
  match x, y with
  | NaN, _ | _, NaN => false
  | Fin a, Fin b => a <=? b
  | NInf, _ => true
  | _, PInf => true
  | _, _ => false
  end.

Definition try_compact (rt : Runtime) (base : chars) : option Z :=
  match str_match base re_compact with
  | Some compact =>
      let y := parseInt (group 1 compact) in
      let m := parseInt (group 2 compact) in
      let dy := parseInt (group 3 compact) in
      if number_ltb (Fin 2000) y && number_leb (Fin 1) m && number_leb m (Fin 12)
         && number_leb (Fin 1) dy && number_leb dy (Fin 31)
      then new_Date rt y (number_sub m (Fin 1)) dy
      else None
  | None => None
  end.

Definition parseDateFromFilename (rt : Runtime) (filename : string) : option Z :=
  let base := base_of filename in
  match try_ymd rt base with
  | Some d => Some d
  | None =>
  match try_compact rt base with
  | Some d => Some d
  | None =>
      let lower := toLowerCase base in
      month_loop rt lower (combine monthNames monthFull)
  end end.

(** A thrown exception carries its message. *)
Inductive outcome (A : Type) : Type :=
| Returns (a : A)
| Throws (message : string).
Arguments Returns {A} a.
Arguments Throws {A} message.

(** The upload directory as [fs.statSync] sees it: the modification time
    of each existing file. *)
Definition FileSystem : Type := string -> option Z.

Definition statSync_mtime (fs : FileSystem) (filePath : string) : outcome Z :=
  match fs filePath with
  | Some mtime => Returns mtime
  | None =>
      Throws ("ENOENT: no such file or directory, stat '" ++ filePath ++ "'")
  end.

Definition getRecordedAt (rt : Runtime) (fs : FileSystem)
  (filePath originalName : string) : outcome Z :=
  match parseDateFromFilename rt originalName with
  | Some fromName => Returns fromName
  | None => statSync_mtime fs filePath
  end.

(** A host on UTC whose [Date] reads the text that [toISOString] writes,
    [YYYY-MM-DDTHH:mm:ss.sssZ], and rejects any other text. *)
Definition re_iso : regex :=
  seq_of [Bol; Group (digits 4); Chr (lit "-"); Group (digits 2); Chr (lit "-");
          Group (digits 2); Chr (lit "T"); Group (digits 2); Chr (lit ":");
          Group (digits 2); Chr (lit ":"); Group (digits 2); Chr (lit ".");
          Group (digits 3); Chr (lit "Z"); Eol].

Definition days_in_month (y m : Z) : Z :=
  days_from_civil (y + m / 12) (m mod 12 + 1) 1 - days_from_civil y m 1.

Definition parse_iso (s : string) : option Z :=
  match str_match (list_ascii_of_string s) re_iso with
  | Some g =>
      let y := decimal (group 1 g) in
      let mo := decimal (group 2 g) in
      let d := decimal (group 3 g) in
      let h := decimal (group 4 g) in
      let mi := decimal (group 5 g) in
      let sec := decimal (group 6 g) in
      let ms := decimal (group 7 g) in
      if (1 <=? mo) && (mo <=? 12) && (1 <=? d) && (d <=? days_in_month y mo)
         && (h <=? 23) && (mi <=? 59) && (sec <=? 59)
      then TimeClip (days_from_civil y mo d * msPerDay
                     + h * 3600000 + mi * 60000 + sec * 1000 + ms)
      else None
  | None => None
  end.

Definition utc_iso_runtime : Runtime :=
  {| localOffset := fun _ => 0; dateParse := parse_iso |}.

(** ** [types]: the records of the store *)

Inductive FileStatus : Type :=
| uploaded
| transcribing
| transcribed
| error.

Definition FileStatus_eqb (a b : FileStatus) : bool :=
  match a, b with
  | uploaded, uploaded | transcribing, transcribing
  | transcribed, transcribed | error, error => true
  | _, _ => false
  end.

Module AudioFile.
Record t : Type := {
  id : string;
  originalName : string;
  savedPath : string;
  mimeType : string;
  size : Z;
  recordedAt : string;
  uploadedAt : string;
  status : FileStatus;
  errorMessage : option string
}.

(** [Partial<AudioFile>]: the fields an update names. *)
Record partial : Type := {
  id' : option string;
  originalName' : option string;
  savedPath' : option string;
  mimeType' : option string;
  size' : option Z;
  recordedAt' : option string;
  uploadedAt' : option string;
  status' : option FileStatus;
  errorMessage' : option (option string)
}.

Definition over {A : Type} (old : A) (new : option A) : A :=
  match new with
  | Some v => v
  | None => old
  end.

(** [{ ...existing, ...updates }] *)
Definition spread (existing : t) (updates : partial) : t :=
  {| id := over (id existing) (id' updates);
     originalName := over (originalName existing) (originalName' updates);
     savedPath := over (savedPath existing) (savedPath' updates);
     mimeType := over (mimeType existing) (mimeType' updates);
     size := over (size existing) (size' updates);
     recordedAt := over (recordedAt existing) (recordedAt' updates);
     uploadedAt := over (uploadedAt existing) (uploadedAt' updates);
     status := over (status existing) (status' updates);
     errorMessage := over (errorMessage existing) (errorMessage' updates) |}.
End AudioFile.

(** The numbers of a transcript (times, confidences, speaker indices) are
    carried along and never computed with. *)
Module Transcription.
Record word : Type := {
  word_text : string;
  word_start : Z;
  word_end : Z;
  word_confidence : Z;
  speaker : option Z
}.

Record t : Type := {
  audioFileId : string;
  text : string;
  words : list word;
  confidence : Z;
  duration : Z;
  paragraphs : option (list string)
}.
End Transcription.

Module Lecture.
Record t : Type := {
  id : string;
  lectureNumber : double;
  title : string;
  summary : string;
  keyTopics : list string;
  audioFileIds : list string;
  fullTranscript : string;
  createdAt : string
}.
End Lecture.

Inductive PodcastFormat : Type :=
| qa
| narrative
| discussion.

Module PodcastScript.
Record t : Type := {
  id : string;
  lectureId : string;
  format : PodcastFormat;
  title : string;
  description : string;
  script : string;
  generatedAt : string
}.
End PodcastScript.

Inductive Phase : Type :=
| phase_idle
| phase_uploading
| phase_transcribing
| phase_processing
| phase_complete
| phase_error.

Module ProcessingStatus.
Record t : Type := {
  totalFiles : Z;
  transcribedFiles : Z;
  lecturesGenerated : Z;
  phase : Phase;
  errorMessage : option string
}.

Record partial : Type := {
  totalFiles' : option Z;
  transcribedFiles' : option Z;
  lecturesGenerated' : option Z;
  phase' : option Phase;
  errorMessage' : option (option string)
}.

Definition spread (existing : t) (updates : partial) : t :=
  {| totalFiles := AudioFile.over (totalFiles existing) (totalFiles' updates);
     transcribedFiles :=
       AudioFile.over (transcribedFiles existing) (transcribedFiles' updates);
     lecturesGenerated :=
       AudioFile.over (lecturesGenerated existing) (lecturesGenerated' updates);
     phase := AudioFile.over (phase existing) (phase' updates);
     errorMessage :=
       AudioFile.over (errorMessage existing) (errorMessage' updates) |}.
End ProcessingStatus.

(** ** [Map<string, V>]: entries in insertion order, one per key *)

Definition JsMap (V : Type) : Type := list (string * V).

Fixpoint map_get {V : Type} (k : string) (m : JsMap V) : option V :=
  match m with
  | [] => None
  | (k', v) :: rest => if String.eqb k' k then Some v else map_get k rest
  end.

(** [set] keeps the place of a key that is present and appends a new one. *)
Fixpoint map_set {V : Type} (k : string) (v : V) (m : JsMap V) : JsMap V :=
  match m with
  | [] => [(k, v)]
  | (k', v') :: rest =>
      if String.eqb k' k then (k, v) :: rest else (k', v') :: map_set k v rest
  end.

Definition map_values {V : Type} (m : JsMap V) : list V := map snd m.

Definition map_keys {V : Type} (m : JsMap V) : list string := map fst m.

(** ** [Array.prototype.sort] with a comparator

    The engine of the application is V8 (Node 20), whose sort is a TimSort
    (third_party/v8/builtins/array-sort.tq): it looks for runs that are
    already in order, extends short runs by binary insertion, and merges
    the runs, galloping through a run that keeps winning.  The model
    follows it function by function, since the comparators of the
    application are not always consistent and the result then depends on
    which pairs the engine compares.  An array is the list of its
    elements; the recordings and lectures sorted here are objects, so no
    element is [undefined].  The loops of the engine are given a
    number of turns as fuel, each at least as many as it can take. *)

Section Sort.
(** [less x y] is [Compare(x, y) < 0], the one thing the sort reads from
    the comparator: it is called on [(x, y)], and a NaN it returns counts
    as 0. *)
Context {A : Type} (less : A -> A -> bool).

(** The loop of [CountAndMakeRun]: how many elements after
    [previousElement] go on with the run. *)
Fixpoint run_rest (isDescending : bool) (previousElement : A) (l : list A)
  : nat :=
  match l with
  | [] => 0
  | currentElement :: rest =>
      if Bool.eqb (less currentElement previousElement) isDescending
      then S (run_rest isDescending currentElement rest)
      else 0
  end.

(** [CountAndMakeRun]: the longest run at the start of [l], ascending or
    strictly descending, the latter reversed; and what follows it. *)
Definition CountAndMakeRun (l : list A) : list A * list A :=
  match l with
  | elementHigh :: elementLow :: rest =>
      let isDescending := less elementLow elementHigh in
      let runLength := (2 + run_rest isDescending elementLow rest)%nat in
      let run := firstn runLength l in
      (if isDescending then rev run else run, skipn runLength l)
  | _ => (l, [])
  end.

(** The binary search that ends [BinaryInsertionSort], [GallopLeft] and
    [GallopRight]: [while (left < right)], with the middle element sending
    the search to its right or to its left. *)
Fixpoint binary_search (fuel : nat) (goesRight : nat -> bool) (left right : nat)
  : nat :=
  match fuel with
  | O => right
  | S fuel' =>
      if (left <? right)%nat then
        let mid := (left + (right - left) / 2)%nat in
        if goesRight mid then binary_search fuel' goesRight (mid + 1) right
        else binary_search fuel' goesRight left mid
      else right
  end.

(** [BinaryInsertionSort(low, start, high)]: [sorted] is the part from
    [low] to [start], [rest] the part from [start] to [high]. *)
Fixpoint BinaryInsertionSort (sorted rest : list A) : list A :=
  match rest with
  | [] => sorted
  | pivot :: rest' =>
      let left :=
        binary_search (List.length sorted)
          (fun mid => negb (less pivot (nth mid sorted pivot)))
          0 (List.length sorted) in
      BinaryInsertionSort (firstn left sorted ++ pivot :: skipn left sorted)
                          rest'
  end.

(** The first loop of a gallop, [while (offset < maxOfs)]: the offsets
    1, 3, 7, ... are tried for as long as [goesOn] says so. *)
Fixpoint gallop (fuel : nat) (goesOn : nat -> bool) (maxOfs lastOfs offset : nat)
  : nat * nat :=
  match fuel with
  | O => (lastOfs, offset)
  | S fuel' =>
      if (offset <? maxOfs)%nat then
        if goesOn offset
        then gallop fuel' goesOn maxOfs offset (2 * offset + 1)%nat
        else (lastOfs, offset)
      else (lastOfs, offset)
  end.

(** [GallopLeft(array, key, base, length, hint)] on the [length] elements
    from [base], here the list [a]: the offset [k] with
    [a[k - 1] < key <= a[k]].  The increment of [lastOfs] that precedes
    the binary search is taken into the two branches, where [hint - offset]
    may be -1. *)
Definition GallopLeft (key : A) (a : list A) (hint : nat) : nat :=
  let at_ i := nth i a key in
  let '(lastOfs, offset) :=
    if less (at_ hint) key then
      let maxOfs := (List.length a - hint)%nat in
      let '(lastOfs, offset) :=
        gallop maxOfs (fun o => less (at_ (hint + o)%nat) key) maxOfs 0 1 in
      let offset := Nat.min offset maxOfs in
      ((lastOfs + hint + 1)%nat, (offset + hint)%nat)
    else
      let maxOfs := (hint + 1)%nat in
      let '(lastOfs, offset) :=
        gallop maxOfs (fun o => negb (less (at_ (hint - o)%nat) key))
          maxOfs 0 1 in
      let offset := Nat.min offset maxOfs in
      ((hint + 1 - offset)%nat, (hint - lastOfs)%nat)
  in
  binary_search (List.length a) (fun m => less (at_ m) key) lastOfs offset.

(** [GallopRight]: the offset [k] with [a[k - 1] <= key < a[k]]. *)
Definition GallopRight (key : A) (a : list A) (hint : nat) : nat :=
  let at_ i := nth i a key in
  let '(lastOfs, offset) :=
    if less key (at_ hint) then
      let maxOfs := (hint + 1)%nat in
      let '(lastOfs, offset) :=
        gallop maxOfs (fun o => less key (at_ (hint - o)%nat)) maxOfs 0 1 in
      let offset := Nat.min offset maxOfs in
      ((hint + 1 - offset)%nat, (hint - lastOfs)%nat)
    else
      let maxOfs := (List.length a - hint)%nat in
      let '(lastOfs, offset) :=
        gallop maxOfs (fun o => negb (less key (at_ (hint + o)%nat)))
          maxOfs 0 1 in
      let offset := Nat.min offset maxOfs in
      ((lastOfs + hint + 1)%nat, (offset + hint)%nat)
  in
  binary_search (List.length a) (fun m => negb (less key (at_ m)))
    lastOfs offset.

Definition kMinGallopWins : nat := 7.

(** Where a merge stands: taking one element at a time and counting the
    wins in a row of each run, or galloping. *)
Inductive MergePhase : Type :=
| OneAtATime (nofWinsA nofWinsB : nat)
| Galloping.

(** The loops of [MergeLow].  [dest] is what has been written, [a] what
    is left of the copy of run A, [b] what is left of run B; the result is
    the merged range and the [minGallop] that the sort state keeps. *)
Fixpoint MergeLow_loop (fuel : nat) (phase : MergePhase) (minGallop : nat)
  (dest a b : list A) : list A * nat :=
  match fuel, a, b with
  | S fuel', a0 :: a', b0 :: b' =>
      match phase with
      | OneAtATime nofWinsA nofWinsB =>
          if less b0 a0 then
            let dest := (dest ++ [b0])%list in
            let nofWinsB := S nofWinsB in
            match b' with
            | [] => ((dest ++ a)%list, minGallop)
            | _ :: _ =>
                if (minGallop <=? nofWinsB)%nat
                then MergeLow_loop fuel' Galloping (S minGallop) dest a b'
                else MergeLow_loop fuel' (OneAtATime 0 nofWinsB) minGallop
                       dest a b'
            end
          else
            let dest := (dest ++ [a0])%list in
            let nofWinsA := S nofWinsA in
            if (List.length a' =? 1)%nat then ((dest ++ b ++ a')%list, minGallop)
            else if (minGallop <=? nofWinsA)%nat
            then MergeLow_loop fuel' Galloping (S minGallop) dest a' b
            else MergeLow_loop fuel' (OneAtATime nofWinsA 0) minGallop
                   dest a' b
      | Galloping =>
          let minGallop := Nat.max 1 (minGallop - 1) in
          let nofWinsA := GallopRight b0 a 0 in
          let dest := (dest ++ firstn nofWinsA a)%list in
          let a := skipn nofWinsA a in
          if (0 <? nofWinsA)%nat && (List.length a =? 1)%nat
          then ((dest ++ b ++ a)%list, minGallop)
          else
          match a with
          | [] => ((dest ++ b)%list, minGallop)
          | a0 :: a' =>
              let dest := (dest ++ [b0])%list in
              match b' with
              | [] => ((dest ++ a)%list, minGallop)
              | _ :: _ =>
                  let nofWinsB := GallopLeft a0 b' 0 in
                  let dest := (dest ++ firstn nofWinsB b')%list in
                  let b := skipn nofWinsB b' in
                  match b with
                  | [] => ((dest ++ a)%list, minGallop)
                  | _ :: _ =>
                      let dest := (dest ++ [a0])%list in
                      if (List.length a' =? 1)%nat
                      then ((dest ++ b ++ a')%list, minGallop)
                      else if (kMinGallopWins <=? nofWinsA)%nat
                              || (kMinGallopWins <=? nofWinsB)%nat
                      then MergeLow_loop fuel' Galloping minGallop dest a' b
                      else MergeLow_loop fuel' (OneAtATime 0 0) (S minGallop)
                             dest a' b
                  end
              end
          end
      end
  | _, _, _ => ((dest ++ a ++ b)%list, minGallop)
  end.

(** [MergeLow]: run A, the shorter, is copied aside and the two runs are
    merged from the left. *)
Definition MergeLow (minGallop : nat) (a b : list A) : list A * nat :=
  match b with
  | [] => (a, minGallop)
  | b0 :: b' =>
      match b' with
      | [] => (b0 :: a, minGallop)
      | _ :: _ =>
          if (List.length a =? 1)%nat then ((b0 :: b' ++ a)%list, minGallop)
          else MergeLow_loop (List.length a + List.length b') (OneAtATime 0 0)
                 minGallop [b0] a b'
      end
  end.

(** A list without its last element, and that element. *)
Definition unsnoc (l : list A) : option (list A * A) :=
  match rev l with
  | [] => None
  | x :: front => Some (rev front, x)
  end.

(** The loops of [MergeHigh]: the runs are merged from the right, [dest]
    being what has been written at the right end. *)
Fixpoint MergeHigh_loop (fuel : nat) (phase : MergePhase) (minGallop : nat)
  (a b dest : list A) : list A * nat :=
  match fuel, unsnoc a, unsnoc b with
  | S fuel', Some (a', aLast), Some (b', bLast) =>
      match phase with
      | OneAtATime nofWinsA nofWinsB =>
          if less bLast aLast then
            let dest := aLast :: dest in
            let nofWinsA := S nofWinsA in
            match a' with
            | [] => ((b ++ dest)%list, minGallop)
            | _ :: _ =>
                if (minGallop <=? nofWinsA)%nat
                then MergeHigh_loop fuel' Galloping (S minGallop) a' b dest
                else MergeHigh_loop fuel' (OneAtATime nofWinsA 0) minGallop
                       a' b dest
            end
          else
            let dest := bLast :: dest in
            let nofWinsB := S nofWinsB in
            if (List.length b' =? 1)%nat then ((b' ++ a ++ dest)%list, minGallop)
            else if (minGallop <=? nofWinsB)%nat
            then MergeHigh_loop fuel' Galloping (S minGallop) a b' dest
            else MergeHigh_loop fuel' (OneAtATime 0 nofWinsB) minGallop
                   a b' dest
      | Galloping =>
          let minGallop := Nat.max 1 (minGallop - 1) in
          let k := GallopRight bLast a (List.length a - 1) in
          let nofWinsA := (List.length a - k)%nat in
          let dest := (skipn k a ++ dest)%list in
          let a := firstn k a in
          match unsnoc a with
          | None => ((b ++ dest)%list, minGallop)
          | Some (a', aLast) =>
              let dest := bLast :: dest in
              if (List.length b' =? 1)%nat
              then ((b' ++ a ++ dest)%list, minGallop)
              else
                let k := GallopLeft aLast b' (List.length b' - 1) in
                let nofWinsB := (List.length b' - k)%nat in
                let dest := (skipn k b' ++ dest)%list in
                let b := firstn k b' in
                if (0 <? nofWinsB)%nat && (List.length b =? 1)%nat
                then ((b ++ a ++ dest)%list, minGallop)
                else
                match b with
                | [] => ((a ++ dest)%list, minGallop)
                | _ :: _ =>
                    let dest := aLast :: dest in
                    match a' with
                    | [] => ((b ++ dest)%list, minGallop)
                    | _ :: _ =>
                        if (kMinGallopWins <=? nofWinsA)%nat
                           || (kMinGallopWins <=? nofWinsB)%nat
                        then MergeHigh_loop fuel' Galloping minGallop a' b dest
                        else MergeHigh_loop fuel' (OneAtATime 0 0) (S minGallop)
                               a' b dest
                    end
                end
          end
      end
  | _, _, _ => ((a ++ b ++ dest)%list, minGallop)
  end.

(** [MergeHigh]: run B, the shorter, is copied aside. *)
Definition MergeHigh (minGallop : nat) (a b : list A) : list A * nat :=
  match unsnoc a with
  | None => (b, minGallop)
  | Some (a', aLast) =>
      match a' with
      | [] => ((b ++ [aLast])%list, minGallop)
      | _ :: _ =>
          if (List.length b =? 1)%nat then ((b ++ a' ++ [aLast])%list, minGallop)
          else MergeHigh_loop (List.length a' + List.length b) (OneAtATime 0 0)
                 minGallop a' b [aLast]
      end
  end.

(** The body of [MergeAt] on two neighbouring runs: what of A is already
    in place before B starts, what of B after A ends, and the merge of the
    rest. *)
Definition merge_runs (minGallop : nat) (a b : list A) : list A * nat :=
  match b with
  | [] => (a, minGallop)
  | keyRight :: _ =>
      let k := GallopRight keyRight a 0 in
      match unsnoc (skipn k a) with
      | None => ((a ++ b)%list, minGallop)
      | Some (_, keyLeft) =>
          let lengthB := GallopLeft keyLeft b (List.length b - 1) in
          match firstn lengthB b with
          | [] => ((a ++ b)%list, minGallop)
          | _ :: _ =>
              let '(merged, minGallop) :=
                if (List.length (skipn k a) <=? lengthB)%nat
                then MergeLow minGallop (skipn k a) (firstn lengthB b)
                else MergeHigh minGallop (skipn k a) (firstn lengthB b) in
              ((firstn k a ++ merged ++ skipn lengthB b)%list, minGallop)
          end
      end
  end.

(** The sort state: the runs that wait to be merged, the latest first,
    and the threshold of galloping. *)
Record SortState : Type := {
  pendingRuns : list (list A);
  minGallop : nat
}.

(** [MergeAt(n)] for [n] the last run but one, and for [n] the last run
    but two. *)
Definition MergeAt_top (st : SortState) : SortState :=
  match pendingRuns st with
  | top :: second :: rest =>
      let '(merged, mg) := merge_runs (minGallop st) second top in
      {| pendingRuns := merged :: rest; minGallop := mg |}
  | _ => st
  end.

Definition MergeAt_below (st : SortState) : SortState :=
  match pendingRuns st with
  | top :: second :: third :: rest =>
      let '(merged, mg) := merge_runs (minGallop st) third second in
      {| pendingRuns := top :: merged :: rest; minGallop := mg |}
  | _ => st
  end.

(** [MergeCollapse]: merge until the lengths of the pending runs grow
    fast enough towards the bottom of the stack. *)
Fixpoint MergeCollapse (fuel : nat) (st : SortState) : SortState :=
  match fuel with
  | O => st
  | S fuel' =>
      match pendingRuns st with
      | top :: second :: rest =>
          let established_top :=
            match rest with
            | third :: _ =>
                (List.length second + List.length top <? List.length third)%nat
            | [] => true
            end in
          let established_second :=
            match rest with
            | third :: fourth :: _ =>
                (List.length third + List.length second <? List.length fourth)%nat
            | _ => true
            end in
          if negb established_top || negb established_second then
            match rest with
            | third :: _ =>
                if (List.length third <? List.length top)%nat
                then MergeCollapse fuel' (MergeAt_below st)
                else MergeCollapse fuel' (MergeAt_top st)
            | [] => MergeCollapse fuel' (MergeAt_top st)
            end
          else if (List.length second <=? List.length top)%nat
          then MergeCollapse fuel' (MergeAt_top st)
          else st
      | _ => st
      end
  end.

(** [MergeForceCollapse]: merge until one run is left. *)
Fixpoint MergeForceCollapse (fuel : nat) (st : SortState) : SortState :=
  match fuel with
  | O => st
  | S fuel' =>
      match pendingRuns st with
      | top :: second :: rest =>
          match rest with
          | third :: _ =>
              if (List.length third <? List.length top)%nat
              then MergeForceCollapse fuel' (MergeAt_below st)
              else MergeForceCollapse fuel' (MergeAt_top st)
          | [] => MergeForceCollapse fuel' (MergeAt_top st)
          end
      | _ => st
      end
  end.

(** [ComputeMinRunLength]: [n] itself below 64, else a number from 32 to
    64. *)
Fixpoint ComputeMinRunLength_loop (fuel n r : nat) : nat :=
  match fuel with
  | O => (n + r)%nat
  | S fuel' =>
      if (64 <=? n)%nat
      then ComputeMinRunLength_loop fuel' (n / 2) (Nat.lor r (Nat.land n 1))
      else (n + r)%nat
  end.

Definition ComputeMinRunLength (n : nat) : nat := ComputeMinRunLength_loop n n 0.

(** The loop of [ArrayTimSortImpl] over what remains of the array. *)
Fixpoint runs_loop (fuel minRunLength : nat) (remaining : list A)
  (st : SortState) : SortState :=
  match fuel, remaining with
  | S fuel', _ :: _ =>
      let '(run, rest) := CountAndMakeRun remaining in
      let '(run, rest) :=
        if (List.length run <? minRunLength)%nat then
          let forcedRunLength := Nat.min minRunLength (List.length remaining) in
          let more := (forcedRunLength - List.length run)%nat in
          (BinaryInsertionSort run (firstn more rest), skipn more rest)
        else (run, rest) in
      let st := {| pendingRuns := run :: pendingRuns st;
                   minGallop := minGallop st |} in
      runs_loop fuel' minRunLength rest
        (MergeCollapse (List.length (pendingRuns st)) st)
  | _, _ => st
  end.

(** [ArrayTimSort]: the sort of the elements of an array. *)
Definition ArrayTimSort (l : list A) : list A :=
  if (List.length l <? 2)%nat then l
  else
    let st := runs_loop (List.length l) (ComputeMinRunLength (List.length l)) l
                {| pendingRuns := []; minGallop := kMinGallopWins |} in
    let st := MergeForceCollapse (List.length (pendingRuns st)) st in
    List.concat (rev (pendingRuns st)).

(** [a] may stand directly before [b]: the comparator does not put [b]
    before [a]. *)
Definition in_order (a b : A) : Prop := less b a = false.

(** The comparator never puts [a] before [b] and [b] before [a]. *)
Definition sign_antisymmetric : Prop :=
  forall a b, less a b = true -> less b a = false.

(** The last element of [l1] may stand directly before the first of
    [l2]. *)
Definition joint (l1 l2 : list A) : Prop :=
  match rev l1, l2 with
  | x :: _, y :: _ => in_order x y
  | _, _ => True
  end.

(** What a search for the place of [key] in [a] finds: [key] may stand
    between the first [k] elements of [a] and the others. *)
Definition fits_at (key : A) (a : list A) (k : nat) : Prop :=
  (k <= List.length a)%nat
  /\ joint (firstn k a) [key] /\ joint [key] (skipn k a).

(** The state of a merge from the left: what has been written goes on in
    order through what is left of either run and through [after], the
    elements behind the merged range; the last element of run A stands
    behind what is left of run B. *)
Definition low_ready (after dest a b : list A) : Prop :=
  Sorted in_order (dest ++ a ++ after)
  /\ Sorted in_order (dest ++ b ++ after)
  /\ (forall a' x, a = (a' ++ [x])%list -> joint b [x]).

Definition low_done (after dest a b result : list A) : Prop :=
  exists t, result = (dest ++ t)%list
            /\ Permutation t (a ++ b)
            /\ Sorted in_order (dest ++ t ++ after).

(** The state of a merge from the right, with [before] the elements in
    front of the merged range. *)
Definition high_ready (before a b dest : list A) : Prop :=
  Sorted in_order (before ++ a ++ dest)
  /\ Sorted in_order (before ++ b ++ dest)
  /\ (forall y b', b = y :: b' -> joint [y] a).

Definition high_done (before a b dest result : list A) : Prop :=
  exists t, result = (t ++ dest)%list
            /\ Permutation t (a ++ b)
            /\ Sorted in_order (before ++ t ++ dest).

(** What a step on the sort state keeps: the pending runs stay in order
    and hold the same elements. *)
Definition runs_kept (st st' : SortState) : Prop :=
  Forall (Sorted in_order) (pendingRuns st) ->
  Forall (Sorted in_order) (pendingRuns st')
  /\ Permutation (List.concat (pendingRuns st')) (List.concat (pendingRuns st)).
End Sort.

(** [Compare(x, y) < 0] for a comparator that returns a [number], and
    [Array.prototype.sort(comparefn)] with such a comparator. *)
Definition below_zero {A : Type} (cmp : A -> A -> number) (x y : A) : bool :=
  number_is_neg (cmp x y).

Definition js_sort {A : Type} (cmp : A -> A -> number) (l : list A) : list A :=
  ArrayTimSort (below_zero cmp) l.

(** ** [lib/store] *)

Record StoreData : Type := {
  audioFiles : JsMap AudioFile.t;
  transcriptions : JsMap Transcription.t;
  lectures : JsMap Lecture.t;
  podcastScripts : JsMap PodcastScript.t;
  status : ProcessingStatus.t
}.

Definition createStore : StoreData :=
  {| audioFiles := []; transcriptions := []; lectures := [];
     podcastScripts := [];
     status := {| ProcessingStatus.totalFiles := 0;
                  ProcessingStatus.transcribedFiles := 0;
                  ProcessingStatus.lecturesGenerated := 0;
                  ProcessingStatus.phase := phase_idle;
                  ProcessingStatus.errorMessage := None |} |}.

Definition with_audioFiles (m : JsMap AudioFile.t) (s : StoreData) : StoreData :=
  {| audioFiles := m; transcriptions := transcriptions s;
     lectures := lectures s; podcastScripts := podcastScripts s;
     status := status s |}.

Definition with_transcriptions (m : JsMap Transcription.t) (s : StoreData)
  : StoreData :=
  {| audioFiles := audioFiles s; transcriptions := m;
     lectures := lectures s; podcastScripts := podcastScripts s;
     status := status s |}.

Definition with_lectures (m : JsMap Lecture.t) (s : StoreData) : StoreData :=
  {| audioFiles := audioFiles s; transcriptions := transcriptions s;
     lectures := m; podcastScripts := podcastScripts s;
     status := status s |}.

Definition with_status (st : ProcessingStatus.t) (s : StoreData) : StoreData :=
  {| audioFiles := audioFiles s; transcriptions := transcriptions s;
     lectures := lectures s; podcastScripts := podcastScripts s;
     status := st |}.

Definition addAudioFile (file : AudioFile.t) (s : StoreData) : StoreData :=
  with_audioFiles (map_set (AudioFile.id file) file (audioFiles s)) s.

Definition getAudioFile (id : string) (s : StoreData) : option AudioFile.t :=
  map_get id (audioFiles s).

Definition updateAudioFile (id : string) (updates : AudioFile.partial)
  (s : StoreData) : StoreData :=
  match map_get id (audioFiles s) with
  | Some existing =>
      with_audioFiles
        (map_set id (AudioFile.spread existing updates) (audioFiles s)) s
  | None => s
  end.

Definition getAllAudioFiles (s : StoreData) : list AudioFile.t :=
  map_values (audioFiles s).

Definition addTranscription (t : Transcription.t) (s : StoreData) : StoreData :=
  with_transcriptions
    (map_set (Transcription.audioFileId t) t (transcriptions s)) s.

Definition getTranscription (audioFileId : string) (s : StoreData)
  : option Transcription.t :=
  map_get audioFileId (transcriptions s).

Definition addLecture (lecture : Lecture.t) (s : StoreData) : StoreData :=
  with_lectures (map_set (Lecture.id lecture) lecture (lectures s)) s.

Definition getLecture (id : string) (s : StoreData) : option Lecture.t :=
  map_get id (lectures s).

(** The comparator of [getAllLectures], and [Compare(a, b) < 0] on it. *)
Definition compareLectureNumber (a b : Lecture.t) : double :=
  double_sub (Lecture.lectureNumber a) (Lecture.lectureNumber b).

Definition lecture_less (a b : Lecture.t) : bool :=
  double_is_neg (compareLectureNumber a b).

Definition getAllLectures (s : StoreData) : list Lecture.t :=
  ArrayTimSort lecture_less (map_values (lectures s)).

Definition clearLectures (s : StoreData) : StoreData := with_lectures [] s.

Definition getStatus (s : StoreData) : ProcessingStatus.t := status s.

Definition updateStatus (updates : ProcessingStatus.partial) (s : StoreData)
  : StoreData :=
  with_status (ProcessingStatus.spread (status s) updates) s.

(** ** [api/process]: the chronological order of recordings *)

Definition getTime (rt : Runtime) (iso : string) : number :=
  match dateParse rt iso with
  | Some t => Fin t
  | None => NaN
  end.

Definition CLOSE_THRESHOLD_MS : number := Fin (5 * 60 * 1000).

(** The comparator handed to [sort]. *)
Definition compareRecordings (rt : Runtime) (a b : AudioFile.t) : number :=
  let timeA := getTime rt (AudioFile.recordedAt a) in
  let timeB := getTime rt (AudioFile.recordedAt b) in
  let timeDiff := number_sub timeA timeB in
  if number_ltb (number_abs timeDiff) CLOSE_THRESHOLD_MS then
    match parseSequenceFromFilename (AudioFile.originalName a),
          parseSequenceFromFilename (AudioFile.originalName b) with
    | Some seqA, Some seqB => number_sub seqA seqB
    | _, _ => timeDiff
    end
  else timeDiff.

Definition order (rt : Runtime) (recordings : list AudioFile.t)
  : list AudioFile.t :=
  js_sort (compareRecordings rt) recordings.

(** ** Request handlers

    A handler runs against the store; besides its result and the store it
    leaves, it yields every store it wrote on the way, oldest first, since
    each write is visible to the next request. *)

Definition Handler (A : Type) : Type :=
  StoreData -> A * StoreData * list StoreData.

Definition ret {A : Type} (a : A) : Handler A := fun s => (a, s, []).

Definition bind {A B : Type} (m : Handler A) (f : A -> Handler B) : Handler B :=
  fun s =>
    let '(a, s1, t1) := m s in
    let '(b, s2, t2) := f a s1 in
    (b, s2, (t1 ++ t2)%list).

Definition read {A : Type} (f : StoreData -> A) : Handler A :=
  fun s => (f s, s, []).

Definition write (f : StoreData -> StoreData) : Handler unit :=
  fun s => (tt, f s, [f s]).

Declare Scope handler_scope.
Delimit Scope handler_scope with handler.
Notation "x <- m ;; k" := (bind m (fun x => k))
  (at level 61, m at next level, right associativity) : handler_scope.
Notation "m ;; k" := (bind m (fun _ => k))
  (at level 61, right associativity) : handler_scope.
Open Scope handler_scope.

Definition result_of {A : Type} (r : A * StoreData * list StoreData) : A :=
  fst (fst r).
Definition final_store {A : Type} (r : A * StoreData * list StoreData)
  : StoreData := snd (fst r).
Definition writes_of {A : Type} (r : A * StoreData * list StoreData)
  : list StoreData := snd r.

(** *** [lib/deepgram] and [api/transcribe] *)

(** What the speech service answers for a file path and a media type. *)
Record SpeechResult : Type := {
  sr_text : string;
  sr_words : list Transcription.word;
  sr_confidence : Z;
  sr_duration : Z;
  sr_paragraphs : option (list string)
}.

Definition SpeechService : Type := string -> string -> outcome SpeechResult.

Definition transcribeAudioFile (svc : SpeechService)
  (filePath audioFileId mimeType : string) : outcome Transcription.t :=
  match svc filePath mimeType with
  | Returns r =>
      Returns {| Transcription.audioFileId := audioFileId;
                 Transcription.text := sr_text r;
                 Transcription.words := sr_words r;
                 Transcription.confidence := sr_confidence r;
                 Transcription.duration := sr_duration r;
                 Transcription.paragraphs := sr_paragraphs r |}
  | Throws message => Throws message
  end.

Record TranscribeResult : Type := {
  result_id : string;
  result_status : FileStatus;
  result_error : option string
}.

Inductive TranscribeResponse : Type :=
| NoFilesToTranscribe
| Transcribed (results : list TranscribeResult)
| TranscribeFailed (message : string).

Definition set_status (st : FileStatus) : AudioFile.partial :=
  {| AudioFile.id' := None; AudioFile.originalName' := None;
     AudioFile.savedPath' := None; AudioFile.mimeType' := None;
     AudioFile.size' := None; AudioFile.recordedAt' := None;
     AudioFile.uploadedAt' := None; AudioFile.status' := Some st;
     AudioFile.errorMessage' := None |}.

Definition set_error (message : string) : AudioFile.partial :=
  {| AudioFile.id' := None; AudioFile.originalName' := None;
     AudioFile.savedPath' := None; AudioFile.mimeType' := None;
     AudioFile.size' := None; AudioFile.recordedAt' := None;
     AudioFile.uploadedAt' := None; AudioFile.status' := Some error;
     AudioFile.errorMessage' := Some (Some message) |}.

Definition set_phase (p : Phase) : ProcessingStatus.partial :=
  {| ProcessingStatus.totalFiles' := None;
     ProcessingStatus.transcribedFiles' := None;
     ProcessingStatus.lecturesGenerated' := None;
     ProcessingStatus.phase' := Some p;
     ProcessingStatus.errorMessage' := None |}.

Definition set_transcribedFiles (n : Z) : ProcessingStatus.partial :=
  {| ProcessingStatus.totalFiles' := None;
     ProcessingStatus.transcribedFiles' := Some n;
     ProcessingStatus.lecturesGenerated' := None;
     ProcessingStatus.phase' := None;
     ProcessingStatus.errorMessage' := None |}.

Definition set_failure (message : string) : ProcessingStatus.partial :=
  {| ProcessingStatus.totalFiles' := None;
     ProcessingStatus.transcribedFiles' := None;
     ProcessingStatus.lecturesGenerated' := None;
     ProcessingStatus.phase' := Some phase_error;
     ProcessingStatus.errorMessage' := Some (Some message) |}.

Definition set_complete (n : Z) : ProcessingStatus.partial :=
  {| ProcessingStatus.totalFiles' := None;
     ProcessingStatus.transcribedFiles' := None;
     ProcessingStatus.lecturesGenerated' := Some n;
     ProcessingStatus.phase' := Some phase_complete;
     ProcessingStatus.errorMessage' := None |}.

Definition is_transcribed (f : AudioFile.t) : bool :=
  FileStatus_eqb (AudioFile.status f) transcribed.

Definition is_uploaded (f : AudioFile.t) : bool :=
  FileStatus_eqb (AudioFile.status f) uploaded.

Definition is_done (f : AudioFile.t) : bool :=
  FileStatus_eqb (AudioFile.status f) transcribed
  || FileStatus_eqb (AudioFile.status f) error.

Definition includes (ids : list string) (id : string) : bool :=
  existsb (String.eqb id) ids.

(** The body of [for (const file of toTranscribe)]. *)
Definition transcribe_one (svc : SpeechService) (file : AudioFile.t)
  : Handler TranscribeResult :=
  write (updateAudioFile (AudioFile.id file) (set_status transcribing)) ;;
  r <- match transcribeAudioFile svc (AudioFile.savedPath file)
               (AudioFile.id file) (AudioFile.mimeType file) with
       | Returns transcription =>
           write (addTranscription transcription) ;;
           write (updateAudioFile (AudioFile.id file) (set_status transcribed)) ;;
           ret {| result_id := AudioFile.id file;
                  result_status := transcribed;
                  result_error := None |}
       | Throws message =>
           write (updateAudioFile (AudioFile.id file) (set_error message)) ;;
           ret {| result_id := AudioFile.id file;
                  result_status := error;
                  result_error := Some message |}
       end ;;
  count <- read (fun s =>
             Z.of_nat (List.length (filter is_transcribed (getAllAudioFiles s)))) ;;
  write (updateStatus (set_transcribedFiles count)) ;;
  ret r.

Fixpoint transcribe_loop (svc : SpeechService) (toTranscribe : list AudioFile.t)
  (results : list TranscribeResult) : Handler (list TranscribeResult) :=
  match toTranscribe with
  | [] => ret results
  | file :: rest =>
      r <- transcribe_one svc file ;;
      transcribe_loop svc rest (results ++ [r])%list
  end.

(** [String.prototype.includes]: [sub] occurs in [text]. *)
Fixpoint string_includes (text sub : string) : bool :=
  String.prefix sub text
  || match text with
     | EmptyString => false
     | String _ rest => string_includes rest sub
     end.

(** What the body of the request has under [fileIds], a value of JSON that
    the code does not check:
    - nothing, or a value that counts as false ([null], [false], [0], the
      empty string);
    - an array, of which [ids] are the elements that are strings: no other
      element is equal to the id of a recording;
    - a string that is not empty, whose [includes] looks for the id inside
      the text;
    - a number, [true] or an object: it has no [includes] to call, and the
      call throws a [TypeError] with the message given. *)
Inductive FileIds : Type :=
| NoFileIds
| IdArray (ids : list string)
| IdText (text : string)
| NoIncludes (message : string).

(** The body as [request.json().catch(() => ({}))] leaves it: JSON [null],
    on which reading [fileIds] throws a [TypeError] with the message
    given; or any other value, the empty object of a body that does not
    parse among them, with what it has under [fileIds]. *)
Inductive TranscribeBody : Type :=
| BodyNull (message : string)
| Body (fileIds : FileIds).

(** [toTranscribe].  [filter] calls [includes] once for each recording, so
    without recordings nothing is called and nothing thrown. *)
Definition select_files (fileIds : FileIds) (allFiles : list AudioFile.t)
  : outcome (list AudioFile.t) :=
  match fileIds with
  | NoFileIds => Returns (filter is_uploaded allFiles)
  | IdArray ids =>
      Returns (filter (fun f => includes ids (AudioFile.id f)) allFiles)
  | IdText text =>
      if String.eqb text "" then Returns (filter is_uploaded allFiles)
      else Returns (filter (fun f => string_includes text (AudioFile.id f))
                      allFiles)
  | NoIncludes message =>
      match allFiles with
      | [] => Returns []
      | _ :: _ => Throws message
      end
  end.

(** The outer [catch]. *)
Definition transcribe_failed (message : string) : Handler TranscribeResponse :=
  write (updateStatus (set_failure message)) ;;
  ret (TranscribeFailed message).

(** The request from [if (toTranscribe.length === 0)] on.  Nothing here
    throws as far as the outer [catch]: a failure of the speech service is
    caught inside the loop. *)
Definition transcribe_files (svc : SpeechService)
  (toTranscribe : list AudioFile.t) : Handler TranscribeResponse :=
  match toTranscribe with
  | [] => ret NoFilesToTranscribe
  | _ :: _ =>
      write (updateStatus (set_phase phase_transcribing)) ;;
      results <- transcribe_loop svc toTranscribe [] ;;
      allDone <- read (fun s => forallb is_done (getAllAudioFiles s)) ;;
      (if allDone then write (updateStatus (set_phase phase_processing))
       else ret tt) ;;
      ret (Transcribed results)
  end.

(** [POST /api/transcribe] *)
Definition POST_transcribe (svc : SpeechService) (body : TranscribeBody)
  : Handler TranscribeResponse :=
  match body with
  | BodyNull message => transcribe_failed message
  | Body fileIds =>
      allFiles <- read getAllAudioFiles ;;
      match select_files fileIds allFiles with
      | Throws message => transcribe_failed message
      | Returns toTranscribe => transcribe_files svc toTranscribe
      end
  end.

(** The recordings that a request selects from the store it finds, none
    when it fails first; and the message of that failure. *)
Definition selected (body : TranscribeBody) (s : StoreData)
  : list AudioFile.t :=
  match body with
  | BodyNull _ => []
  | Body fileIds =>
      match select_files fileIds (getAllAudioFiles s) with
      | Returns toTranscribe => toTranscribe
      | Throws _ => []
      end
  end.

Definition transcribe_failure (body : TranscribeBody) (s : StoreData)
  : option string :=
  match body with
  | BodyNull message => Some message
  | Body fileIds =>
      match select_files fileIds (getAllAudioFiles s) with
      | Returns _ => None
      | Throws message => Some message
      end
  end.

(** *** [lib/gemini] and [api/process] *)

Record TranscriptionInput : Type := {
  input_id : string;
  input_originalName : string;
  input_recordedAt : string;
  input_transcript : string
}.

Record LectureGroup : Type := {
  group_lectureNumber : double;
  group_title : string;
  group_summary : string;
  group_keyTopics : list string;
  group_audioFileIds : list string
}.

(** An element of the parsed [lectures] array: a group as typed, or a value
    whose [audioFileIds] is not an array, so that mapping over it throws a
    [TypeError] with the given message. *)
Inductive GroupValue : Type :=
| WellFormed (g : LectureGroup)
| NoAudioFileIds (message : string).

(** What [JSON.parse(raw).lectures] evaluates to: an array, or a value that
    [for ... of] cannot iterate (a missing field among them), which throws a
    [TypeError] with the given message. *)
Inductive LecturesValue : Type :=
| Groups (gs : list GroupValue)
| NotIterable (message : string).

(** [inferLectures]: it throws when the credential is missing, when the
    call fails, when the answer is not text or is not JSON; otherwise it
    returns the [lectures] field of the parsed answer, unchecked. *)
Definition GroupingService : Type :=
  list TranscriptionInput -> outcome LecturesValue.

(** What the handler takes from its host besides the store. *)
Record Host : Type := {
  runtime : Runtime;
  (** the identifier that the k-th call of [uuidv4] in a request returns *)
  uuidv4 : nat -> string;
  (** [new Date().getTime()] *)
  now : Z;
  toLocaleDateString : option Z -> string;
  toISOString : Z -> string
}.

Inductive ProcessResponse : Type :=
| NoTranscribedFiles
| LecturesSaved (data : list Lecture.t)
| ProcessFailed (message : string).

Definition find_file (sorted : list AudioFile.t) (id : string)
  : option AudioFile.t :=
  find (fun f => String.eqb (AudioFile.id f) id) sorted.

(** [ids.map((id) => sorted.find(...)).filter(Boolean)] *)
Definition groupFiles_of (sorted : list AudioFile.t) (ids : list string)
  : list AudioFile.t :=
  flat_map (fun id => match find_file sorted id with
                      | Some f => [f]
                      | None => []
                      end) ids.

(** What stands between the name and the date in a header: in the source
    the three characters U+00E2, U+20AC and U+201D, an em dash read in
    another encoding; here their eight bytes in UTF-8. *)
Definition header_dash : string :=
  string_of_list_ascii
    (map ascii_of_nat [195; 162; 226; 130; 172; 226; 128; 157]%nat).

Definition newline : string := String (ascii_of_nat 10) EmptyString.

Definition transcript_text (s : StoreData) (id default : string) : string :=
  match getTranscription id s with
  | Some t => Transcription.text t
  | None => default
  end.

Definition section_of (h : Host) (s : StoreData) (f : AudioFile.t) : string :=
  let header :=
    "[" ++ AudioFile.originalName f ++ " " ++ header_dash ++ " "
        ++ toLocaleDateString h (dateParse (runtime h) (AudioFile.recordedAt f))
        ++ "]" in
  header ++ newline ++ transcript_text s (AudioFile.id f) "".

Definition valid_times (rt : Runtime) (files : list AudioFile.t) : list Z :=
  flat_map (fun f => match dateParse rt (AudioFile.recordedAt f) with
                     | Some t => [t]
                     | None => []
                     end) files.

Definition earliest (h : Host) (dates : list Z) : Z :=
  match dates with
  | [] => now h
  | t :: rest => fold_left Z.min rest t
  end.

Definition build_lecture (h : Host) (s : StoreData) (sorted : list AudioFile.t)
  (k : nat) (group : LectureGroup) : Lecture.t :=
  let groupFiles := groupFiles_of sorted (group_audioFileIds group) in
  let fullTranscript :=
    String.concat (newline ++ newline ++ "---" ++ newline ++ newline)
      (map (section_of h s) groupFiles) in
  let dates := valid_times (runtime h) groupFiles in
  {| Lecture.id := uuidv4 h k;
     Lecture.lectureNumber := group_lectureNumber group;
     Lecture.title := group_title group;
     Lecture.summary := group_summary group;
     Lecture.keyTopics := group_keyTopics group;
     Lecture.audioFileIds := group_audioFileIds group;
     Lecture.fullTranscript := fullTranscript;
     Lecture.createdAt := toISOString h (earliest h dates) |}.

(** [for (const group of lectureGroups)]: the loop stops at the first
    element that throws. *)
Fixpoint rebuild (h : Host) (sorted : list AudioFile.t) (groups : list GroupValue)
  (savedLectures : list Lecture.t) : Handler (outcome (list Lecture.t)) :=
  match groups with
  | [] => ret (Returns savedLectures)
  | NoAudioFileIds message :: _ => ret (Throws message)
  | WellFormed group :: rest =>
      lecture <- read (fun s =>
                   build_lecture h s sorted (List.length savedLectures) group) ;;
      write (addLecture lecture) ;;
      rebuild h sorted rest (savedLectures ++ [lecture])%list
  end.

Definition input_of (s : StoreData) (f : AudioFile.t) : TranscriptionInput :=
  {| input_id := AudioFile.id f;
     input_originalName := AudioFile.originalName f;
     input_recordedAt := AudioFile.recordedAt f;
     input_transcript := transcript_text s (AudioFile.id f) "(no transcript)" |}.

(** The [catch] of the handler. *)
Definition process_failed (message : string) : Handler ProcessResponse :=
  write (updateStatus (set_failure message)) ;;
  ret (ProcessFailed message).

(** [POST /api/process]. *)
Definition POST_process (h : Host) (inferLectures : GroupingService)
  : Handler ProcessResponse :=
  write (updateStatus (set_phase phase_processing)) ;;
  audioFiles <- read getAllAudioFiles ;;
  match filter is_transcribed audioFiles with
  | [] => ret NoTranscribedFiles
  | transcribedFiles =>
      let sorted := order (runtime h) transcribedFiles in
      inputs <- read (fun s => map (input_of s) sorted) ;;
      match inferLectures inputs with
      | Throws message => process_failed message
      | Returns lectureGroups =>
          write clearLectures ;;
          match lectureGroups with
          | NotIterable message => process_failed message
          | Groups gs =>
              r <- rebuild h sorted gs [] ;;
              match r with
              | Throws message => process_failed message
              | Returns savedLectures =>
                  write (updateStatus
                           (set_complete (Z.of_nat (List.length savedLectures)))) ;;
                  ret (LecturesSaved savedLectures)
              end
          end
      end
  end.

Definition process_inputs (h : Host) (s : StoreData) : list TranscriptionInput :=
  map (input_of s)
      (order (runtime h) (filter is_transcribed (getAllAudioFiles s))).

(** ** The life cycle of a recording *)

(** The edges of the life cycle of a recording. *)
Definition forward_edge (a b : FileStatus) : bool :=
  match a, b with
  | uploaded, transcribing
  | transcribing, transcribed
  | transcribing, error => true
  | _, _ => false
  end.

Definition moves_forward (a b : FileStatus) : Prop :=
  a = b \/ forward_edge a b = true.

(** From one store to the next, every recording stays, and its status
    stays or follows one edge. *)
Definition statuses_forward (s s' : StoreData) : Prop :=
  forall id f,
    getAudioFile id s = Some f ->
    exists f', getAudioFile id s' = Some f'
               /\ moves_forward (AudioFile.status f) (AudioFile.status f').

(** [R] holds between each store of a history and the next. *)
Fixpoint stepwise (R : StoreData -> StoreData -> Prop) (s : StoreData)
  (writes : list StoreData) : Prop :=
  match writes with
  | [] => True
  | s' :: rest => R s s' /\ stepwise R s' rest
  end.

(** The recordings form a map: one entry per key, filed under its own id. *)
Definition well_keyed (s : StoreData) : Prop :=
  NoDup (map_keys (audioFiles s))
  /\ Forall (fun kv => fst kv = AudioFile.id (snd kv)) (audioFiles s).

(** What a handler run from [s] is shown to satisfy: its writes form a
    history that moves by [R], a write at a time; the store it leaves is
    the last one written; and [Q] holds of its result and of that store. *)
Definition run_ok {A : Type} (R : StoreData -> StoreData -> Prop)
  (m : Handler A) (s : StoreData) (Q : A -> StoreData -> Prop) : Prop :=
  stepwise R s (writes_of (m s))
  /\ final_store (m s) = last (writes_of (m s)) s
  /\ Q (result_of (m s)) (final_store (m s)).

(** ** Sample data *)

Definition sample_file (id name recordedAt : string) (st : FileStatus)
  : AudioFile.t :=
  {| AudioFile.id := id;
     AudioFile.originalName := name;
     AudioFile.savedPath := "/tmp/crammer-uploads/" ++ id ++ ".m4a";
     AudioFile.mimeType := "audio/x-m4a";
     AudioFile.size := 1024;
     AudioFile.recordedAt := recordedAt;
     AudioFile.uploadedAt := "2024-01-16T08:00:00.000Z";
     AudioFile.status := st;
     AudioFile.errorMessage := None |}.

Definition sample_lecture : Lecture.t :=
  {| Lecture.id := "lecture-1";
     Lecture.lectureNumber := Real 1;
     Lecture.title := "Cell biology";
     Lecture.summary := "Membranes and transport.";
     Lecture.keyTopics := ["membranes"; "transport"];
     Lecture.audioFileIds := ["a"];
     Lecture.fullTranscript := "";
     Lecture.createdAt := "2024-01-15T10:00:00.000Z" |}.

Definition sample_host : Host :=
  {| runtime := utc_iso_runtime;
     uuidv4 := fun k => "lecture-" ++ string_of_list_ascii
                          [ascii_of_nat (Nat.add 50 k)];
     now := 1705392000000;
     toLocaleDateString := fun _ => "1/15/2024";
     toISOString := fun _ => "2024-01-15T10:00:00.000Z" |}.

Definition numbered_lecture (id : string) (n : double) : Lecture.t :=
  {| Lecture.id := id;
     Lecture.lectureNumber := n;
     Lecture.title := "Cell biology";
     Lecture.summary := "Membranes and transport.";
     Lecture.keyTopics := ["membranes"; "transport"];
     Lecture.audioFileIds := [id];
     Lecture.fullTranscript := "";
     Lecture.createdAt := "2024-01-15T10:00:00.000Z" |}.

(** Stores with three lectures: numbered 3, 1 and 2, and numbered 2, not
    at all, and 1. *)
Definition numbered_store : StoreData :=
  addLecture (numbered_lecture "c" (Real 2))
    (addLecture (numbered_lecture "b" (Real 1))
       (addLecture (numbered_lecture "a" (Real 3)) createStore)).

Definition unnumbered_store : StoreData :=
  addLecture (numbered_lecture "c" (Real 1))
    (addLecture (numbered_lecture "b" NotNumber)
       (addLecture (numbered_lecture "a" (Real 2)) createStore)).

(** A store with one transcribed recording and one lecture. *)
Definition sample_store : StoreData :=
  addLecture sample_lecture
    (addAudioFile
       (sample_file "a" "01_intro.m4a" "2024-01-15T10:00:00.000Z" transcribed)
       createStore).

(** A store with one uploaded recording. *)
Definition fresh_store : StoreData :=
  addAudioFile
    (sample_file "a" "01_intro.m4a" "2024-01-15T10:00:00.000Z" uploaded)
    createStore.

Definition failing_speech : SpeechService :=
  fun _ _ => Throws "Deepgram transcription error: timeout".

Definition sample_speech : SpeechService :=
  fun _ _ => Returns {| sr_text := "Today we look at membranes.";
                        sr_words := [];
                        sr_confidence := 1;
                        sr_duration := 60;
                        sr_paragraphs := None |}.

Definition sample_group : LectureGroup :=
  {| group_lectureNumber := Real 1;
     group_title := "Cell biology";
     group_summary := "Membranes and transport.";
     group_keyTopics := ["membranes"];
     group_audioFileIds := ["a"] |}.

(** The time value of a recording, zero when its date does not parse. *)
Definition time_of (rt : Runtime) (f : AudioFile.t) : Z :=
  match dateParse rt (AudioFile.recordedAt f) with
  | Some t => t
  | None => 0
  end.

(** The store after a list of recordings has been added to a new store. *)
Definition store_of (files : list AudioFile.t) : StoreData :=
  fold_left (fun s f => addAudioFile f s) files createStore.

(** The lectures that a list of well-formed groups gives, the first under
    the k-th identifier. *)
Fixpoint lectures_from (h : Host) (s : StoreData) (sorted : list AudioFile.t)
  (k : nat) (groups : list LectureGroup) : list Lecture.t :=
  match groups with
  | [] => []
  | group :: rest =>
      build_lecture h s sorted k group :: lectures_from h s sorted (S k) rest
  end.

(** The three parts of the store that grouping does not write to. *)
Definition same_recordings (s s' : StoreData) : Prop :=
  audioFiles s' = audioFiles s
  /\ transcriptions s' = transcriptions s
  /\ podcastScripts s' = podcastScripts s.

(** ** [lib/store]: the remaining operations *)

Definition with_podcastScripts (m : JsMap PodcastScript.t) (s : StoreData)
  : StoreData :=
  {| audioFiles := audioFiles s; transcriptions := transcriptions s;
     lectures := lectures s; podcastScripts := m; status := status s |}.

Definition clearAudioFiles (s : StoreData) : StoreData := with_audioFiles [] s.

Definition getAllTranscriptions (s : StoreData) : list Transcription.t :=
  map_values (transcriptions s).

Definition clearTranscriptions (s : StoreData) : StoreData :=
  with_transcriptions [] s.

Definition addPodcastScript (script : PodcastScript.t) (s : StoreData)
  : StoreData :=
  with_podcastScripts
    (map_set (PodcastScript.id script) script (podcastScripts s)) s.

Definition getPodcastScript (id : string) (s : StoreData)
  : option PodcastScript.t :=
  map_get id (podcastScripts s).

Definition getPodcastScriptsForLecture (lectureId : string) (s : StoreData)
  : list PodcastScript.t :=
  filter (fun sc => String.eqb (PodcastScript.lectureId sc) lectureId)
         (map_values (podcastScripts s)).

(** [reset] replaces the store, whatever it held. *)
Definition reset (s : StoreData) : StoreData := createStore.

(** Every transcript is filed under the id of a recording of the store. *)
Definition transcripts_have_recordings (s : StoreData) : Prop :=
  forall id, In id (map_keys (transcriptions s)) ->
             In id (map_keys (audioFiles s)).

(** ** [lib/metadata]: accepted uploads *)

Definition ALLOWED_AUDIO_TYPES : list (string * string) :=
  [("audio/mpeg", ".mp3"); ("audio/mp4", ".mp4"); ("audio/x-m4a", ".m4a");
   ("audio/m4a", ".m4a"); ("audio/wav", ".wav"); ("audio/wave", ".wav");
   ("audio/x-wav", ".wav"); ("audio/ogg", ".ogg"); ("audio/webm", ".webm");
   ("audio/flac", ".flac"); ("audio/x-flac", ".flac"); ("video/mp4", ".mp4");
   ("video/webm", ".webm")].

(** The table is an object literal: a lookup that misses its own keys goes
    on to the members of [Object.prototype], all of them truthy. *)
Definition Object_prototype_keys : list string :=
  ["constructor"; "__defineGetter__"; "__defineSetter__"; "hasOwnProperty";
   "__lookupGetter__"; "__lookupSetter__"; "isPrototypeOf";
   "propertyIsEnumerable"; "toString"; "valueOf"; "__proto__";
   "toLocaleString"].

(** [ALLOWED_AUDIO_TYPES[mimeType]] as a condition. *)
Definition known_type (mimeType : string) : bool :=
  existsb (fun kv => String.eqb (fst kv) mimeType) ALLOWED_AUDIO_TYPES
  || existsb (String.eqb mimeType) Object_prototype_keys.

Definition allowed_extensions : list string :=
  [".mp3"; ".mp4"; ".m4a"; ".wav"; ".ogg"; ".webm"; ".flac"; ".aac"; ".opus"].

Definition isAllowedAudioType (mimeType filename : string) : bool :=
  if known_type mimeType then true
  else
    let ext := text (toLowerCase (extname (list_ascii_of_string filename))) in
    existsb (String.eqb ext) allowed_extensions.

Definition getUploadDir : string := "/tmp/crammer-uploads".

(** ** [api/upload] *)

(** An entry of the form data under [files]; an entry that is not a file
    has no name. *)
Record UploadedFile : Type := {
  file_name : string;
  file_type : string;
  file_size : Z
}.

(** [fs.writeFileSync] on a path of the upload directory: it throws, or the
    file is there with the modification time given. *)
Definition Disk : Type := string -> outcome Z.

Definition written (fs : FileSystem) (filePath : string) (mtime : Z)
  : FileSystem :=
  fun p => if String.eqb p filePath then Some mtime else fs p.

Inductive UploadResponse : Type :=
| NoFilesProvided
| Uploaded (files : list AudioFile.t) (errors : list string)
| UploadFailed (message : string).

(** [file.type || "audio/mpeg"] *)
Definition mime_of (file : UploadedFile) : string :=
  if String.eqb (file_type file) "" then "audio/mpeg" else file_type file.

(** [path.extname(file.name) || ".audio"] *)
Definition saved_extension (file : UploadedFile) : string :=
  match extname (list_ascii_of_string (file_name file)) with
  | [] => ".audio"
  | ext => text ext
  end.

(** [path.join(getUploadDir(), id + ext)]; the identifier is one path
    component. *)
Definition saved_path (id : string) (file : UploadedFile) : string :=
  getUploadDir ++ "/" ++ id ++ saved_extension file.

Definition uploaded_record (h : Host) (id : string) (file : UploadedFile)
  (recordedAt : Z) : AudioFile.t :=
  {| AudioFile.id := id;
     AudioFile.originalName := file_name file;
     AudioFile.savedPath := saved_path id file;
     AudioFile.mimeType := mime_of file;
     AudioFile.size := file_size file;
     AudioFile.recordedAt := toISOString h recordedAt;
     AudioFile.uploadedAt := toISOString h (now h);
     AudioFile.status := uploaded;
     AudioFile.errorMessage := None |}.

Definition unsupported (file : UploadedFile) : string :=
  file_name file ++ ": unsupported file type (" ++ mime_of file ++ ")".

(** [for (const file of files)]; an exception ends the loop. *)
Fixpoint upload_loop (h : Host) (disk : Disk) (files : list UploadedFile)
  (fs : FileSystem) (savedFiles : list AudioFile.t) (errors : list string)
  : Handler (outcome (list AudioFile.t * list string) * FileSystem) :=
  match files with
  | [] => ret (Returns (savedFiles, errors), fs)
  | file :: rest =>
      if String.eqb (file_name file) "" then
        upload_loop h disk rest fs savedFiles errors
      else if negb (isAllowedAudioType (mime_of file) (file_name file)) then
        upload_loop h disk rest fs savedFiles (errors ++ [unsupported file])%list
      else
        let id := uuidv4 h (List.length savedFiles) in
        let savedPath := saved_path id file in
        match disk savedPath with
        | Throws message => ret (Throws message, fs)
        | Returns mtime =>
            let fs' := written fs savedPath mtime in
            match getRecordedAt (runtime h) fs' savedPath (file_name file) with
            | Throws message => ret (Throws message, fs')
            | Returns recordedAt =>
                let audioFile := uploaded_record h id file recordedAt in
                write (addAudioFile audioFile) ;;
                upload_loop h disk rest fs' (savedFiles ++ [audioFile])%list
                  errors
            end
        end
  end.

Definition set_totalFiles (n : Z) : ProcessingStatus.partial :=
  {| ProcessingStatus.totalFiles' := Some n;
     ProcessingStatus.transcribedFiles' := None;
     ProcessingStatus.lecturesGenerated' := None;
     ProcessingStatus.phase' :=
       Some (if 0 <? n then phase_uploading else phase_idle);
     ProcessingStatus.errorMessage' := None |}.

(** [POST /api/upload], from the point where the upload directory is
    there and the form has been read: [files] are the entries of the form
    under [files].  The [catch] answers without touching the store. *)
Definition POST_upload (h : Host) (disk : Disk) (fs : FileSystem)
  (files : list UploadedFile) : Handler (UploadResponse * FileSystem) :=
  match files with
  | [] => ret (NoFilesProvided, fs)
  | _ :: _ =>
      r <- upload_loop h disk files fs [] [] ;;
      match r with
      | (Throws message, fs') => ret (UploadFailed message, fs')
      | (Returns (savedFiles, errors), fs') =>
          all <- read getAllAudioFiles ;;
          write (updateStatus (set_totalFiles (Z.of_nat (List.length all)))) ;;
          ret (Uploaded savedFiles errors, fs')
      end
  end.

(** [DELETE /api/upload], as far as the store goes. *)
Definition DELETE_upload : Handler unit := write reset.

(** The entries that the loop saves, and those that it reports. *)
Definition is_accepted (file : UploadedFile) : bool :=
  negb (String.eqb (file_name file) "")
  && isAllowedAudioType (mime_of file) (file_name file).

Definition is_rejected (file : UploadedFile) : bool :=
  negb (String.eqb (file_name file) "")
  && negb (isAllowedAudioType (mime_of file) (file_name file)).

(** [f] is the record of the entry [file]: written where the record says,
    and dated by its name or else by the time of that writing. *)
Definition records (h : Host) (disk : Disk) (file : UploadedFile)
  (f : AudioFile.t) : Prop :=
  exists mtime,
    disk (saved_path (AudioFile.id f) file) = Returns mtime
    /\ f = uploaded_record h (AudioFile.id f) file
             match parseDateFromFilename (runtime h) (file_name file) with
             | Some fromName => fromName
             | None => mtime
             end.

(** A disk that takes every file, at one time, and one that is full. *)
Definition sample_disk : Disk := fun _ => Returns 1700000000000.

Definition full_disk : Disk :=
  fun _ => Throws "ENOSPC: no space left on device, write".

Definition sample_upload (name type : string) : UploadedFile :=
  {| file_name := name; file_type := type; file_size := 1024 |}.

(** ** [lib/gemini]: the script of a lecture *)

(** [.]: any character but a line terminator. *)
Definition is_dot_char (c : ascii) : bool :=
  negb ((code c =? 10) || (code c =? 13)).

(** [/TITLE:\s*(.+)/i] and [/DESCRIPTION:\s*(.+)/i] *)
Definition re_label (label : string) : regex :=
  seq_of [word_i label; Rep is_space 0 None; Group (Rep is_dot_char 1 None)].

(** [/TITLE:\s*.+\n?/i] and [/DESCRIPTION:\s*.+\n?/i] *)
Definition re_label_line (label : string) : regex :=
  seq_of [word_i label; Rep is_space 0 None; Rep is_dot_char 1 None;
          Rep (lit (ascii_of_nat 10)) 0 (Some 1%nat)].

(** The end of a match: what follows it is kept as a last capture. *)
Definition accept_rest : cont := fun _ rest caps => Some (caps ++ [rest])%list.

(** The leftmost match, cut out: the text before it and the text after. *)
Fixpoint search_cut (r : regex) (prev : option ascii) (before input : chars)
  : option (chars * chars) :=
  match matcher r accept_rest prev input [] with
  | Some caps => Some (before, last caps [])
  | None =>
      match input with
      | [] => None
      | c :: rest => search_cut r (Some c) (before ++ [c])%list rest
      end
  end.

(** [s.replace(r, "")] for a pattern without the [g] flag. *)
Definition remove_first (s : chars) (r : regex) : chars :=
  match search_cut r None [] s with
  | Some (before, after) => (before ++ after)%list
  | None => s
  end.

Fixpoint trim_start (s : chars) : chars :=
  match s with
  | c :: rest => if is_space c then trim_start rest else s
  | [] => []
  end.

(** [String.prototype.trim] *)
Definition trim (s : chars) : chars := rev (trim_start (rev (trim_start s))).

(** The answer of the model to the prompt built from a lecture, its
    recordings, its transcript and a format: a text, or an exception
    (credential missing, call failed, answer not a text). *)
Definition ScriptService : Type :=
  Lecture.t -> list AudioFile.t -> string -> PodcastFormat -> outcome string.

Record ScriptParts : Type := {
  part_title : string;
  part_description : string;
  part_script : string
}.

(** What [generatePodcastScript] makes of the text of the answer. *)
Definition script_parts (lecture : Lecture.t) (answer : string) : ScriptParts :=
  let t := list_ascii_of_string answer in
  {| part_title :=
       match str_match t (re_label "TITLE:") with
       | Some titleMatch => text (trim (group 1 titleMatch))
       | None => Lecture.title lecture ++ " - Podcast"
       end;
     part_description :=
       match str_match t (re_label "DESCRIPTION:") with
       | Some descMatch => text (trim (group 1 descMatch))
       | None => Lecture.summary lecture
       end;
     part_script :=
       text (trim (remove_first (remove_first t (re_label_line "TITLE:"))
                                (re_label_line "DESCRIPTION:"))) |}.

Definition generatePodcastScript (svc : ScriptService) (lecture : Lecture.t)
  (files : list AudioFile.t) (transcript : string) (format : PodcastFormat)
  : outcome ScriptParts :=
  match svc lecture files transcript format with
  | Returns answer => Returns (script_parts lecture answer)
  | Throws message => Throws message
  end.

(** A text without a colon, and the text of a line: it starts with a
    character that is not blank and holds no line terminator. *)
Definition colon_free (s : chars) : bool :=
  forallb (fun c => negb (Ascii.eqb c ":")) s.

Definition line_text (s : chars) : bool :=
  match s with
  | c :: _ => negb (is_space c) && forallb is_dot_char s
  | [] => false
  end.

(** An answer in the layout that the prompt asks for: the two labelled
    lines, then the script. *)
Definition labelled_answer (sp1 title sp2 description body : chars) : chars :=
  (list_ascii_of_string "TITLE:" ++ sp1 ++ title ++ [ascii_of_nat 10]
   ++ list_ascii_of_string "DESCRIPTION:" ++ sp2 ++ description
   ++ [ascii_of_nat 10] ++ body)%list.

(** ** [api/generate-podcast] *)

Inductive PodcastResponse : Type :=
| FieldsRequired
| FormatInvalid
| LectureNotFound
| ScriptCreated (script : PodcastScript.t)
| PodcastFailed (message : string).

(** [validFormats.includes(format)], with the format it names. *)
Definition format_of (format : string) : option PodcastFormat :=
  if String.eqb format "qa" then Some qa
  else if String.eqb format "narrative" then Some narrative
  else if String.eqb format "discussion" then Some discussion
  else None.

(** [ids.map((id) => store.getAudioFile(id)).filter(Boolean)] *)
Definition files_of_lecture (s : StoreData) (lecture : Lecture.t)
  : list AudioFile.t :=
  flat_map (fun id => match getAudioFile id s with
                      | Some f => [f]
                      | None => []
                      end) (Lecture.audioFileIds lecture).

(** [POST /api/generate-podcast] with body [{ lectureId, format }]; an
    empty string stands for a field that is missing.  The body itself may
    fail to parse. *)
Definition POST_generate_podcast (h : Host) (svc : ScriptService)
  (body : outcome (string * string)) : Handler PodcastResponse :=
  match body with
  | Throws message => ret (PodcastFailed message)
  | Returns (lectureId, format) =>
      if String.eqb lectureId "" || String.eqb format "" then ret FieldsRequired
      else
        match format_of format with
        | None => ret FormatInvalid
        | Some fmt =>
            found <- read (getLecture lectureId) ;;
            match found with
            | None => ret LectureNotFound
            | Some lecture =>
                files <- read (fun s => files_of_lecture s lecture) ;;
                match generatePodcastScript svc lecture files
                        (Lecture.fullTranscript lecture) fmt with
                | Throws message => ret (PodcastFailed message)
                | Returns result =>
                    let script :=
                      {| PodcastScript.id := uuidv4 h 0;
                         PodcastScript.lectureId := lectureId;
                         PodcastScript.format := fmt;
                         PodcastScript.title := part_title result;
                         PodcastScript.description := part_description result;
                         PodcastScript.script := part_script result;
                         PodcastScript.generatedAt := toISOString h (now h) |} in
                    write (addPodcastScript script) ;;
                    ret (ScriptCreated script)
                end
            end
        end
  end.

(** ** Runs of the pipeline

    The requests that write to the store, each with what the host and the
    services give it. *)

Inductive Operation : Type :=
| Upload (h : Host) (disk : Disk) (fs : FileSystem) (files : list UploadedFile)
| Delete
| Transcribe (svc : SpeechService) (body : TranscribeBody)
| Process (h : Host) (inferLectures : GroupingService)
| GeneratePodcast (h : Host) (svc : ScriptService)
    (body : outcome (string * string)).

Definition run_operation (op : Operation) : Handler unit :=
  match op with
  | Upload h disk fs files => POST_upload h disk fs files ;; ret tt
  | Delete => DELETE_upload
  | Transcribe svc body => POST_transcribe svc body ;; ret tt
  | Process h inferLectures => POST_process h inferLectures ;; ret tt
  | GeneratePodcast h svc body => POST_generate_podcast h svc body ;; ret tt
  end.

Fixpoint run_operations (ops : list Operation) : Handler unit :=
  match ops with
  | [] => ret tt
  | op :: rest => run_operation op ;; run_operations rest
  end.

(** From one store to the next: the store is reset, or every recording
    stays and its status stays or follows one edge. *)
Definition lifecycle_step (s s' : StoreData) : Prop :=
  s' = createStore \/ statuses_forward s s'.

(** The recordings a request selects are all in status [uploaded]. *)
Definition selects_uploaded (body : TranscribeBody) (s : StoreData) : Prop :=
  Forall (fun f => AudioFile.status f = uploaded) (selected body s).

(** The ids that an upload draws, one for each entry at most, are new to
    the store. *)
Definition draws_new_ids (h : Host) (files : list UploadedFile)
  (s : StoreData) : Prop :=
  forall k, (k < List.length files)%nat -> getAudioFile (uuidv4 h k) s = None.

(** Every transcription request of a run selects uploaded recordings only
    and every upload draws new ids, each judged on the store that the
    earlier operations have left. *)
Fixpoint run_in_order (ops : list Operation) (s : StoreData) : Prop :=
  match ops with
  | [] => True
  | op :: rest =>
      match op with
      | Transcribe _ body => selects_uploaded body s
      | Upload h _ _ files => draws_new_ids h files s
      | _ => True
      end
      /\ run_in_order rest (final_store (run_operation op s))
  end.

(** A store with two uploaded recordings, [a] and [b]. *)
Definition two_files_store : StoreData :=
  addAudioFile
    (sample_file "b" "02_membranes.m4a" "2024-01-15T11:00:00.000Z" uploaded)
    fresh_store.

(** * Properties *)

(** ** Numbers: rounding keeps the sign and the order of magnitude *)

Lemma round_nonneg_large (n : Z) :
  2 ^ 53 <= n ->
  round_nonneg n = PInf \/ exists v, round_nonneg n = Fin v /\ 2 ^ 53 <= v.
Proof.
  intros Hn. unfold round_nonneg.
  destruct (n <? 2 ^ 53) eqn:Hlt; [apply Z.ltb_lt in Hlt; lia|].
  set (e := Z.log2 n - 52).
  set (q := Z.shiftr n e).
  set (q' := if _ : bool then q + 1 else q).
  destruct (2 ^ 1024 <=? Z.shiftl q' e); [now left|right].
  eexists; split; [reflexivity|].
  assert (Hpos : 0 < n) by lia.
  assert (Hlog : 53 <= Z.log2 n) by (apply Z.log2_le_pow2; lia).
  destruct (Z.log2_spec n Hpos) as [Hlo _].
  assert (He : 1 <= e) by (unfold e; lia).
  assert (Hq : 2 ^ 52 <= q).
  { unfold q. rewrite Z.shiftr_div_pow2 by lia.
    apply Z.div_le_lower_bound; [apply Z.pow_pos_nonneg; lia|].
    replace (2 ^ e * 2 ^ 52) with (2 ^ Z.log2 n); [exact Hlo|].
    rewrite <- Z.pow_add_r by lia. f_equal. unfold e. lia. }
  assert (Hq' : q <= q').
  { subst q'. match goal with |- context [if ?b then _ else _] => destruct b end; lia. }
  rewrite Z.shiftl_mul_pow2 by lia.
  assert (H2 : 2 ^ 1 <= 2 ^ e) by (apply Z.pow_le_mono_r; lia).
  change (2 ^ 53) with (2 ^ 52 * 2 ^ 1). 
  apply Z.mul_le_mono_nonneg; lia.
Qed.

Lemma round_nonneg_small (n : Z) : n < 2 ^ 53 -> round_nonneg n = Fin n.
Proof.
  intros Hn. unfold round_nonneg.
  destruct (n <? 2 ^ 53) eqn:Hlt; [reflexivity|apply Z.ltb_ge in Hlt; lia].
Qed.

Lemma round_nonneg_is_pos (n : Z) :
  0 <= n -> number_is_pos (round_nonneg n) = (0 <? n).
Proof.
  intros Hn. destruct (Z_lt_le_dec n (2 ^ 53)) as [Hs|Hl].
  - rewrite round_nonneg_small by exact Hs. reflexivity.
  - assert (0 < n) by (pose proof (Z.pow_pos_nonneg 2 53); lia).
    destruct (round_nonneg_large n Hl) as [->|[v [-> Hv]]]; cbn.
    + symmetry. apply Z.ltb_lt. lia.
    + pose proof (Z.pow_pos_nonneg 2 53).
      transitivity true; [apply Z.ltb_lt|symmetry; apply Z.ltb_lt]; lia.
Qed.

Lemma round_nonneg_not_neg (n : Z) :
  0 <= n -> number_is_neg (round_nonneg n) = false.
Proof.
  intros Hn. destruct (Z_lt_le_dec n (2 ^ 53)) as [Hs|Hl].
  - rewrite round_nonneg_small by exact Hs. cbn. apply Z.ltb_ge. lia.
  - destruct (round_nonneg_large n Hl) as [->|[v [-> Hv]]]; cbn; [reflexivity|].
    pose proof (Z.pow_pos_nonneg 2 53). apply Z.ltb_ge. lia.
Qed.

Lemma is_pos_opp (x : number) : number_is_pos (number_opp x) = number_is_neg x.
Proof.
  destruct x; cbn; try reflexivity.
  destruct (Z.ltb_spec 0 (- z)), (Z.ltb_spec z 0); try reflexivity; lia.
Qed.

Lemma to_double_is_pos (z : Z) : number_is_pos (to_double z) = (0 <? z).
Proof.
  unfold to_double. destruct (Z.ltb_spec z 0) as [Hneg|Hnn].
  - rewrite is_pos_opp, round_nonneg_not_neg by lia.
    symmetry. apply Z.ltb_ge. lia.
  - apply round_nonneg_is_pos. exact Hnn.
Qed.

Lemma is_neg_opp (x : number) : number_is_neg (number_opp x) = number_is_pos x.
Proof.
  destruct x; cbn; try reflexivity.
  destruct (Z.ltb_spec (- z) 0), (Z.ltb_spec 0 z); try reflexivity; lia.
Qed.

Lemma to_double_is_neg (z : Z) : number_is_neg (to_double z) = (z <? 0).
Proof.
  unfold to_double. destruct (Z.ltb_spec z 0) as [Hneg|Hnn].
  - rewrite is_neg_opp, round_nonneg_is_pos by lia. apply Z.ltb_lt. lia.
  - apply round_nonneg_not_neg. exact Hnn.
Qed.

Lemma to_double_opp (z : Z) : to_double (- z) = number_opp (to_double z).
Proof.
  unfold to_double.
  destruct (Z.ltb_spec (- z) 0), (Z.ltb_spec z 0); try lia.
  - rewrite Z.opp_involutive. reflexivity.
  - destruct (round_nonneg (- z)); cbn; rewrite ?Z.opp_involutive; reflexivity.
  - assert (z = 0) by lia. subst. reflexivity.
Qed.

Lemma abs_opp (x : number) : number_abs (number_opp x) = number_abs x.
Proof. destruct x; cbn; try reflexivity. now rewrite Z.abs_opp. Qed.

(** A difference is within a bound below 2^53 exactly when the integers are. *)
Lemma abs_to_double_ltb (z c : Z) :
  c <= 2 ^ 53 ->
  number_ltb (number_abs (to_double z)) (Fin c) = (Z.abs z <? c).
Proof.
  intros Hc.
  assert (Hnn : forall n, 0 <= n ->
            number_ltb (number_abs (round_nonneg n)) (Fin c) = (n <? c)).
  { intros n Hn. destruct (Z_lt_le_dec n (2 ^ 53)) as [Hs|Hl].
    - rewrite round_nonneg_small by exact Hs. cbn. now rewrite Z.abs_eq.
    - destruct (round_nonneg_large n Hl) as [->|[v [-> Hv]]]; cbn.
      + symmetry. apply Z.ltb_ge. lia.
      + transitivity false; [apply Z.ltb_ge|symmetry; apply Z.ltb_ge]; lia. }
  unfold to_double. destruct (Z.ltb_spec z 0) as [Hneg|Hpos].
  - rewrite abs_opp, Hnn by lia. f_equal. lia.
  - rewrite Hnn by lia. f_equal. lia.
Qed.


(** ** Sorting *)

Section SortFacts.
Context {A : Type} (less : A -> A -> bool).

Local Abbreviation R := (in_order less).

(** *** Lists whose neighbours are in order *)

Lemma joint_nil_l (l : list A) : joint less [] l.
Proof. exact I. Qed.

Lemma joint_nil_r (l : list A) : joint less l [].
Proof. unfold joint. now destruct (rev l). Qed.

Lemma joint_snoc (l l' : list A) (x y : A) :
  joint less (l ++ [x]) (y :: l') <-> R x y.
Proof. unfold joint. rewrite rev_app_distr. reflexivity. Qed.

Lemma joint_app_l (l1 l2 l3 : list A) :
  l2 <> [] -> (joint less (l1 ++ l2) l3 <-> joint less l2 l3).
Proof.
  intros Hne. unfold joint. rewrite rev_app_distr.
  destruct (rev l2) as [|x r] eqn:E; [|reflexivity].
  exfalso. apply Hne. apply (f_equal (@rev A)) in E.
  now rewrite rev_involutive in E.
Qed.

Lemma joint_app_r (l1 l2 l3 : list A) :
  l2 <> [] -> (joint less l1 (l2 ++ l3) <-> joint less l1 l2).
Proof.
  intros Hne. unfold joint. destruct l2 as [|y l2]; [contradiction|].
  reflexivity.
Qed.

Lemma joint_cons_l (x : A) (l1 l2 : list A) :
  l1 <> [] -> (joint less (x :: l1) l2 <-> joint less l1 l2).
Proof. intros Hne. now apply (joint_app_l [x]). Qed.

Lemma Sorted_joint (x : A) (l : list A) :
  HdRel R x l <-> joint less [x] l.
Proof.
  unfold joint. simpl. destruct l as [|y l].
  - split; [trivial|constructor].
  - split; [now inversion 1|now constructor].
Qed.

Lemma Sorted_app_iff (l1 l2 : list A) :
  Sorted R (l1 ++ l2)
  <-> Sorted R l1 /\ Sorted R l2 /\ joint less l1 l2.
Proof.
  induction l1 as [|x l1 IH]; simpl.
  - split; [intros H; repeat split; [constructor|exact H]|now intros (_ & H & _)].
  - split.
    + intros H. inversion H as [|? ? Hs Hhd]; subst.
      apply IH in Hs as (H1 & H2 & Hj). repeat split; [|exact H2|].
      * constructor; [exact H1|]. destruct l1; [constructor|].
        inversion Hhd; subst. now constructor.
      * destruct l1 as [|z l1].
        -- apply Sorted_joint. exact Hhd.
        -- apply joint_cons_l; [discriminate|exact Hj].
    + intros (H1 & H2 & Hj). inversion H1 as [|? ? Hs Hhd]; subst.
      constructor.
      * apply IH. repeat split; [exact Hs|exact H2|].
        destruct l1 as [|z l1]; [apply joint_nil_l|].
        apply (joint_cons_l x); [discriminate|exact Hj].
      * destruct l1 as [|z l1]; simpl.
        -- apply Sorted_joint. exact Hj.
        -- inversion Hhd; subst. now constructor.
Qed.

(** A piece [c] that stands in order between [X] and something may stand
    between [X] and [Z] when its end may stand before [Z]. *)
Lemma Sorted_bridge_l (X c Y Z : list A) :
  Sorted R (X ++ c ++ Y) -> Sorted R (X ++ Z) ->
  (c <> [] -> joint less c Z) ->
  Sorted R (X ++ c ++ Z).
Proof.
  intros H1 H2 Hj. destruct c as [|c0 c]; [exact H2|].
  specialize (Hj ltac:(discriminate)).
  rewrite app_assoc in H1 |- *.
  apply Sorted_app_iff in H1 as (HXc & _ & _).
  apply Sorted_app_iff in H2 as (_ & HZ & _).
  apply Sorted_app_iff. repeat split; [exact HXc|exact HZ|].
  apply joint_app_l; [discriminate|exact Hj].
Qed.

Lemma Sorted_bridge_r (X c Y Z : list A) :
  Sorted R (Y ++ c ++ X) -> Sorted R (Z ++ X) ->
  (c <> [] -> joint less Z c) ->
  Sorted R (Z ++ c ++ X).
Proof.
  intros H1 H2 Hj. destruct c as [|c0 c]; [exact H2|].
  specialize (Hj ltac:(discriminate)).
  apply Sorted_app_iff in H1 as (_ & HcX & _).
  apply Sorted_app_iff in H2 as (HZ & _ & _).
  apply Sorted_app_iff. repeat split; [exact HZ|exact HcX|].
  apply joint_app_r; [discriminate|exact Hj].
Qed.

Lemma rev_firstn_hd (k : nat) (a : list A) (d : A) :
  (0 < k <= List.length a)%nat ->
  exists r, rev (firstn k a) = nth (k - 1) a d :: r.
Proof.
  revert k. induction a as [|x a IH]; intros k [Hk Hle]; simpl in Hle; [lia|].
  destruct k as [|k]; [lia|]. simpl firstn. simpl rev.
  destruct k as [|k].
  - simpl. now exists [].
  - destruct (IH (S k) ltac:(lia)) as [r Hr]. rewrite Hr.
    replace (S (S k) - 1)%nat with (S (S k - 1)) by lia. simpl.
    now exists (r ++ [x])%list.
Qed.

Lemma skipn_hd (k : nat) (a : list A) (d : A) :
  (k < List.length a)%nat -> skipn k a = nth k a d :: skipn (S k) a.
Proof.
  revert k. induction a as [|x a IH]; intros k Hk; simpl in Hk; [lia|].
  destruct k as [|k]; [reflexivity|]. simpl. apply IH. lia.
Qed.

Lemma fits_of_nth (key : A) (a : list A) (k : nat) :
  (k <= List.length a)%nat ->
  ((0 < k)%nat -> R (nth (k - 1) a key) key) ->
  ((k < List.length a)%nat -> R key (nth k a key)) ->
  fits_at less key a k.
Proof.
  intros Hk Hlo Hhi. split; [exact Hk|]. split.
  - destruct k as [|k]; [apply joint_nil_l|].
    destruct (rev_firstn_hd (S k) a key ltac:(lia)) as [r Hr].
    unfold joint. rewrite Hr. apply Hlo. lia.
  - destruct (Nat.lt_ge_cases k (List.length a)) as [Hlt|Hge].
    + rewrite (skipn_hd k a key Hlt). apply Hhi, Hlt.
    + rewrite skipn_all2 by exact Hge. apply joint_nil_r.
Qed.

Lemma fits_insert (key : A) (a : list A) (k : nat) :
  Sorted R a -> fits_at less key a k ->
  Sorted R (firstn k a ++ key :: skipn k a).
Proof.
  intros Ha (Hk & Hlo & Hhi).
  rewrite <- (firstn_skipn k a) in Ha.
  apply Sorted_app_iff in Ha as (H1 & H2 & _).
  apply Sorted_app_iff. repeat split; [exact H1| |].
  - constructor; [exact H2|]. apply Sorted_joint. exact Hhi.
  - apply (joint_app_r _ [key]); [discriminate|exact Hlo].
Qed.

(** *** The searches *)

Lemma binary_search_spec (goesRight : nat -> bool) (n : nat) :
  forall fuel left right,
    (left <= right)%nat -> (right - left <= fuel)%nat -> (right <= n)%nat ->
    ((0 < left)%nat -> goesRight (left - 1)%nat = true) ->
    ((right < n)%nat -> goesRight right = false) ->
    (left <= binary_search fuel goesRight left right <= right)%nat
    /\ ((0 < binary_search fuel goesRight left right)%nat ->
        goesRight (binary_search fuel goesRight left right - 1)%nat = true)
    /\ ((binary_search fuel goesRight left right < n)%nat ->
        goesRight (binary_search fuel goesRight left right) = false).
Proof.
  induction fuel as [|fuel IH]; intros left right Hle Hfuel Hn Hlo Hhi;
    cbn [binary_search].
  - assert (left = right) as -> by lia. repeat split; auto.
  - destruct (Nat.ltb_spec left right) as [Hlt|Hge].
    + assert (Hhalf : ((right - left) / 2 < right - left)%nat)
        by (apply Nat.div_lt; lia).
      set (mid := (left + (right - left) / 2)%nat) in *.
      destruct (goesRight mid) eqn:Hmid.
      * destruct (IH (mid + 1)%nat right) as (Hr & H1 & H2);
          try (subst mid; lia).
        -- intros _. replace (mid + 1 - 1)%nat with mid by lia. exact Hmid.
        -- exact Hhi.
        -- repeat split; [subst mid; lia|lia|exact H1|exact H2].
      * destruct (IH left mid) as (Hr & H1 & H2); try (subst mid; lia).
        -- exact Hlo.
        -- intros _. exact Hmid.
        -- repeat split; [lia|subst mid; lia|exact H1|exact H2].
    + assert (left = right) as -> by lia. repeat split; auto.
Qed.

Lemma gallop_spec (goesOn : nat -> bool) (maxOfs : nat) :
  forall fuel lastOfs offset,
    (lastOfs < offset)%nat -> (maxOfs - offset <= fuel)%nat ->
    ((0 < lastOfs)%nat -> goesOn lastOfs = true /\ (lastOfs < maxOfs)%nat) ->
    let r := gallop fuel goesOn maxOfs lastOfs offset in
    (fst r < snd r)%nat
    /\ ((0 < fst r)%nat -> goesOn (fst r) = true /\ (fst r < maxOfs)%nat)
    /\ ((snd r < maxOfs)%nat -> goesOn (snd r) = false).
Proof.
  induction fuel as [|fuel IH]; intros lastOfs offset Hlt Hfuel Hlast;
    cbn [gallop].
  - cbn [fst snd]. repeat split; try tauto; lia.
  - destruct (Nat.ltb_spec offset maxOfs) as [Hin|Hout].
    + destruct (goesOn offset) eqn:Hon.
      * apply IH; [lia|lia|]. intros _. now split.
      * cbn [fst snd]. repeat split; try tauto; lia.
    + cbn [fst snd]. repeat split; try tauto; lia.
Qed.

Hypothesis Hanti : sign_antisymmetric less.

Lemma less_in_order (x y : A) : less x y = true -> R x y.
Proof. apply Hanti. Qed.

Lemma GallopRight_fits (key : A) (a : list A) (hint : nat) :
  (hint < List.length a)%nat -> fits_at less key a (GallopRight less key a hint).
Proof.
  intros Hhint. unfold GallopRight. cbv zeta.
  destruct (less key (nth hint a key)) eqn:Hfirst.
  - (* gallop left *)
    pose proof (gallop_spec (fun o => less key (nth (hint - o) a key))
                  (hint + 1) (hint + 1) 0 1 ltac:(lia) ltac:(lia) ltac:(lia))
      as Hg.
    destruct (gallop _ _ _ 0%nat 1%nat) as [lastOfs offset]. simpl in Hg.
    destruct Hg as (Hlt & Hlast & Hoff).
    set (offset' := Nat.min offset (hint + 1)).
    destruct (binary_search_spec
                (fun m => negb (less key (nth m a key))) (List.length a)
                (List.length a) (hint + 1 - offset') (hint - lastOfs))
      as (Hr & H1 & H2).
    + subst offset'. lia.
    + lia.
    + lia.
    + intros Hpos. assert (offset < hint + 1)%nat by (subst offset'; lia).
      assert (offset' = offset) as -> by (subst offset'; lia).
      replace (hint + 1 - offset - 1)%nat with (hint - offset)%nat by lia.
      now rewrite (Hoff ltac:(lia)).
    + intros _. destruct lastOfs as [|l].
      * rewrite Nat.sub_0_r, Hfirst. reflexivity.
      * destruct (Hlast ltac:(lia)) as [-> _]. reflexivity.
    + apply fits_of_nth; [lia| |].
      * intros Hpos. specialize (H1 Hpos). apply negb_true_iff in H1. exact H1.
      * intros Hin. specialize (H2 Hin). apply negb_false_iff in H2.
        now apply less_in_order.
  - (* gallop right *)
    pose proof (gallop_spec (fun o => negb (less key (nth (hint + o) a key)))
                  (List.length a - hint) (List.length a - hint) 0 1
                  ltac:(lia) ltac:(lia) ltac:(lia)) as Hg.
    destruct (gallop _ _ _ 0%nat 1%nat) as [lastOfs offset]. simpl in Hg.
    destruct Hg as (Hlt & Hlast & Hoff).
    set (offset' := Nat.min offset (List.length a - hint)).
    destruct (binary_search_spec
                (fun m => negb (less key (nth m a key))) (List.length a)
                (List.length a) (lastOfs + hint + 1) (offset' + hint))
      as (Hr & H1 & H2).
    + subst offset'. destruct lastOfs; [lia|]. destruct (Hlast ltac:(lia)). lia.
    + lia.
    + subst offset'. lia.
    + intros _. replace (lastOfs + hint + 1 - 1)%nat with (hint + lastOfs)%nat
        by lia.
      destruct lastOfs as [|l].
      * rewrite Nat.add_0_r, Hfirst. reflexivity.
      * now destruct (Hlast ltac:(lia)) as [-> _].
    + intros Hin. assert (offset < List.length a - hint)%nat
        by (subst offset'; lia).
      assert (offset' = offset) as -> by (subst offset'; lia).
      replace (offset + hint)%nat with (hint + offset)%nat by lia.
      now apply Hoff.
    + apply fits_of_nth; [subst offset'; lia| |].
      * intros Hpos. specialize (H1 Hpos). apply negb_true_iff in H1. exact H1.
      * intros Hin. specialize (H2 Hin). apply negb_false_iff in H2.
        now apply less_in_order.
Qed.

Lemma GallopLeft_fits (key : A) (a : list A) (hint : nat) :
  (hint < List.length a)%nat -> fits_at less key a (GallopLeft less key a hint).
Proof.
  intros Hhint. unfold GallopLeft. cbv zeta.
  destruct (less (nth hint a key) key) eqn:Hfirst.
  - (* gallop right *)
    pose proof (gallop_spec (fun o => less (nth (hint + o) a key) key)
                  (List.length a - hint) (List.length a - hint) 0 1
                  ltac:(lia) ltac:(lia) ltac:(lia)) as Hg.
    destruct (gallop _ _ _ 0%nat 1%nat) as [lastOfs offset]. simpl in Hg.
    destruct Hg as (Hlt & Hlast & Hoff).
    set (offset' := Nat.min offset (List.length a - hint)).
    destruct (binary_search_spec
                (fun m => less (nth m a key) key) (List.length a)
                (List.length a) (lastOfs + hint + 1) (offset' + hint))
      as (Hr & H1 & H2).
    + subst offset'. destruct lastOfs; [lia|]. destruct (Hlast ltac:(lia)). lia.
    + lia.
    + subst offset'. lia.
    + intros _. replace (lastOfs + hint + 1 - 1)%nat with (hint + lastOfs)%nat
        by lia.
      destruct lastOfs as [|l].
      * rewrite Nat.add_0_r. exact Hfirst.
      * now destruct (Hlast ltac:(lia)) as [-> _].
    + intros Hin. assert (offset < List.length a - hint)%nat
        by (subst offset'; lia).
      assert (offset' = offset) as -> by (subst offset'; lia).
      replace (offset + hint)%nat with (hint + offset)%nat by lia.
      now apply Hoff.
    + apply fits_of_nth; [subst offset'; lia| |].
      * intros Hpos. specialize (H1 Hpos). now apply less_in_order.
      * intros Hin. exact (H2 Hin).
  - (* gallop left *)
    pose proof (gallop_spec
                  (fun o => negb (less (nth (hint - o) a key) key))
                  (hint + 1) (hint + 1) 0 1 ltac:(lia) ltac:(lia) ltac:(lia))
      as Hg.
    destruct (gallop _ _ _ 0%nat 1%nat) as [lastOfs offset]. simpl in Hg.
    destruct Hg as (Hlt & Hlast & Hoff).
    set (offset' := Nat.min offset (hint + 1)).
    destruct (binary_search_spec
                (fun m => less (nth m a key) key) (List.length a)
                (List.length a) (hint + 1 - offset') (hint - lastOfs))
      as (Hr & H1 & H2).
    + subst offset'. lia.
    + lia.
    + lia.
    + intros Hpos. assert (offset < hint + 1)%nat by (subst offset'; lia).
      assert (offset' = offset) as -> by (subst offset'; lia).
      replace (hint + 1 - offset - 1)%nat with (hint - offset)%nat by lia.
      specialize (Hoff ltac:(lia)). now apply negb_false_iff in Hoff.
    + intros _. destruct lastOfs as [|l].
      * rewrite Nat.sub_0_r. exact Hfirst.
      * destruct (Hlast ltac:(lia)) as [Hon _]. now apply negb_true_iff in Hon.
    + apply fits_of_nth; [lia| |].
      * intros Hpos. specialize (H1 Hpos). now apply less_in_order.
      * intros Hin. exact (H2 Hin).
Qed.

(** *** Runs and binary insertion *)

Lemma insert_perm (x : A) (l : list A) (k : nat) :
  Permutation (firstn k l ++ x :: skipn k l) (x :: l).
Proof.
  rewrite <- (firstn_skipn k l) at 3. symmetry. apply Permutation_middle.
Qed.

Lemma BinaryInsertionSort_perm (rest : list A) :
  forall sorted,
    Permutation (BinaryInsertionSort less sorted rest) (sorted ++ rest).
Proof.
  induction rest as [|pivot rest IH]; intros sorted; cbn [BinaryInsertionSort].
  - now rewrite app_nil_r.
  - rewrite IH, insert_perm. rewrite <- Permutation_middle. reflexivity.
Qed.

Lemma BinaryInsertionSort_sorted (rest : list A) :
  forall sorted,
    Sorted R sorted -> Sorted R (BinaryInsertionSort less sorted rest).
Proof.
  induction rest as [|pivot rest IH]; intros sorted Hs; cbn [BinaryInsertionSort];
    [exact Hs|].
  apply IH. apply fits_insert; [exact Hs|].
  destruct (binary_search_spec
              (fun mid => negb (less pivot (nth mid sorted pivot)))
              (List.length sorted) (List.length sorted) 0 (List.length sorted))
    as (Hr & H1 & H2); try lia.
  apply fits_of_nth; [lia| |].
  - intros Hpos. specialize (H1 Hpos). now apply negb_true_iff in H1.
  - intros Hin. specialize (H2 Hin). apply negb_false_iff in H2.
    now apply less_in_order.
Qed.

Lemma run_rest_le (isDescending : bool) (l : list A) :
  forall previous, (run_rest less isDescending previous l <= List.length l)%nat.
Proof.
  induction l as [|x l IH]; intros previous; cbn [run_rest List.length]; [lia|].
  destruct (Bool.eqb _ _); [|lia]. specialize (IH x). lia.
Qed.

Lemma run_rest_ascending (l : list A) :
  forall previous,
    Sorted R (previous :: firstn (run_rest less false previous l) l).
Proof.
  induction l as [|x l IH]; intros previous; cbn [run_rest firstn].
  - repeat constructor.
  - destruct (less x previous) eqn:Hx; cbn [Bool.eqb firstn].
    + repeat constructor.
    + constructor; [apply IH|]. constructor. exact Hx.
Qed.

Lemma run_rest_descending (l : list A) :
  forall previous,
    Sorted R (rev (previous :: firstn (run_rest less true previous l) l)).
Proof.
  induction l as [|x l IH]; intros previous; cbn [run_rest firstn].
  - repeat constructor.
  - destruct (less x previous) eqn:Hx; cbn [Bool.eqb firstn].
    + change (rev (previous :: x :: firstn (run_rest less true x l) l))
        with (rev (x :: firstn (run_rest less true x l) l) ++ [previous])%list.
      apply Sorted_app_iff. repeat split; [apply IH|repeat constructor|].
      unfold joint. rewrite rev_involutive. now apply less_in_order.
    + repeat constructor.
Qed.

Lemma CountAndMakeRun_spec (l : list A) :
  l <> [] ->
  fst (CountAndMakeRun less l) <> []
  /\ Sorted R (fst (CountAndMakeRun less l))
  /\ Permutation (fst (CountAndMakeRun less l) ++ snd (CountAndMakeRun less l)) l
  /\ (List.length (fst (CountAndMakeRun less l))
      + List.length (snd (CountAndMakeRun less l)) = List.length l)%nat.
Proof.
  intros Hne. destruct l as [|hi [|lo rest]]; [contradiction| |].
  - cbn. repeat split; [discriminate|repeat constructor|reflexivity].
  - unfold CountAndMakeRun. cbv zeta.
    set (desc := less lo hi).
    set (n := run_rest less desc lo rest).
    assert (Hn : (n <= List.length rest)%nat) by apply run_rest_le.
    change (firstn (2 + n) (hi :: lo :: rest)) with (hi :: lo :: firstn n rest).
    change (skipn (2 + n) (hi :: lo :: rest)) with (skipn n rest).
    cbn [fst snd].
    assert (Hlen : (List.length (hi :: lo :: firstn n rest)
                    + List.length (skipn n rest)
                    = List.length (hi :: lo :: rest))%nat).
    { cbn [List.length]. rewrite length_firstn, length_skipn. lia. }
    assert (Hperm : Permutation ((hi :: lo :: firstn n rest) ++ skipn n rest)
                      (hi :: lo :: rest)).
    { cbn [app]. now rewrite firstn_skipn. }
    destruct desc eqn:Hdesc; subst desc.
    + repeat split.
      * intros E. apply (f_equal (@List.length A)) in E.
        rewrite length_rev in E. discriminate E.
      * change (rev (hi :: lo :: firstn n rest))
          with (rev (lo :: firstn n rest) ++ [hi])%list.
        apply Sorted_app_iff. repeat split;
          [apply run_rest_descending|repeat constructor|].
        unfold joint. rewrite rev_involutive. now apply less_in_order.
      * now rewrite <- Permutation_rev.
      * now rewrite length_rev.
    + repeat split; [discriminate| |exact Hperm|exact Hlen].
      constructor; [apply run_rest_ascending|]. constructor. exact Hdesc.
Qed.

(** A list whose neighbours are in order is one ascending run. *)
Lemma run_rest_in_order (l : list A) :
  forall previous,
    Sorted R (previous :: l) -> run_rest less false previous l = List.length l.
Proof.
  induction l as [|x l IH]; intros previous Hs; cbn [run_rest List.length];
    [reflexivity|].
  inversion Hs as [|? ? Hs' Hhd]; subst. inversion Hhd as [|? ? Hx]; subst.
  unfold in_order in Hx. rewrite Hx. cbn [Bool.eqb]. now rewrite IH.
Qed.

Lemma CountAndMakeRun_in_order (l : list A) :
  Sorted R l -> CountAndMakeRun less l = (l, []).
Proof.
  intros Hs. destruct l as [|hi [|lo rest]]; [reflexivity|reflexivity|].
  unfold CountAndMakeRun. cbv zeta.
  inversion Hs as [|? ? Hs' Hhd]; subst. inversion Hhd as [|? ? Hlo]; subst.
  unfold in_order in Hlo. rewrite Hlo.
  rewrite (run_rest_in_order rest lo Hs').
  change (2 + List.length rest)%nat with (List.length (hi :: lo :: rest)).
  now rewrite firstn_all, skipn_all.
Qed.

(** *** Merging from the left *)

Lemma low_step_a (after dest c a' b : list A) :
  low_ready less after dest (c ++ a') b -> b <> [] ->
  (c <> [] -> joint less c b) ->
  low_ready less after (dest ++ c) a' b.
Proof.
  intros (H1 & H2 & H3) Hb Hc. repeat split.
  - now rewrite <- !app_assoc in *.
  - rewrite <- app_assoc.
    apply (Sorted_bridge_l dest c (a' ++ after) (b ++ after)); [|exact H2|].
    + now rewrite <- !app_assoc in H1.
    + intros Hne. apply joint_app_r; [exact Hb|now apply Hc].
  - intros a'' x ->. apply (H3 (c ++ a'')%list). now rewrite app_assoc.
Qed.

Lemma low_step_b (after dest c a b' : list A) :
  low_ready less after dest a (c ++ b') -> a <> [] ->
  (c <> [] -> joint less c a) ->
  low_ready less after (dest ++ c) a b'.
Proof.
  intros (H1 & H2 & H3) Ha Hc. repeat split.
  - rewrite <- app_assoc.
    apply (Sorted_bridge_l dest c (b' ++ after) (a ++ after)); [|exact H1|].
    + now rewrite <- !app_assoc in H2.
    + intros Hne. apply joint_app_r; [exact Ha|now apply Hc].
  - now rewrite <- !app_assoc in *.
  - intros a'' x E. specialize (H3 a'' x E).
    destruct b' as [|y b']; [apply joint_nil_l|].
    apply joint_app_l in H3; [exact H3|discriminate].
Qed.

Lemma low_back_a (after dest c a' b r : list A) :
  low_done less after (dest ++ c) a' b r -> low_done less after dest (c ++ a') b r.
Proof.
  intros (t & -> & Hp & Hs). exists (c ++ t)%list. repeat split.
  - now rewrite app_assoc.
  - rewrite <- app_assoc. now apply Permutation_app_head.
  - now rewrite <- !app_assoc in *.
Qed.

Lemma low_back_b (after dest c a b' r : list A) :
  low_done less after (dest ++ c) a b' r -> low_done less after dest a (c ++ b') r.
Proof.
  intros (t & -> & Hp & Hs). exists (c ++ t)%list. repeat split.
  - now rewrite app_assoc.
  - rewrite Hp. apply Permutation_app_swap_app.
  - now rewrite <- !app_assoc in *.
Qed.

Lemma low_exit_a (after dest a : list A) :
  low_ready less after dest a [] -> low_done less after dest a [] (dest ++ a).
Proof.
  intros (H1 & _). exists a. repeat split; [now rewrite app_nil_r|exact H1].
Qed.

Lemma low_exit_b (after dest b : list A) :
  low_ready less after dest [] b -> low_done less after dest [] b (dest ++ b).
Proof.
  intros (_ & H2 & _). exists b. repeat split; [reflexivity|exact H2].
Qed.

Lemma low_exit_copy (after dest a b : list A) :
  low_ready less after dest a b -> List.length a = 1%nat ->
  low_done less after dest a b (dest ++ b ++ a).
Proof.
  intros (H1 & H2 & H3) Hlen.
  destruct a as [|x [|? ?]]; try discriminate Hlen.
  exists (b ++ [x])%list. repeat split; [apply Permutation_app_comm|].
  specialize (H3 [] x eq_refl).
  rewrite <- app_assoc, app_assoc.
  apply (Sorted_bridge_r after [x] dest (dest ++ b)).
  - exact H1.
  - now rewrite <- app_assoc.
  - intros _. destruct b as [|y b].
    + rewrite app_nil_r. apply Sorted_app_iff in H1 as (_ & _ & Hj).
      apply joint_app_r in Hj; [exact Hj|discriminate].
    + apply joint_app_l; [discriminate|exact H3].
Qed.

Lemma MergeLow_loop_spec (after : list A) :
  forall fuel phase minGallop dest a b,
    (List.length a + List.length b <= fuel)%nat ->
    low_ready less after dest a b ->
    low_done less after dest a b
      (fst (MergeLow_loop less fuel phase minGallop dest a b)).
Proof.
  induction fuel as [|fuel IH]; intros phase minGallop dest a b Hfuel Hready.
  - destruct a; [|cbn in Hfuel; lia]. destruct b; [|cbn in Hfuel; lia].
    cbn. now apply low_exit_a.
  - destruct a as [|a0 a'].
    { cbn. now apply low_exit_b. }
    destruct b as [|b0 b'].
    { cbn [MergeLow_loop fst]. rewrite app_nil_r. now apply low_exit_a. }
    cbn [MergeLow_loop]. cbn [List.length] in Hfuel.
    destruct phase as [nofWinsA nofWinsB|].
    + destruct (less b0 a0) eqn:Hless; cbv zeta.
      * apply (low_back_b after dest [b0] (a0 :: a') b').
        assert (Hr : low_ready less after (dest ++ [b0]) (a0 :: a') b').
        { apply low_step_b; [exact Hready|discriminate|].
          intros _. apply (joint_snoc [] a' b0 a0).
          now apply less_in_order. }
        destruct b' as [|b1 b'']; [now apply low_exit_a|].
        destruct (minGallop <=? S nofWinsB)%nat;
          apply IH; try exact Hr; cbn [List.length] in *; lia.
      * apply (low_back_a after dest [a0] a' (b0 :: b')).
        assert (Hr : low_ready less after (dest ++ [a0]) a' (b0 :: b')).
        { apply low_step_a; [exact Hready|discriminate|].
          intros _. apply (joint_snoc [] b' a0 b0). exact Hless. }
        destruct (List.length a' =? 1)%nat eqn:Hone.
        { apply Nat.eqb_eq in Hone. now apply low_exit_copy. }
        destruct (minGallop <=? S nofWinsA)%nat;
          apply IH; try exact Hr; cbn [List.length] in *; lia.
    + cbv zeta.
      set (a := a0 :: a') in *.
      set (k := GallopRight less b0 a 0).
      assert (Hk : fits_at less b0 a k).
      { apply GallopRight_fits. subst a. cbn [List.length]. lia. }
      destruct Hk as (Hkle & Hk1 & Hk2).
      rewrite <- (firstn_skipn k a) in Hready.
      rewrite <- (firstn_skipn k a) at 1.
      apply low_back_a.
      assert (Hr1 : low_ready less after (dest ++ firstn k a) (skipn k a)
                      (b0 :: b')).
      { apply low_step_a; [exact Hready|discriminate|].
        intros _. apply (joint_app_r _ [b0] b'); [discriminate|exact Hk1]. }
      assert (Hlen1 : (List.length (skipn k a) <= List.length a)%nat).
      { rewrite length_skipn. lia. }
      destruct ((0 <? k)%nat && (List.length (skipn k a) =? 1)%nat) eqn:Hcopy.
      { apply andb_true_iff in Hcopy as (_ & Hone). apply Nat.eqb_eq in Hone.
        now apply low_exit_copy. }
      clear Hcopy.
      destruct (skipn k a) as [|a1 a''] eqn:Hskip.
      { now apply low_exit_b. }
      apply (low_back_b after _ [b0] (a1 :: a'') b').
      assert (Hr2 : low_ready less after ((dest ++ firstn k a) ++ [b0])
                      (a1 :: a'') b').
      { apply low_step_b; [exact Hr1|discriminate|]. intros _. exact Hk2. }
      destruct b' as [|b1 b''] eqn:Hb'; [now apply low_exit_a|].
      rewrite <- Hb' in *.
      set (k' := GallopLeft less a1 b' 0).
      assert (Hk' : fits_at less a1 b' k').
      { apply GallopLeft_fits. rewrite Hb'. cbn [List.length]. lia. }
      destruct Hk' as (Hk'le & Hk'1 & Hk'2).
      rewrite <- (firstn_skipn k' b') in Hr2.
      rewrite <- (firstn_skipn k' b') at 1.
      apply low_back_b.
      assert (Hr3 : low_ready less after
                      (((dest ++ firstn k a) ++ [b0]) ++ firstn k' b')
                      (a1 :: a'') (skipn k' b')).
      { apply low_step_b; [exact Hr2|discriminate|].
        intros _. apply (joint_app_r _ [a1] a''); [discriminate|exact Hk'1]. }
      assert (Hlen3 : (List.length (skipn k' b') <= List.length b')%nat).
      { rewrite length_skipn. lia. }
      destruct (skipn k' b') as [|b2 b3] eqn:Hskip'; [now apply low_exit_a|].
      apply (low_back_a after _ [a1] a'' (b2 :: b3)).
      assert (Hr4 : low_ready less after
                      ((((dest ++ firstn k a) ++ [b0]) ++ firstn k' b') ++ [a1])
                      a'' (b2 :: b3)).
      { apply low_step_a; [exact Hr3|discriminate|]. intros _. exact Hk'2. }
      destruct (List.length a'' =? 1)%nat eqn:Hone.
      { apply Nat.eqb_eq in Hone. now apply low_exit_copy. }
      assert (Hfuel' : (List.length a'' + List.length (b2 :: b3) <= fuel)%nat).
      { subst a. cbn [List.length] in *. lia. }
      destruct ((kMinGallopWins <=? k)%nat || (kMinGallopWins <=? k')%nat);
        apply IH; assumption.
Qed.

Lemma MergeLow_spec (before after : list A) (minGallop : nat) (a b : list A) :
  a <> [] -> b <> [] ->
  Sorted R (before ++ a ++ after) -> Sorted R (before ++ b ++ after) ->
  (forall y b', b = y :: b' -> joint less [y] a) ->
  (forall a' x, a = (a' ++ [x])%list -> joint less b [x]) ->
  Permutation (fst (MergeLow less minGallop a b)) (a ++ b)
  /\ Sorted R (before ++ fst (MergeLow less minGallop a b) ++ after).
Proof.
  intros Ha Hb H1 H2 Hstart Hend.
  destruct b as [|b0 b']; [contradiction|].
  specialize (Hstart b0 b' eq_refl).
  apply Sorted_app_iff in H1 as (Hbefore & H1 & Hj1).
  apply Sorted_app_iff in H2 as (_ & H2 & Hj2).
  assert (Hready : low_ready less after [b0] a b').
  { repeat split.
    - apply (Sorted_app_iff [b0]). repeat split; [repeat constructor|exact H1|].
      apply joint_app_r; assumption.
    - exact H2.
    - intros a' x E. specialize (Hend a' x E).
      destruct b' as [|b1 b'']; [apply joint_nil_l|].
      apply joint_cons_l in Hend; [exact Hend|discriminate]. }
  assert (Hdone : low_done less after [b0] a b' (fst (MergeLow less minGallop a (b0 :: b')))).
  { unfold MergeLow. destruct b' as [|b1 b''] eqn:Hb'.
    - apply (low_exit_a after [b0] a Hready).
    - rewrite <- Hb' in *.
      destruct (List.length a =? 1)%nat eqn:Hone.
      + apply Nat.eqb_eq in Hone. apply (low_exit_copy after [b0] a b' Hready Hone).
      + apply MergeLow_loop_spec; [lia|exact Hready]. }
  destruct Hdone as (t & -> & Hp & Hs). split.
  - cbn [app]. rewrite Hp. apply Permutation_middle.
  - apply Sorted_app_iff. repeat split; [exact Hbefore|exact Hs|].
    cbn [app] in *. apply (joint_app_r _ [b0]); [discriminate|].
    apply (joint_app_r _ [b0]) in Hj2; [exact Hj2|discriminate].
Qed.

(** *** Merging from the right *)

Lemma unsnoc_Some (l front : list A) (x : A) :
  unsnoc l = Some (front, x) -> l = (front ++ [x])%list.
Proof.
  unfold unsnoc. destruct (rev l) as [|y f] eqn:E; [discriminate|].
  intros [= <- <-]. rewrite <- (rev_involutive l), E. reflexivity.
Qed.

Lemma unsnoc_None (l : list A) : unsnoc l = None -> l = [].
Proof.
  unfold unsnoc. destruct (rev l) as [|y f] eqn:E; [|discriminate].
  intros _. rewrite <- (rev_involutive l), E. reflexivity.
Qed.

Lemma unsnoc_snoc (front : list A) (x : A) :
  unsnoc (front ++ [x]) = Some (front, x).
Proof.
  unfold unsnoc. rewrite rev_app_distr. cbn. now rewrite rev_involutive.
Qed.

Lemma high_step_a (before a' c b dest : list A) :
  high_ready less before (a' ++ c) b dest -> b <> [] ->
  (c <> [] -> joint less b c) ->
  high_ready less before a' b (c ++ dest).
Proof.
  intros (H1 & H2 & H3) Hb Hc. repeat split.
  - now rewrite <- !app_assoc in *.
  - rewrite app_assoc.
    apply (Sorted_bridge_r dest c (before ++ a') (before ++ b)).
    + now rewrite <- !app_assoc in *.
    + now rewrite <- !app_assoc in *.
    + intros Hne. apply joint_app_l; [exact Hb|now apply Hc].
  - intros y b' E. specialize (H3 y b' E).
    destruct a' as [|x a']; [apply joint_nil_r|].
    apply joint_app_r in H3; [exact H3|discriminate].
Qed.

Lemma high_step_b (before a b' c dest : list A) :
  high_ready less before a (b' ++ c) dest -> a <> [] ->
  (c <> [] -> joint less a c) ->
  high_ready less before a b' (c ++ dest).
Proof.
  intros (H1 & H2 & H3) Ha Hc. repeat split.
  - rewrite app_assoc.
    apply (Sorted_bridge_r dest c (before ++ b') (before ++ a)).
    + now rewrite <- !app_assoc in *.
    + now rewrite <- !app_assoc in *.
    + intros Hne. apply joint_app_l; [exact Ha|now apply Hc].
  - now rewrite <- !app_assoc in *.
  - intros y b'' ->. apply (H3 y (b'' ++ c)%list). reflexivity.
Qed.

Lemma high_back_a (before a' c b dest r : list A) :
  high_done less before a' b (c ++ dest) r ->
  high_done less before (a' ++ c) b dest r.
Proof.
  intros (t & -> & Hp & Hs). exists (t ++ c)%list. repeat split.
  - now rewrite <- app_assoc.
  - rewrite Hp, <- !app_assoc. apply Permutation_app_head.
    apply Permutation_app_comm.
  - now rewrite <- !app_assoc in *.
Qed.

Lemma high_back_b (before a b' c dest r : list A) :
  high_done less before a b' (c ++ dest) r ->
  high_done less before a (b' ++ c) dest r.
Proof.
  intros (t & -> & Hp & Hs). exists (t ++ c)%list. repeat split.
  - now rewrite <- app_assoc.
  - now rewrite Hp, <- !app_assoc.
  - now rewrite <- !app_assoc in *.
Qed.

Lemma high_exit_a (before a dest : list A) :
  high_ready less before a [] dest ->
  high_done less before a [] dest (a ++ dest).
Proof.
  intros (H1 & _). exists a. repeat split; [now rewrite app_nil_r|exact H1].
Qed.

Lemma high_exit_b (before b dest : list A) :
  high_ready less before [] b dest ->
  high_done less before [] b dest (b ++ dest).
Proof.
  intros (_ & H2 & _). exists b. repeat split; [reflexivity|exact H2].
Qed.

Lemma high_exit_copy (before a b dest : list A) :
  high_ready less before a b dest -> List.length b = 1%nat ->
  high_done less before a b dest (b ++ a ++ dest).
Proof.
  intros (H1 & H2 & H3) Hlen.
  destruct b as [|y [|? ?]]; try discriminate Hlen.
  exists ([y] ++ a)%list. repeat split.
  - apply Permutation_app_comm.
  - specialize (H3 y [] eq_refl). rewrite <- app_assoc.
    apply (Sorted_bridge_l before [y] dest (a ++ dest)); [exact H2|exact H1|].
    intros _. destruct a as [|x a].
    + cbn [app]. apply Sorted_app_iff in H2 as (_ & H2 & _).
      apply (Sorted_app_iff [y]) in H2 as (_ & _ & Hj). exact Hj.
    + apply joint_app_r; [discriminate|exact H3].
Qed.

Lemma MergeHigh_loop_spec (before : list A) :
  forall fuel phase minGallop a b dest,
    (List.length a + List.length b <= fuel)%nat ->
    (2 <= List.length b)%nat ->
    high_ready less before a b dest ->
    high_done less before a b dest
      (fst (MergeHigh_loop less fuel phase minGallop a b dest)).
Proof.
  induction fuel as [|fuel IH];
    intros phase minGallop a b dest Hfuel Htwo Hready.
  - lia.
  - cbn [MergeHigh_loop].
    destruct (unsnoc a) as [[a' aLast]|] eqn:Ha.
    2:{ apply unsnoc_None in Ha. subst a. cbn. now apply high_exit_b. }
    destruct (unsnoc b) as [[b' bLast]|] eqn:Hb.
    2:{ apply unsnoc_None in Hb. subst b. cbn in Htwo. lia. }
    apply unsnoc_Some in Ha, Hb.
    assert (Hb'len : (1 <= List.length b')%nat).
    { subst b. rewrite length_app in Htwo. cbn in Htwo. lia. }
    assert (Hlena : List.length a = S (List.length a')).
    { subst a. rewrite length_app. cbn. lia. }
    assert (Hlenb : List.length b = S (List.length b')).
    { subst b. rewrite length_app. cbn. lia. }
    destruct phase as [nofWinsA nofWinsB|].
    + destruct (less bLast aLast) eqn:Hless; cbv zeta.
      * rewrite Ha at 1. rewrite Ha in Hready.
        apply (high_back_a before a' [aLast] b dest).
        assert (Hr : high_ready less before a' b ([aLast] ++ dest)).
        { apply high_step_a; [exact Hready|subst b; now destruct b'|].
          intros _. rewrite Hb. apply joint_snoc. now apply less_in_order. }
        destruct a' as [|a0 a''] eqn:Ha'; [now apply high_exit_b|].
        rewrite <- Ha' in *.
        destruct (minGallop <=? S nofWinsA)%nat;
          apply IH; try exact Hr; lia.
      * rewrite Hb at 1. rewrite Hb in Hready.
        apply (high_back_b before a b' [bLast] dest).
        assert (Hr : high_ready less before a b' ([bLast] ++ dest)).
        { apply high_step_b; [exact Hready|subst a; now destruct a'|].
          intros _. rewrite Ha. apply joint_snoc. exact Hless. }
        destruct (List.length b' =? 1)%nat eqn:Hone.
        { apply Nat.eqb_eq in Hone. now apply high_exit_copy. }
        apply Nat.eqb_neq in Hone.
        destruct (minGallop <=? S nofWinsB)%nat;
          apply IH; try exact Hr; lia.
    + cbv zeta.
      set (k := GallopRight less bLast a (List.length a - 1)).
      assert (Hk : fits_at less bLast a k).
      { apply GallopRight_fits. lia. }
      destruct Hk as (Hkle & Hk1 & Hk2).
      rewrite <- (firstn_skipn k a) in Hready.
      rewrite <- (firstn_skipn k a) at 1.
      apply high_back_a.
      assert (Hr1 : high_ready less before (firstn k a) b (skipn k a ++ dest)).
      { apply high_step_a; [exact Hready|subst b; now destruct b'|].
        intros _. rewrite Hb. apply joint_app_l; [discriminate|exact Hk2]. }
      assert (Hlen1 : (List.length (firstn k a) <= List.length a)%nat).
      { rewrite length_firstn. lia. }
      destruct (unsnoc (firstn k a)) as [[a1' a1Last]|] eqn:Ha1.
      2:{ apply unsnoc_None in Ha1. rewrite Ha1 in *. now apply high_exit_b. }
      apply unsnoc_Some in Ha1.
      rewrite Hb at 1. rewrite Hb in Hr1.
      apply (high_back_b before _ b' [bLast]).
      assert (Hr2 : high_ready less before (firstn k a) b'
                      ([bLast] ++ skipn k a ++ dest)).
      { apply high_step_b; [exact Hr1|rewrite Ha1; now destruct a1'|].
        intros _. exact Hk1. }
      destruct (List.length b' =? 1)%nat eqn:Hone.
      { apply Nat.eqb_eq in Hone. now apply high_exit_copy. }
      apply Nat.eqb_neq in Hone.
      set (k' := GallopLeft less a1Last b' (List.length b' - 1)).
      assert (Hk' : fits_at less a1Last b' k').
      { apply GallopLeft_fits. lia. }
      destruct Hk' as (Hk'le & Hk'1 & Hk'2).
      rewrite <- (firstn_skipn k' b') in Hr2.
      rewrite <- (firstn_skipn k' b') at 1.
      apply high_back_b.
      assert (Hr3 : high_ready less before (firstn k a) (firstn k' b')
                      (skipn k' b' ++ [bLast] ++ skipn k a ++ dest)).
      { apply high_step_b; [exact Hr2|rewrite Ha1; now destruct a1'|].
        intros _. rewrite Ha1. apply joint_app_l; [discriminate|exact Hk'2]. }
      assert (Hlen3 : List.length (firstn k' b') = k').
      { rewrite length_firstn. lia. }
      destruct ((0 <? List.length b' - k')%nat
                && (List.length (firstn k' b') =? 1)%nat) eqn:Hcopy.
      { apply andb_true_iff in Hcopy as (_ & Hone'). apply Nat.eqb_eq in Hone'.
        now apply high_exit_copy. }
      destruct (firstn k' b') as [|b2 b3] eqn:Hb3; [now apply high_exit_a|].
      rewrite <- Hb3 in *.
      assert (Htwo3 : (2 <= List.length (firstn k' b'))%nat).
      { apply andb_false_iff in Hcopy as [Hc|Hc].
        - apply Nat.ltb_ge in Hc. lia.
        - apply Nat.eqb_neq in Hc. rewrite Hb3 in *. cbn [List.length] in *. lia. }
      rewrite Ha1 at 1. rewrite Ha1 in Hr3.
      apply (high_back_a before a1' [a1Last]).
      assert (Hr4 : high_ready less before a1' (firstn k' b')
                      ([a1Last] ++ skipn k' b' ++ [bLast] ++ skipn k a ++ dest)).
      { apply high_step_a; [exact Hr3|rewrite Hb3; discriminate|].
        intros _. exact Hk'1. }
      destruct a1' as [|a2 a3] eqn:Ha1'; [now apply high_exit_b|].
      rewrite <- Ha1' in *.
      assert (Hfuel' : (List.length a1' + List.length (firstn k' b') <= fuel)%nat).
      { rewrite Ha1 in Hlen1. rewrite length_app in Hlen1. cbn in Hlen1. lia. }
      destruct ((kMinGallopWins <=? List.length a - k)%nat
                || (kMinGallopWins <=? List.length b' - k')%nat);
        apply IH; assumption.
Qed.

Lemma MergeHigh_spec (before after : list A) (minGallop : nat) (a b : list A) :
  a <> [] -> b <> [] ->
  Sorted R (before ++ a ++ after) -> Sorted R (before ++ b ++ after) ->
  (forall y b', b = y :: b' -> joint less [y] a) ->
  (forall a' x, a = (a' ++ [x])%list -> joint less b [x]) ->
  Permutation (fst (MergeHigh less minGallop a b)) (a ++ b)
  /\ Sorted R (before ++ fst (MergeHigh less minGallop a b) ++ after).
Proof.
  intros Ha Hb H1 H2 Hstart Hend.
  unfold MergeHigh.
  destruct (unsnoc a) as [[a' aLast]|] eqn:Ea.
  2:{ apply unsnoc_None in Ea. contradiction. }
  apply unsnoc_Some in Ea. specialize (Hend a' aLast Ea). subst a.
  rewrite app_assoc in H1, H2.
  apply Sorted_app_iff in H1 as (H1 & Hafter & Hj1).
  apply Sorted_app_iff in H2 as (H2 & _ & _).
  assert (Hready : high_ready less before a' b [aLast]).
  { repeat split.
    - exact H1.
    - rewrite app_assoc. apply Sorted_app_iff.
      repeat split; [exact H2|repeat constructor|].
      apply joint_app_l; assumption.
    - intros y b' E. specialize (Hstart y b' E).
      destruct a' as [|x a']; [apply joint_nil_r|].
      apply joint_app_r in Hstart; [exact Hstart|discriminate]. }
  assert (Hdone : high_done less before a' b [aLast]
                    (fst (match a' with
                          | [] => ((b ++ [aLast])%list, minGallop)
                          | _ :: _ =>
                              if (List.length b =? 1)%nat
                              then ((b ++ a' ++ [aLast])%list, minGallop)
                              else MergeHigh_loop less
                                     (List.length a' + List.length b)
                                     (OneAtATime 0 0) minGallop a' b [aLast]
                          end))).
  { destruct a' as [|a0 a''] eqn:Ha'.
    - apply (high_exit_b before b [aLast] Hready).
    - rewrite <- Ha' in *.
      destruct (List.length b =? 1)%nat eqn:Hone.
      + apply Nat.eqb_eq in Hone.
        apply (high_exit_copy before a' b [aLast] Hready Hone).
      + apply Nat.eqb_neq in Hone.
        apply MergeHigh_loop_spec; [lia| |exact Hready].
        destruct b as [|? [|? ?]]; cbn in *; try lia. contradiction. }
  destruct Hdone as (t & -> & Hp & Hs). split.
  - rewrite Hp, <- !app_assoc. apply Permutation_app_head.
    apply Permutation_app_comm.
  - rewrite !app_assoc. apply Sorted_app_iff.
    repeat split; [now rewrite <- app_assoc|exact Hafter|].
    destruct after as [|z after]; [apply joint_nil_r|].
    apply joint_app_l; [discriminate|].
    rewrite app_assoc in Hj1. apply joint_app_l in Hj1; [exact Hj1|discriminate].
Qed.

Lemma firstn_nil_inv (k : nat) (l : list A) :
  firstn k l = [] -> l <> [] -> k = 0%nat.
Proof.
  destruct k, l; try reflexivity; try discriminate. contradiction.
Qed.

Lemma merge_runs_spec (minGallop : nat) (a b : list A) :
  Sorted R a -> Sorted R b ->
  Permutation (fst (merge_runs less minGallop a b)) (a ++ b)
  /\ Sorted R (fst (merge_runs less minGallop a b)).
Proof.
  intros Ha Hb. unfold merge_runs.
  destruct b as [|keyRight b'] eqn:Eb.
  { cbn [fst]. rewrite app_nil_r. now split. }
  rewrite <- Eb in *.
  assert (Hbne : b <> []) by (rewrite Eb; discriminate).
  cbv zeta.
  destruct a as [|a0 a'] eqn:Ea.
  { rewrite skipn_nil. cbn. now split. }
  rewrite <- Ea in *.
  set (k := GallopRight less keyRight a 0).
  assert (Hk : fits_at less keyRight a k).
  { apply GallopRight_fits. rewrite Ea. cbn [List.length]. lia. }
  destruct Hk as (Hkle & Hk1 & Hk2).
  destruct (unsnoc (skipn k a)) as [[front keyLeft]|] eqn:Eu.
  2:{ apply unsnoc_None in Eu. cbn [fst]. split; [reflexivity|].
      apply Sorted_app_iff. repeat split; [exact Ha|exact Hb|].
      assert (Hall : firstn k a = a).
      { rewrite <- (firstn_skipn k a) at 2. rewrite Eu. now rewrite app_nil_r. }
      rewrite Hall in Hk1. rewrite Eb.
      apply (joint_app_r _ [keyRight]); [discriminate|exact Hk1]. }
  apply unsnoc_Some in Eu.
  set (lengthB := GallopLeft less keyLeft b (List.length b - 1)).
  assert (Hl : fits_at less keyLeft b lengthB).
  { apply GallopLeft_fits. rewrite Eb. cbn [List.length]. lia. }
  destruct Hl as (Hlle & Hl1 & Hl2).
  assert (Ealast : a = ((firstn k a ++ front) ++ [keyLeft])%list).
  { rewrite <- (firstn_skipn k a) at 1. rewrite Eu. now rewrite app_assoc. }
  destruct (firstn lengthB b) as [|b0 b1] eqn:Ef.
  { cbn [fst]. split; [reflexivity|].
    apply Sorted_app_iff. repeat split; [exact Ha|exact Hb|].
    apply firstn_nil_inv in Ef; [|exact Hbne].
    rewrite Ef in Hl2. cbn [skipn] in Hl2.
    rewrite Ealast. apply joint_app_l; [discriminate|exact Hl2]. }
  rewrite <- Ef in *.
  assert (Hfne : firstn lengthB b <> []) by (rewrite Ef; discriminate).
  assert (Hsne : skipn k a <> []) by (rewrite Eu; now destruct front).
  assert (H1 : Sorted R (firstn k a ++ skipn k a ++ skipn lengthB b)).
  { rewrite app_assoc, firstn_skipn. apply Sorted_app_iff.
    repeat split; [exact Ha| |].
    - rewrite <- (firstn_skipn lengthB b) in Hb.
      now apply Sorted_app_iff in Hb as (_ & Hb2 & _).
    - rewrite Ealast. destruct (skipn lengthB b); [apply joint_nil_r|].
      apply joint_app_l; [discriminate|exact Hl2]. }
  assert (H2 : Sorted R (firstn k a ++ firstn lengthB b ++ skipn lengthB b)).
  { rewrite firstn_skipn. apply Sorted_app_iff. repeat split; [|exact Hb|].
    - rewrite <- (firstn_skipn k a) in Ha.
      now apply Sorted_app_iff in Ha as (Ha1 & _ & _).
    - rewrite Eb. apply (joint_app_r _ [keyRight]); [discriminate|exact Hk1]. }
  assert (Hstart : forall y b'', firstn lengthB b = y :: b'' ->
                                 joint less [y] (skipn k a)).
  { intros y b'' E. rewrite Eb in E. destruct lengthB; [discriminate|].
    cbn [firstn] in E. injection E as <- _. exact Hk2. }
  assert (Hend : forall a'' x, skipn k a = (a'' ++ [x])%list ->
                               joint less (firstn lengthB b) [x]).
  { intros a'' x E. rewrite Eu in E. apply app_inj_tail in E as (_ & <-).
    exact Hl1. }
  assert (Hmerged :
    forall r : list A * nat,
      Permutation (fst r) (skipn k a ++ firstn lengthB b)
      /\ Sorted R (firstn k a ++ fst r ++ skipn lengthB b) ->
      Permutation (fst (let '(merged, minGallop0) := r in
                        ((firstn k a ++ merged ++ skipn lengthB b)%list,
                         minGallop0))) (a ++ b)
      /\ Sorted R (fst (let '(merged, minGallop0) := r in
                        ((firstn k a ++ merged ++ skipn lengthB b)%list,
                         minGallop0)))).
  { intros [merged mg] (Hp & Hs). cbn [fst] in *. split; [|exact Hs].
    rewrite Hp. rewrite <- (firstn_skipn k a) at 3.
    rewrite <- (firstn_skipn lengthB b) at 3.
    now rewrite <- !app_assoc. }
  apply Hmerged.
  destruct (List.length (skipn k a) <=? lengthB)%nat.
  - now apply MergeLow_spec.
  - now apply MergeHigh_spec.
Qed.

(** *** The stack of pending runs *)

Lemma runs_kept_refl (st : SortState) : runs_kept less st st.
Proof. intros H. now split. Qed.

Lemma runs_kept_trans (st1 st2 st3 : SortState) :
  runs_kept less st1 st2 -> runs_kept less st2 st3 -> runs_kept less st1 st3.
Proof.
  intros H12 H23 H. destruct (H12 H) as (H2 & Hp2).
  destruct (H23 H2) as (H3 & Hp3). split; [exact H3|].
  now rewrite Hp3.
Qed.

Lemma MergeAt_top_kept (st : SortState) : runs_kept less st (MergeAt_top less st).
Proof.
  unfold MergeAt_top.
  destruct (pendingRuns st) as [|top [|second rest]] eqn:E;
    try apply runs_kept_refl.
  intros H. rewrite E in H.
  inversion H as [|? ? Htop H']; subst. inversion H' as [|? ? Hsecond Hrest]; subst.
  destruct (merge_runs_spec (minGallop st) second top Hsecond Htop) as (Hp & Hs).
  destruct (merge_runs less (minGallop st) second top) as [merged mg].
  cbn [pendingRuns fst] in *. rewrite E. split.
  - now constructor.
  - cbn [List.concat]. rewrite Hp, app_assoc.
    apply Permutation_app_tail, Permutation_app_comm.
Qed.

Lemma MergeAt_below_kept (st : SortState) : runs_kept less st (MergeAt_below less st).
Proof.
  unfold MergeAt_below.
  destruct (pendingRuns st) as [|top [|second [|third rest]]] eqn:E;
    try apply runs_kept_refl.
  intros H. rewrite E in H.
  inversion H as [|? ? Htop H']; subst. inversion H' as [|? ? Hsecond H'']; subst.
  inversion H'' as [|? ? Hthird Hrest]; subst.
  destruct (merge_runs_spec (minGallop st) third second Hthird Hsecond)
    as (Hp & Hs).
  destruct (merge_runs less (minGallop st) third second) as [merged mg].
  cbn [pendingRuns fst] in *. rewrite E. split.
  - now repeat constructor.
  - cbn [List.concat]. rewrite Hp. apply Permutation_app_head.
    rewrite app_assoc. apply Permutation_app_tail, Permutation_app_comm.
Qed.

Lemma MergeAt_top_length (st : SortState) (top second : list A)
  (rest : list (list A)) :
  pendingRuns st = top :: second :: rest ->
  List.length (pendingRuns (MergeAt_top less st)) = S (List.length rest).
Proof.
  intros E. unfold MergeAt_top. rewrite E.
  now destruct (merge_runs less (minGallop st) second top).
Qed.

Lemma MergeAt_below_length (st : SortState) (top second third : list A)
  (rest : list (list A)) :
  pendingRuns st = top :: second :: third :: rest ->
  List.length (pendingRuns (MergeAt_below less st)) = S (S (List.length rest)).
Proof.
  intros E. unfold MergeAt_below. rewrite E.
  now destruct (merge_runs less (minGallop st) third second).
Qed.

Lemma MergeCollapse_kept (fuel : nat) :
  forall st, runs_kept less st (MergeCollapse less fuel st).
Proof.
  induction fuel as [|fuel IH]; intros st; cbn [MergeCollapse];
    [apply runs_kept_refl|].
  assert (Htop : runs_kept less st (MergeCollapse less fuel (MergeAt_top less st))).
  { eapply runs_kept_trans; [apply MergeAt_top_kept|apply IH]. }
  assert (Hbelow : runs_kept less st (MergeCollapse less fuel (MergeAt_below less st))).
  { eapply runs_kept_trans; [apply MergeAt_below_kept|apply IH]. }
  destruct (pendingRuns st) as [|top [|second rest]];
    try apply runs_kept_refl.
  cbv zeta.
  repeat match goal with
         | |- runs_kept _ _ (if ?c then _ else _) => destruct c
         | |- runs_kept _ _ (match ?l with [] => _ | _ :: _ => _ end) =>
             destruct l
         end; try assumption; apply runs_kept_refl.
Qed.

Lemma MergeForceCollapse_kept (fuel : nat) :
  forall st, runs_kept less st (MergeForceCollapse less fuel st).
Proof.
  induction fuel as [|fuel IH]; intros st; cbn [MergeForceCollapse];
    [apply runs_kept_refl|].
  assert (Htop : runs_kept less st (MergeForceCollapse less fuel (MergeAt_top less st))).
  { eapply runs_kept_trans; [apply MergeAt_top_kept|apply IH]. }
  assert (Hbelow : runs_kept less st
                     (MergeForceCollapse less fuel (MergeAt_below less st))).
  { eapply runs_kept_trans; [apply MergeAt_below_kept|apply IH]. }
  destruct (pendingRuns st) as [|top [|second rest]];
    try apply runs_kept_refl.
  repeat match goal with
         | |- runs_kept _ _ (if ?c then _ else _) => destruct c
         | |- runs_kept _ _ (match ?l with [] => _ | _ :: _ => _ end) =>
             destruct l
         end; assumption.
Qed.

(** With as much fuel as there are pending runs, one run at most is
    left. *)
Lemma MergeForceCollapse_one (fuel : nat) :
  forall st,
    (List.length (pendingRuns st) <= S fuel)%nat ->
    (List.length (pendingRuns (MergeForceCollapse less fuel st)) <= 1)%nat.
Proof.
  induction fuel as [|fuel IH]; intros st Hlen; cbn [MergeForceCollapse];
    [exact Hlen|].
  destruct (pendingRuns st) as [|top [|second rest]] eqn:E;
    [rewrite E; cbn; lia|rewrite E; cbn; lia|].
  cbn [List.length] in Hlen.
  destruct rest as [|third rest'].
  - apply IH. rewrite (MergeAt_top_length st top second [] E). cbn. lia.
  - destruct (List.length third <? List.length top)%nat; apply IH.
    + rewrite (MergeAt_below_length st top second third rest' E).
      cbn [List.length] in Hlen. lia.
    + rewrite (MergeAt_top_length st top second (third :: rest') E).
      cbn [List.length] in *. lia.
Qed.

Lemma runs_loop_spec (minRunLength : nat) :
  forall fuel remaining st,
    (List.length remaining <= fuel)%nat ->
    Forall (Sorted R) (pendingRuns st) ->
    Forall (Sorted R) (pendingRuns (runs_loop less fuel minRunLength remaining st))
    /\ Permutation
         (List.concat (pendingRuns (runs_loop less fuel minRunLength remaining st)))
         (List.concat (pendingRuns st) ++ remaining).
Proof.
  induction fuel as [|fuel IH]; intros remaining st Hfuel Hst.
  - destruct remaining; [|cbn in Hfuel; lia]. cbn. rewrite app_nil_r. now split.
  - destruct remaining as [|x remaining'] eqn:Erem.
    { cbn. rewrite app_nil_r. now split. }
    cbn [runs_loop]. rewrite <- Erem in *.
    assert (Hne : remaining <> []) by (rewrite Erem; discriminate).
    destruct (CountAndMakeRun_spec remaining Hne) as (Hrne & Hrs & Hrp & Hrl).
    destruct (CountAndMakeRun less remaining) as [run rest].
    cbn [fst snd] in *.
    assert (Hrun1 : (1 <= List.length run)%nat).
    { destruct run; [contradiction|cbn; lia]. }
    set (more := (Nat.min minRunLength (List.length remaining)
                  - List.length run)%nat).
    assert (Hext :
      forall p : list A * list A,
        Sorted R (fst p) -> Permutation (fst p ++ snd p) remaining ->
        (List.length (snd p) <= fuel)%nat ->
        Forall (Sorted R)
          (pendingRuns
             (let '(run0, rest0) := p in
              runs_loop less fuel minRunLength rest0
                (MergeCollapse less
                   (List.length (run0 :: pendingRuns st))
                   {| pendingRuns := run0 :: pendingRuns st;
                      minGallop := minGallop st |})))
        /\ Permutation
             (List.concat
                (pendingRuns
                   (let '(run0, rest0) := p in
                    runs_loop less fuel minRunLength rest0
                      (MergeCollapse less
                         (List.length (run0 :: pendingRuns st))
                         {| pendingRuns := run0 :: pendingRuns st;
                            minGallop := minGallop st |}))))
             (List.concat (pendingRuns st) ++ remaining)).
    { intros [run0 rest0] Hs0 Hp0 Hl0. cbn [fst snd] in *.
      set (st1 := {| pendingRuns := run0 :: pendingRuns st;
                     minGallop := minGallop st |}).
      destruct (MergeCollapse_kept (List.length (run0 :: pendingRuns st)) st1)
        as (Hc & Hcp).
      { cbn [pendingRuns st1]. now constructor. }
      destruct (IH rest0 _ Hl0 Hc) as (Hf & Hfp).
      split; [exact Hf|].
      rewrite Hfp, Hcp. cbn [pendingRuns st1 List.concat].
      rewrite <- Hp0, <- !app_assoc.
      rewrite (Permutation_app_comm run0 (List.concat (pendingRuns st) ++ _)).
      rewrite <- app_assoc. apply Permutation_app_head, Permutation_app_comm. }
    cbn [pendingRuns List.length] in *.
    apply Hext; destruct (List.length run <? minRunLength)%nat; cbn [fst snd].
    + now apply BinaryInsertionSort_sorted.
    + exact Hrs.
    + rewrite BinaryInsertionSort_perm, <- app_assoc, firstn_skipn. exact Hrp.
    + exact Hrp.
    + rewrite length_skipn. rewrite Erem in Hfuel, Hrl. cbn [List.length] in *. lia.
    + rewrite Erem in Hfuel, Hrl. cbn [List.length] in *. lia.
Qed.

(** *** The sort *)

Lemma concat_rev_perm (ls : list (list A)) :
  Permutation (List.concat (rev ls)) (List.concat ls).
Proof.
  induction ls as [|l ls IH]; [reflexivity|].
  cbn [rev List.concat]. rewrite concat_app. cbn [List.concat].
  rewrite app_nil_r, IH. apply Permutation_app_comm.
Qed.

Lemma ArrayTimSort_perm (l : list A) : Permutation (ArrayTimSort less l) l.
Proof.
  unfold ArrayTimSort. destruct (List.length l <? 2)%nat; [reflexivity|]. cbv zeta.
  set (st0 := {| pendingRuns := []; minGallop := kMinGallopWins |}).
  destruct (runs_loop_spec (ComputeMinRunLength (List.length l))
              (List.length l) l st0) as (H1 & Hp1); [lia|constructor|].
  destruct (MergeForceCollapse_kept
              (List.length (pendingRuns (runs_loop less (List.length l)
                 (ComputeMinRunLength (List.length l)) l st0)))
              _ H1) as (H2 & Hp2).
  now rewrite concat_rev_perm, Hp2, Hp1.
Qed.

(** The sort leaves every neighbour in order. *)
Lemma ArrayTimSort_in_order (l : list A) : Sorted R (ArrayTimSort less l).
Proof.
  unfold ArrayTimSort. destruct (List.length l <? 2)%nat eqn:Hlen.
  { apply Nat.ltb_lt in Hlen. destruct l as [|x [|y l]];
      [constructor|repeat constructor|cbn in Hlen; lia]. }
  cbv zeta.
  set (st0 := {| pendingRuns := []; minGallop := kMinGallopWins |}).
  destruct (runs_loop_spec (ComputeMinRunLength (List.length l))
              (List.length l) l st0) as (H1 & Hp1); [lia|constructor|].
  set (st1 := runs_loop less (List.length l)
                (ComputeMinRunLength (List.length l)) l st0) in *.
  destruct (MergeForceCollapse_kept (List.length (pendingRuns st1)) _ H1)
    as (H2 & _).
  assert (Hone := MergeForceCollapse_one (List.length (pendingRuns st1)) st1
                    (Nat.le_succ_diag_r _)).
  destruct (pendingRuns (MergeForceCollapse less (List.length (pendingRuns st1))
              st1)) as [|r [|r' rs]].
  - constructor.
  - cbn. rewrite app_nil_r. now inversion H2.
  - cbn in Hone. lia.
Qed.

Lemma lor_land_le_1 (r n : nat) : (r <= 1)%nat -> (Nat.lor r (Nat.land n 1) <= 1)%nat.
Proof.
  intros Hr. change 1%nat with (Nat.ones 1) at 1. rewrite Nat.land_ones.
  assert (Hm : (n mod 2 ^ 1 < 2)%nat) by (apply Nat.mod_upper_bound; discriminate).
  destruct r as [|[|r]]; [| |lia];
    destruct (n mod 2 ^ 1)%nat as [|[|m]]; cbn; lia.
Qed.

Lemma ComputeMinRunLength_loop_le (fuel : nat) :
  forall n r, (r <= 1)%nat -> (1 <= n)%nat ->
              (ComputeMinRunLength_loop fuel n r <= n + r)%nat.
Proof.
  induction fuel as [|fuel IH]; intros n r Hr Hn; cbn [ComputeMinRunLength_loop];
    [lia|].
  destruct (64 <=? n)%nat eqn:Hbig; [|lia].
  apply Nat.leb_le in Hbig.
  assert (Hhalf : (1 <= n / 2 /\ n / 2 + 1 <= n)%nat).
  { assert (H := Nat.div_mod_eq n 2).
    assert (H' : (n mod 2 < 2)%nat) by (apply Nat.mod_upper_bound; discriminate).
    lia. }
  specialize (IH (n / 2)%nat _ (lor_land_le_1 r n Hr) (proj1 Hhalf)).
  assert (H1 := lor_land_le_1 r n Hr). lia.
Qed.

Lemma ComputeMinRunLength_le (n : nat) : (ComputeMinRunLength n <= n)%nat.
Proof.
  unfold ComputeMinRunLength. destruct n as [|n]; [reflexivity|].
  assert (H := ComputeMinRunLength_loop_le (S n) (S n) 0). lia.
Qed.

(** A list whose neighbours are in order is returned as it is: it is one
    run, and nothing is merged. *)
Lemma ArrayTimSort_fixes_in_order (l : list A) : Sorted R l -> ArrayTimSort less l = l.
Proof.
  intros Hs. unfold ArrayTimSort.
  destruct (List.length l <? 2)%nat eqn:Hlen; [reflexivity|].
  apply Nat.ltb_ge in Hlen. cbv zeta.
  destruct l as [|x l'] eqn:El; [cbn in Hlen; lia|].
  rewrite <- El in *.
  assert (Hloop :
    runs_loop less (List.length l) (ComputeMinRunLength (List.length l)) l
      {| pendingRuns := []; minGallop := kMinGallopWins |}
    = {| pendingRuns := [l]; minGallop := kMinGallopWins |}).
  { assert (Hmin := ComputeMinRunLength_le (List.length l)).
    apply Nat.ltb_ge in Hmin.
    remember (ComputeMinRunLength (List.length l)) as minRunLength.
    remember (List.length l) as n.
    destruct n as [|n]; [lia|].
    rewrite El at 1. cbn [runs_loop]. rewrite <- El.
    rewrite (CountAndMakeRun_in_order l Hs), <- Heqn, Hmin.
    cbn [pendingRuns minGallop List.length MergeCollapse].
    now destruct n. }
  rewrite Hloop. cbn. now rewrite app_nil_r.
Qed.

(** Sorting twice is sorting once. *)
Lemma ArrayTimSort_idempotent (l : list A) :
  ArrayTimSort less (ArrayTimSort less l) = ArrayTimSort less l.
Proof. apply ArrayTimSort_fixes_in_order, ArrayTimSort_in_order. Qed.

(** Under a transitive reading of the comparator the result is in order
    all through. *)
Lemma Sorted_in_impl (le : A -> A -> Prop) (l : list A) :
  (forall a b, In a l -> In b l -> R a b -> le a b) ->
  Sorted R l -> Sorted le l.
Proof.
  induction l as [|x l IH]; intros Hle Hs; [constructor|].
  inversion Hs as [|? ? Hs' Hhd]; subst. constructor.
  - apply IH; [|exact Hs']. intros a b Ha Hb. apply Hle; now right.
  - destruct Hhd as [|y l' Hxy]; constructor.
    apply Hle; [now left|right; now left|exact Hxy].
Qed.

Lemma ArrayTimSort_sorted_by (le : A -> A -> Prop) (l : list A) :
  (forall a b c, le a b -> le b c -> le a c) ->
  (forall a b, In a l -> In b l -> R a b -> le a b) ->
  StronglySorted le (ArrayTimSort less l).
Proof.
  intros Htrans Hle. apply Sorted_StronglySorted; [exact Htrans|].
  apply Sorted_in_impl; [|apply ArrayTimSort_in_order].
  intros a b Ha Hb. apply Hle.
  - now apply (Permutation_in _ (ArrayTimSort_perm l)).
  - now apply (Permutation_in _ (ArrayTimSort_perm l)).
Qed.
End SortFacts.


(** *** The fuel suffices

    Each loop is given at least as many turns as it can take: with any
    other such number of turns it returns the same. *)

Section Fuel.
Context {A : Type} (less : A -> A -> bool).

Lemma binary_search_fuel (goesRight : nat -> bool) :
  forall fuel fuel' left right,
    (right - left <= fuel)%nat -> (right - left <= fuel')%nat ->
    binary_search fuel goesRight left right
    = binary_search fuel' goesRight left right.
Proof.
  induction fuel as [|fuel IH]; intros [|fuel'] left right Hfuel Hfuel';
    cbn [binary_search]; try reflexivity;
    destruct (Nat.ltb_spec left right) as [Hlt|Hge];
    try reflexivity; try lia.
  assert (Hhalf : ((right - left) / 2 < right - left)%nat)
    by (apply Nat.div_lt; lia).
  destruct (goesRight _); apply IH; lia.
Qed.

Lemma gallop_fuel (goesOn : nat -> bool) (maxOfs : nat) :
  forall fuel fuel' lastOfs offset,
    (0 < offset)%nat ->
    (maxOfs - offset <= fuel)%nat -> (maxOfs - offset <= fuel')%nat ->
    gallop fuel goesOn maxOfs lastOfs offset
    = gallop fuel' goesOn maxOfs lastOfs offset.
Proof.
  induction fuel as [|fuel IH]; intros [|fuel'] lastOfs offset Hpos Hfuel Hfuel';
    cbn [gallop]; try reflexivity;
    destruct (Nat.ltb_spec offset maxOfs) as [Hlt|Hge];
    try reflexivity; try lia.
  destruct (goesOn offset); [|reflexivity]. apply IH; lia.
Qed.

Lemma skipn_cons_length (k : nat) (l rest : list A) (x : A) :
  skipn k l = x :: rest -> (S (List.length rest) <= List.length l)%nat.
Proof.
  intros E. apply (f_equal (@List.length A)) in E.
  rewrite length_skipn in E. cbn [List.length] in E. lia.
Qed.

Lemma MergeLow_loop_fuel :
  forall fuel fuel' phase minGallop dest a b,
    (List.length a + List.length b <= fuel)%nat ->
    (List.length a + List.length b <= fuel')%nat ->
    MergeLow_loop less fuel phase minGallop dest a b
    = MergeLow_loop less fuel' phase minGallop dest a b.
Proof.
  induction fuel as [|fuel IH];
    intros [|fuel'] phase minGallop dest a b Hfuel Hfuel';
    destruct a as [|a0 a']; try reflexivity;
    destruct b as [|b0 b']; try reflexivity;
    cbn [List.length] in Hfuel, Hfuel'; try lia.
  cbn [MergeLow_loop]. cbv zeta.
  repeat match goal with
         | |- (if ?c then _ else _) = (if ?c then _ else _) =>
             match type of c with bool => destruct c end
         | |- match ?l with [] => _ | _ :: _ => _ end
              = match ?l with [] => _ | _ :: _ => _ end =>
             destruct l eqn:?
         | |- match ?p with OneAtATime _ _ => _ | Galloping => _ end
              = match ?p with OneAtATime _ _ => _ | Galloping => _ end =>
             destruct p
         end;
    try reflexivity;
    repeat match goal with
           | H : skipn _ _ = _ :: _ |- _ => apply skipn_cons_length in H
           end;
    apply IH; cbn [List.length] in *; lia.
Qed.

Lemma unsnoc_length (l front : list A) (x : A) :
  unsnoc l = Some (front, x) -> List.length l = S (List.length front).
Proof.
  intros E. apply unsnoc_Some in E. subst l. rewrite length_app. cbn. lia.
Qed.

Lemma firstn_cons_length (k : nat) (l rest : list A) (x : A) :
  firstn k l = x :: rest -> (S (List.length rest) <= List.length l)%nat.
Proof.
  intros E. apply (f_equal (@List.length A)) in E.
  rewrite length_firstn in E. cbn [List.length] in E. lia.
Qed.

Lemma MergeHigh_loop_fuel :
  forall fuel fuel' phase minGallop a b dest,
    (List.length a + List.length b <= fuel)%nat ->
    (List.length a + List.length b <= fuel')%nat ->
    MergeHigh_loop less fuel phase minGallop a b dest
    = MergeHigh_loop less fuel' phase minGallop a b dest.
Proof.
  induction fuel as [|fuel IH];
    intros [|fuel'] phase minGallop a b dest Hfuel Hfuel';
    cbn [MergeHigh_loop];
    destruct (unsnoc a) as [[a' aLast]|] eqn:Ea; try reflexivity;
    destruct (unsnoc b) as [[b' bLast]|] eqn:Eb; try reflexivity;
    apply unsnoc_length in Ea; apply unsnoc_length in Eb; try lia.
  cbv zeta.
  repeat match goal with
         | |- (if ?c then _ else _) = (if ?c then _ else _) =>
             match type of c with bool => destruct c end
         | |- match ?l with [] => _ | _ :: _ => _ end
              = match ?l with [] => _ | _ :: _ => _ end =>
             destruct l eqn:?
         | |- match ?o with Some _ => _ | None => _ end
              = match ?o with Some _ => _ | None => _ end =>
             destruct o as [[? ?]|] eqn:?
         | |- match ?p with OneAtATime _ _ => _ | Galloping => _ end
              = match ?p with OneAtATime _ _ => _ | Galloping => _ end =>
             destruct p
         end;
    try reflexivity;
    repeat match goal with
           | H : firstn _ _ = _ :: _ |- _ => apply firstn_cons_length in H
           | H : unsnoc (firstn ?k ?l) = Some _ |- _ =>
               apply unsnoc_length in H; rewrite length_firstn in H
           | H : unsnoc _ = Some _ |- _ => apply unsnoc_length in H
           end;
    apply IH; cbn [List.length] in *; lia.
Qed.

Lemma MergeCollapse_fuel :
  forall fuel fuel' (st : SortState),
    (List.length (pendingRuns st) <= fuel)%nat ->
    (List.length (pendingRuns st) <= fuel')%nat ->
    MergeCollapse less fuel st = MergeCollapse less fuel' st.
Proof.
  induction fuel as [|fuel IH]; intros [|fuel'] st Hfuel Hfuel';
    cbn [MergeCollapse]; try reflexivity;
    destruct (pendingRuns st) as [|top [|second rest]] eqn:E;
    try reflexivity; cbn [List.length] in Hfuel, Hfuel'; try lia.
  assert (Htop : MergeCollapse less fuel (MergeAt_top less st)
                 = MergeCollapse less fuel' (MergeAt_top less st)).
  { apply IH; rewrite (MergeAt_top_length less st top second rest E); lia. }
  cbv zeta.
  destruct rest as [|third rest'].
  - cbn [negb orb]. now destruct (List.length second <=? List.length top)%nat.
  - assert (Hbelow : MergeCollapse less fuel (MergeAt_below less st)
                     = MergeCollapse less fuel' (MergeAt_below less st)).
    { apply IH;
        rewrite (MergeAt_below_length less st top second third rest' E);
        cbn [List.length] in *; lia. }
    repeat match goal with
           | |- (if ?c then _ else _) = (if ?c then _ else _) =>
               match type of c with bool => destruct c end
           end; solve [reflexivity|assumption].
Qed.

Lemma MergeForceCollapse_fuel :
  forall fuel fuel' (st : SortState),
    (List.length (pendingRuns st) <= fuel)%nat ->
    (List.length (pendingRuns st) <= fuel')%nat ->
    MergeForceCollapse less fuel st = MergeForceCollapse less fuel' st.
Proof.
  induction fuel as [|fuel IH]; intros [|fuel'] st Hfuel Hfuel';
    cbn [MergeForceCollapse]; try reflexivity;
    destruct (pendingRuns st) as [|top [|second rest]] eqn:E;
    try reflexivity; cbn [List.length] in Hfuel, Hfuel'; try lia.
  assert (Htop : MergeForceCollapse less fuel (MergeAt_top less st)
                 = MergeForceCollapse less fuel' (MergeAt_top less st)).
  { apply IH; rewrite (MergeAt_top_length less st top second rest E); lia. }
  destruct rest as [|third rest']; [exact Htop|].
  destruct (List.length third <? List.length top)%nat; [|exact Htop].
  apply IH; rewrite (MergeAt_below_length less st top second third rest' E);
    cbn [List.length] in *; lia.
Qed.

Lemma ComputeMinRunLength_loop_fuel :
  forall fuel fuel' n r,
    (n <= fuel)%nat -> (n <= fuel')%nat ->
    ComputeMinRunLength_loop fuel n r = ComputeMinRunLength_loop fuel' n r.
Proof.
  induction fuel as [|fuel IH]; intros [|fuel'] n r Hfuel Hfuel';
    cbn [ComputeMinRunLength_loop]; try reflexivity;
    destruct (Nat.leb_spec 64 n) as [Hbig|Hsmall];
    try reflexivity; try lia.
  assert (Hhalf : (n / 2 < n)%nat) by (apply Nat.div_lt; lia).
  apply IH; lia.
Qed.

Lemma CountAndMakeRun_length (l : list A) :
  l <> [] ->
  (1 <= List.length (fst (CountAndMakeRun less l)))%nat
  /\ (List.length (fst (CountAndMakeRun less l))
      + List.length (snd (CountAndMakeRun less l)) = List.length l)%nat.
Proof.
  intros Hne. destruct l as [|hi [|lo rest]]; [contradiction|cbn; lia|].
  unfold CountAndMakeRun. cbv zeta.
  set (n := run_rest less (less lo hi) lo rest).
  assert (Hn : (n <= List.length rest)%nat) by apply run_rest_le.
  cbn [fst snd].
  assert (Hlen : List.length (firstn (2 + n) (hi :: lo :: rest)) = (2 + n)%nat).
  { rewrite length_firstn. cbn [List.length]. lia. }
  rewrite length_skipn. cbn [List.length].
  destruct (less lo hi); rewrite ?length_rev, Hlen; lia.
Qed.

Lemma runs_loop_fuel (minRunLength : nat) :
  forall fuel fuel' (remaining : list A) (st : SortState),
    (List.length remaining <= fuel)%nat ->
    (List.length remaining <= fuel')%nat ->
    runs_loop less fuel minRunLength remaining st
    = runs_loop less fuel' minRunLength remaining st.
Proof.
  induction fuel as [|fuel IH]; intros [|fuel'] remaining st Hfuel Hfuel';
    destruct remaining as [|x remaining'] eqn:Erem; try reflexivity;
    cbn [List.length] in Hfuel, Hfuel'; try lia.
  cbn [runs_loop]. rewrite <- Erem.
  destruct (CountAndMakeRun_length remaining) as [Hone Hsum];
    [rewrite Erem; discriminate|].
  destruct (CountAndMakeRun less remaining) as [run rest]. cbn [fst snd] in *.
  assert (Hrem : List.length remaining = S (List.length remaining'))
    by now rewrite Erem.
  destruct (List.length run <? minRunLength)%nat.
  - apply IH; rewrite length_skipn; lia.
  - apply IH; lia.
Qed.
End Fuel.

(** *** [sort] with a comparator that returns a number *)

Lemma js_sort_perm {A : Type} (cmp : A -> A -> number) (l : list A) :
  sign_antisymmetric (below_zero cmp) -> Permutation (js_sort cmp l) l.
Proof. intros Hanti. now apply ArrayTimSort_perm. Qed.

Lemma js_sort_idempotent {A : Type} (cmp : A -> A -> number) (l : list A) :
  sign_antisymmetric (below_zero cmp) ->
  js_sort cmp (js_sort cmp l) = js_sort cmp l.
Proof. intros Hanti. now apply ArrayTimSort_idempotent. Qed.


Lemma js_sort_sorted_by {A : Type} (cmp : A -> A -> number)
  (le : A -> A -> Prop) (l : list A) :
  sign_antisymmetric (below_zero cmp) ->
  (forall a b c, le a b -> le b c -> le a c) ->
  (forall a b, In a l -> In b l -> number_is_neg (cmp b a) = false -> le a b) ->
  StronglySorted le (js_sort cmp l).
Proof. intros Hanti Htrans Hle. now apply ArrayTimSort_sorted_by. Qed.

Lemma number_sub_antisymmetric (x y : number) :
  number_is_neg (number_sub x y) = true ->
  number_is_neg (number_sub y x) = false.
Proof.
  destruct x as [a| | |], y as [b| | |]; try (cbn; congruence).
  unfold number_sub. rewrite !to_double_is_neg. intros H.
  apply Z.ltb_lt in H. apply Z.ltb_ge. lia.
Qed.

Lemma number_sub_abs_sym (x y : number) :
  number_abs (number_sub x y) = number_abs (number_sub y x).
Proof.
  destruct x as [a| | |], y as [b| | |]; try reflexivity.
  unfold number_sub. replace (b - a) with (- (a - b)) by lia.
  now rewrite to_double_opp, abs_opp.
Qed.

(** ** The store as a map *)

Lemma map_get_set_same {V : Type} (k : string) (v : V) (m : JsMap V) :
  map_get k (map_set k v m) = Some v.
Proof.
  induction m as [|[k' v'] m IH]; cbn.
  - now rewrite String.eqb_refl.
  - destruct (String.eqb k' k) eqn:E; cbn.
    + now rewrite String.eqb_refl.
    + now rewrite E.
Qed.

Lemma map_get_set_other {V : Type} (k k0 : string) (v : V) (m : JsMap V) :
  k0 <> k -> map_get k0 (map_set k v m) = map_get k0 m.
Proof.
  intros Hne. induction m as [|[k' v'] m IH]; cbn.
  - destruct (String.eqb k k0) eqn:E; [|reflexivity].
    apply String.eqb_eq in E. congruence.
  - destruct (String.eqb k' k) eqn:E; cbn.
    + apply String.eqb_eq in E. subst k'.
      destruct (String.eqb k k0) eqn:E0; [|reflexivity].
      apply String.eqb_eq in E0. congruence.
    + destruct (String.eqb k' k0); [reflexivity|exact IH].
Qed.

Lemma map_keys_set_present {V : Type} (k : string) (v v0 : V) (m : JsMap V) :
  map_get k m = Some v0 -> map_keys (map_set k v m) = map_keys m.
Proof.
  unfold map_keys. induction m as [|[k' v'] m IH]; simpl; [discriminate|].
  destruct (String.eqb k' k) eqn:E; simpl.
  - apply String.eqb_eq in E. now subst.
  - intros H. f_equal. now apply IH.
Qed.

(** ** File names *)

Example parseSequence_leading :
  parseSequenceFromFilename "01_lecture.m4a" = Some (Fin 1).
Proof. vm_compute. reflexivity. Qed.

Example parseSequence_trailing :
  parseSequenceFromFilename "session-02.wav" = Some (Fin 2).
Proof. vm_compute. reflexivity. Qed.

Example parseSequence_no_number :
  parseSequenceFromFilename "randomname.mp3" = None.
Proof. vm_compute. reflexivity. Qed.

Example parseSequence_part_after_space :
  parseSequenceFromFilename "lecture part2.mp3" = Some (Fin 2).
Proof. vm_compute. reflexivity. Qed.

Example parseSequence_bare :
  parseSequenceFromFilename "007" = Some (Fin 7).
Proof. vm_compute. reflexivity. Qed.

(** The order of the four attempts: a later pattern is consulted only when
    every earlier one has failed. *)
Lemma parseSequence_first_match (filename : string) :
  parseSequenceFromFilename filename =
    let base := base_of filename in
    match str_match base re_leading, str_match base re_part,
          str_match base re_trailing, str_match base re_bare with
    | Some g, _, _, _ => Some (parseInt (group 1 g))
    | None, Some g, _, _ => Some (parseInt (group 1 g))
    | None, None, Some g, _ => Some (parseInt (group 1 g))
    | None, None, None, Some g => Some (parseInt (group 1 g))
    | None, None, None, None => None
    end.
Proof.
  unfold parseSequenceFromFilename. cbv zeta.
  destruct (str_match _ re_leading); [reflexivity|].
  destruct (str_match _ re_part); [reflexivity|].
  destruct (str_match _ re_trailing); [reflexivity|].
  destruct (str_match _ re_bare); reflexivity.
Qed.

(** C2, at the file name where the code departs from it: in
    [lecture_part2.mp3] the word [part] follows an underscore, which is a
    word character, so [\b] does not hold before it; no other pattern
    applies and the result is [null], not 2. *)
Theorem parseSequence_part_after_underscore :
  str_match (base_of "lecture_part2.mp3") re_part = None
  /\ parseSequenceFromFilename "lecture_part2.mp3" = None.
Proof. split; vm_compute; reflexivity. Qed.

Example parseDate_separated :
  parseDateFromFilename utc_iso_runtime "2024-01-15_lecture.m4a"
  = parse_iso "2024-01-15T00:00:00.000Z".
Proof. vm_compute. reflexivity. Qed.

Example parseDate_compact :
  parseDateFromFilename utc_iso_runtime "20240115 bio notes.mp3"
  = parse_iso "2024-01-15T00:00:00.000Z".
Proof. vm_compute. reflexivity. Qed.

Example parseDate_compact_month_13 :
  parseDateFromFilename utc_iso_runtime "20241315 notes.mp3" = None.
Proof. vm_compute. reflexivity. Qed.

Example parseDate_none :
  parseDateFromFilename utc_iso_runtime "notes.mp3" = None.
Proof. vm_compute. reflexivity. Qed.

(** A month name with the day before or after it: both orders hand the
    same text to the date parser of the host. *)
Example parseDate_month_name_either_order (rt : Runtime) :
  parseDateFromFilename rt "Jan 15, 2024.ogg" = dateParse rt "january 15 2024"
  /\ parseDateFromFilename rt "15 Jan 2024.ogg" = dateParse rt "january 15 2024".
Proof.
  split; cbv -[dateParse]; destruct (dateParse rt _); reflexivity.
Qed.

(** The order of the three attempts. *)
Lemma parseDate_first_match (rt : Runtime) (filename : string) :
  parseDateFromFilename rt filename =
    let base := base_of filename in
    match try_ymd rt base, try_compact rt base with
    | Some d, _ => Some d
    | None, Some d => Some d
    | None, None =>
        month_loop rt (toLowerCase base) (combine monthNames monthFull)
    end.
Proof.
  unfold parseDateFromFilename. cbv zeta.
  destruct (try_ymd rt _); [reflexivity|].
  destruct (try_compact rt _); reflexivity.
Qed.

(** Day numbers of the years the patterns can name stay small. *)
Lemma days_from_civil_bounds (y m d : Z) :
  1999 <= y <= 10008 -> 1 <= m <= 12 -> 0 <= d <= 99 ->
  0 <= days_from_civil y m d <= 4000000.
Proof.
  intros Hy Hm Hd. unfold days_from_civil.
  set (y' := if m <=? 2 then y - 1 else y).
  assert (Hy' : 1998 <= y' <= 10008) by (subst y'; destruct (m <=? 2); lia).
  assert (H1 : 0 <= (m + 9) mod 12 < 12) by (apply Z.mod_pos_bound; lia).
  assert (H2 : 4 <= y' / 400 <= 25).
  { split; [apply Z.div_le_lower_bound; lia|].
    assert (y' / 400 < 26) by (apply Z.div_lt_upper_bound; lia). lia. }
  assert (Hyoe : 0 <= y' - y' / 400 * 400 < 400).
  { pose proof (Z.mod_pos_bound y' 400 ltac:(lia)) as Hb.
    rewrite Z.mod_eq in Hb by lia. lia. }
  set (yoe := y' - y' / 400 * 400) in *.
  assert (H3 : 0 <= yoe / 4 <= 100).
  { split; [apply Z.div_le_lower_bound; lia|apply Z.div_le_upper_bound; lia]. }
  assert (H4 : 0 <= yoe / 100 <= 4).
  { split; [apply Z.div_le_lower_bound; lia|apply Z.div_le_upper_bound; lia]. }
  assert (H5 : 0 <= (153 * ((m + 9) mod 12) + 2) / 5 <= 400).
  { split; [apply Z.div_le_lower_bound; lia|apply Z.div_le_upper_bound; lia]. }
  lia.
Qed.

(** A date built from numbers is never invalid when the offset of local
    time is at most a day: months and days out of range carry over. *)
Lemma new_Date_carries (rt : Runtime) (y m d : Z) :
  2000 < y <= 9999 -> -1 <= m <= 98 -> 0 <= d <= 99 ->
  Z.abs (localOffset rt (MakeDay y m d * msPerDay)) <= msPerDay ->
  new_Date rt (Fin y) (Fin m) (Fin d)
  = Some (MakeDay y m d * msPerDay - localOffset rt (MakeDay y m d * msPerDay)).
Proof.
  intros Hy Hm Hd Hoff. unfold new_Date.
  replace ((0 <=? y) && (y <=? 99)) with false
    by (symmetry; apply andb_false_iff; right; apply Z.leb_gt; lia).
  unfold TimeClip.
  set (t := MakeDay y m d * msPerDay) in *.
  assert (Ht : - msPerDay <= t <= 4000100 * msPerDay).
  { subst t. unfold MakeDay.
    assert (Hmod : 0 <= m mod 12 < 12) by (apply Z.mod_pos_bound; lia).
    assert (Hdiv : -1 <= m / 12 <= 8).
    { split; [apply Z.div_le_lower_bound; lia|].
      assert (m / 12 < 9) by (apply Z.div_lt_upper_bound; lia). lia. }
    pose proof (days_from_civil_bounds (y + m / 12) (m mod 12 + 1) 1
                  ltac:(lia) ltac:(lia) ltac:(lia)) as Hb.
    unfold msPerDay. lia. }
  destruct (Z.ltb_spec 8640000000000000 (Z.abs (t - localOffset rt t)));
    [|reflexivity].
  unfold msPerDay in *. lia.
Qed.

(** C1, at the file name where the code departs from it: in
    [2024-13-15.m4a] the separated numeric pattern matches with month 13;
    the date constructor carries the month into the next year, the date is
    valid, and it is returned (15 January 2025, local midnight) instead of
    being skipped. *)
Theorem parseDate_month_13_not_skipped (rt : Runtime) :
  Z.abs (localOffset rt 1736899200000) <= msPerDay ->
  parseDateFromFilename rt "2024-13-15.m4a"
  = Some (1736899200000 - localOffset rt 1736899200000).
Proof.
  intros Hoff. rewrite parseDate_first_match. cbv zeta.
  assert (Hymd : try_ymd rt (base_of "2024-13-15.m4a")
                 = new_Date rt (Fin 2024) (Fin 12) (Fin 15)).
  { unfold try_ymd.
    replace (str_match (base_of "2024-13-15.m4a") re_ymd)
      with (Some [list_ascii_of_string "2024"; list_ascii_of_string "13";
                  list_ascii_of_string "15"])
      by (vm_compute; reflexivity).
    replace (parseInt (group 1 _)) with (Fin 2024) by (vm_compute; reflexivity).
    replace (number_sub (parseInt (group 2 _)) (Fin 1)) with (Fin 12)
      by (vm_compute; reflexivity).
    replace (parseInt (group 3 _)) with (Fin 15) by (vm_compute; reflexivity).
    destruct (new_Date rt (Fin 2024) (Fin 12) (Fin 15)); reflexivity. }
  rewrite Hymd, new_Date_carries.
  - reflexivity.
  - lia.
  - lia.
  - lia.
  - exact Hoff.
Qed.

Lemma parseDate_month_13_not_skipped_witness :
  Z.abs (localOffset utc_iso_runtime 1736899200000) <= msPerDay
  /\ parseDateFromFilename utc_iso_runtime "2024-13-15.m4a" = Some 1736899200000.
Proof.
  split.
  - unfold msPerDay. simpl. lia.
  - apply (parseDate_month_13_not_skipped utc_iso_runtime).
    unfold msPerDay. simpl. lia.
Defined.
(** ** Recording time *)

(** C7, refuted as stated: for a name without a date and a path that
    storage does not hold, [fs.statSync] throws and no date is returned. *)
Lemma getRecordedAt_missing_file_throws :
  parseDateFromFilename utc_iso_runtime "notes.mp3" = None
  /\ getRecordedAt utc_iso_runtime (fun _ => None)
       "/tmp/crammer-uploads/notes.mp3" "notes.mp3"
     = Throws "ENOENT: no such file or directory, stat '/tmp/crammer-uploads/notes.mp3'".
Proof. split; vm_compute; reflexivity. Qed.

(** C7, amended: the date of the name wins whenever there is one, whether
    or not the file exists; without one, the result is the modification
    time of the file whenever storage holds the file. *)
Theorem getRecordedAt_name_then_mtime (rt : Runtime) (fs : FileSystem)
  (filePath originalName : string) :
  (forall d, parseDateFromFilename rt originalName = Some d ->
             getRecordedAt rt fs filePath originalName = Returns d)
  /\ (forall mtime, parseDateFromFilename rt originalName = None ->
                    fs filePath = Some mtime ->
                    getRecordedAt rt fs filePath originalName = Returns mtime).
Proof.
  unfold getRecordedAt, statSync_mtime. split.
  - intros d ->. reflexivity.
  - intros mtime -> ->. reflexivity.
Qed.

Lemma getRecordedAt_name_then_mtime_witness :
  getRecordedAt utc_iso_runtime (fun _ => Some 1700000000000)
    "/tmp/crammer-uploads/a.m4a" "2024-01-15_lecture.m4a"
  = Returns 1705276800000
  /\ getRecordedAt utc_iso_runtime (fun _ => Some 1700000000000)
       "/tmp/crammer-uploads/b.mp3" "notes.mp3"
     = Returns 1700000000000.
Proof.
  split.
  - apply (proj1 (getRecordedAt_name_then_mtime utc_iso_runtime
                    (fun _ => Some 1700000000000)
                    "/tmp/crammer-uploads/a.m4a" "2024-01-15_lecture.m4a")).
    vm_compute. reflexivity.
  - apply (proj2 (getRecordedAt_name_then_mtime utc_iso_runtime
                    (fun _ => Some 1700000000000)
                    "/tmp/crammer-uploads/b.mp3" "notes.mp3")).
    + vm_compute. reflexivity.
    + reflexivity.
Defined.

(** ** Store updates *)

(** C9: [updateAudioFile] merges the named fields over the record with
    the given key and touches nothing else; without such a record the store
    is left as it is. *)
Theorem updateAudioFile_shallow_merge (id : string)
  (updates : AudioFile.partial) (s : StoreData) :
  match getAudioFile id s with
  | Some existing =>
      let s' := updateAudioFile id updates s in
      let merged := AudioFile.spread existing updates in
      getAudioFile id s' = Some merged
      /\ AudioFile.id merged
         = match AudioFile.id' updates with Some v => v | None => AudioFile.id existing end
      /\ AudioFile.originalName merged
         = match AudioFile.originalName' updates with
           | Some v => v | None => AudioFile.originalName existing end
      /\ AudioFile.savedPath merged
         = match AudioFile.savedPath' updates with
           | Some v => v | None => AudioFile.savedPath existing end
      /\ AudioFile.mimeType merged
         = match AudioFile.mimeType' updates with
           | Some v => v | None => AudioFile.mimeType existing end
      /\ AudioFile.size merged
         = match AudioFile.size' updates with
           | Some v => v | None => AudioFile.size existing end
      /\ AudioFile.recordedAt merged
         = match AudioFile.recordedAt' updates with
           | Some v => v | None => AudioFile.recordedAt existing end
      /\ AudioFile.uploadedAt merged
         = match AudioFile.uploadedAt' updates with
           | Some v => v | None => AudioFile.uploadedAt existing end
      /\ AudioFile.status merged
         = match AudioFile.status' updates with
           | Some v => v | None => AudioFile.status existing end
      /\ AudioFile.errorMessage merged
         = match AudioFile.errorMessage' updates with
           | Some v => v | None => AudioFile.errorMessage existing end
      /\ (forall other, other <> id -> getAudioFile other s' = getAudioFile other s)
      /\ map_keys (audioFiles s') = map_keys (audioFiles s)
      /\ transcriptions s' = transcriptions s
      /\ lectures s' = lectures s
      /\ podcastScripts s' = podcastScripts s
      /\ status s' = status s
  | None => updateAudioFile id updates s = s
  end.
Proof.
  unfold getAudioFile, updateAudioFile.
  destruct (map_get id (audioFiles s)) as [existing|] eqn:Hget; [|reflexivity].
  cbv zeta. cbn [with_audioFiles audioFiles transcriptions lectures
                 podcastScripts status].
  repeat split.
  - apply map_get_set_same.
  - intros other Hne. now apply map_get_set_other.
  - eapply map_keys_set_present. exact Hget.
Qed.

(** ** Lectures in order of their number *)

Lemma double_is_neg_Real (q : Q) : double_is_neg (Real q) = true <-> (q < 0)%Q.
Proof.
  unfold double_is_neg. rewrite Qlt_alt.
  destruct (q ?= 0)%Q; split; congruence.
Qed.

Lemma lecture_less_antisymmetric : sign_antisymmetric lecture_less.
Proof.
  intros a b. unfold lecture_less, compareLectureNumber.
  destruct (Lecture.lectureNumber a) as [p| | |],
           (Lecture.lectureNumber b) as [q| | |];
    try (cbn; congruence).
  cbn [double_sub]. intros H. apply double_is_neg_Real in H.
  destruct (double_is_neg (Real (q - p))) eqn:H'; [|reflexivity].
  apply double_is_neg_Real in H'. lra.
Qed.

Lemma double_le_trans (x y z : double) :
  double_le x y -> double_le y z -> double_le x z.
Proof.
  destruct x as [p| | |], y as [q| | |], z as [r| | |]; cbn; try tauto.
  apply Qle_trans.
Qed.

Lemma lecture_in_order_le (a b : Lecture.t) :
  Lecture.lectureNumber a <> NotNumber ->
  Lecture.lectureNumber b <> NotNumber ->
  in_order lecture_less a b ->
  double_le (Lecture.lectureNumber a) (Lecture.lectureNumber b).
Proof.
  unfold in_order, lecture_less, compareLectureNumber.
  destruct (Lecture.lectureNumber a) as [p| | |],
           (Lecture.lectureNumber b) as [q| | |];
    cbn [double_sub double_le]; intros Ha Hb H;
    try congruence; try exact I; try discriminate H.
  destruct (Qlt_le_dec q p) as [Hlt|Hle]; [|exact Hle].
  assert (Hneg : double_is_neg (Real (q - p)) = true).
  { apply double_is_neg_Real. lra. }
  congruence.
Qed.

(** C10, amended: [getAllLectures] returns exactly the stored lectures;
    when every stored lecture has a number, they come in ascending order
    of [lectureNumber]: the number of each lecture is at most that of every
    lecture after it, however the store holds them. *)
Theorem getAllLectures_sorted (s : StoreData) :
  Permutation (getAllLectures s) (map_values (lectures s))
  /\ ((forall l, In l (map_values (lectures s)) ->
                 Lecture.lectureNumber l <> NotNumber) ->
      StronglySorted
        (fun a b => double_le (Lecture.lectureNumber a) (Lecture.lectureNumber b))
        (getAllLectures s)).
Proof.
  unfold getAllLectures. split.
  - apply ArrayTimSort_perm, lecture_less_antisymmetric.
  - intros Hnum. apply ArrayTimSort_sorted_by.
    + apply lecture_less_antisymmetric.
    + intros a b c. apply double_le_trans.
    + intros a b Ha Hb. apply lecture_in_order_le; now apply Hnum.
Qed.

(** Lectures stored with the numbers 3, 1 and 2 come out as 1, 2, 3. *)
Lemma getAllLectures_sorted_witness :
  map Lecture.lectureNumber (getAllLectures numbered_store)
  = [Real 1; Real 2; Real 3]
  /\ StronglySorted
       (fun a b => double_le (Lecture.lectureNumber a) (Lecture.lectureNumber b))
       (getAllLectures numbered_store).
Proof.
  split; [vm_compute; reflexivity|].
  apply (proj2 (getAllLectures_sorted numbered_store)).
  intros l [<-|[<-|[<-|[]]]]; discriminate.
Defined.

(** C10, refuted as stated: a lecture whose number is missing compares as
    equal to every other, so the lectures stored with the numbers 2, none
    and 1 are one run for the sort and come out as they are stored, 2
    before 1. *)
Lemma lecture_without_number_breaks_order :
  map Lecture.lectureNumber (map_values (lectures unnumbered_store))
  = [Real 2; NotNumber; Real 1]
  /\ map Lecture.lectureNumber (getAllLectures unnumbered_store)
     = [Real 2; NotNumber; Real 1].
Proof. split; vm_compute; reflexivity. Qed.

(** ** The chronological order *)

Lemma compareRecordings_antisymmetric (rt : Runtime) :
  sign_antisymmetric (below_zero (compareRecordings rt)).
Proof.
  intros a b. unfold below_zero, compareRecordings. cbv zeta.
  rewrite (number_sub_abs_sym (getTime rt (AudioFile.recordedAt b))).
  destruct (number_ltb _ CLOSE_THRESHOLD_MS);
    [destruct (parseSequenceFromFilename (AudioFile.originalName a)),
              (parseSequenceFromFilename (AudioFile.originalName b))|];
    apply number_sub_antisymmetric.
Qed.

(** C8: [order] is idempotent: for every list of recordings, ordering the
    output of [order] gives that output again. *)
Theorem order_idempotent (rt : Runtime) (recordings : list AudioFile.t) :
  order rt (order rt recordings) = order rt recordings.
Proof.
  unfold order. apply js_sort_idempotent, compareRecordings_antisymmetric.
Qed.

(** The comparator is not transitive.  Of three recordings four minutes
    apart and numbered 3, 2 and 1, each comes after the next by its
    number, while the first comes before the last by its time.  Given by
    ascending time they are one descending run for the sort, which returns
    them reversed; sorted again they stay. *)
Example order_of_a_cycle :
  let f0 := sample_file "x" "03_intro.m4a" "2024-01-15T10:00:00.000Z"
              transcribed in
  let f1 := sample_file "y" "02_intro.m4a" "2024-01-15T10:04:00.000Z"
              transcribed in
  let f2 := sample_file "z" "01_intro.m4a" "2024-01-15T10:08:00.000Z"
              transcribed in
  order utc_iso_runtime [f0; f1; f2] = [f2; f1; f0]
  /\ order utc_iso_runtime [f2; f1; f0] = [f2; f1; f0]
  /\ order utc_iso_runtime [f1; f0; f2] = [f1; f0; f2].
Proof. repeat split; vm_compute; reflexivity. Qed.



Lemma compareRecordings_by_time (rt : Runtime) (a b : AudioFile.t) (ta tb : Z) :
  dateParse rt (AudioFile.recordedAt a) = Some ta ->
  dateParse rt (AudioFile.recordedAt b) = Some tb ->
  300000 <= Z.abs (ta - tb)
  \/ parseSequenceFromFilename (AudioFile.originalName a) = None
  \/ parseSequenceFromFilename (AudioFile.originalName b) = None ->
  compareRecordings rt a b = number_sub (Fin ta) (Fin tb).
Proof.
  intros Ha Hb Hcase. unfold compareRecordings, getTime. cbv zeta.
  rewrite Ha, Hb. unfold number_sub at 1, CLOSE_THRESHOLD_MS.
  rewrite abs_to_double_ltb by (cbv; discriminate).
  destruct (Z.ltb_spec (Z.abs (ta - tb)) (5 * 60 * 1000)) as [Hlt|Hge];
    [|reflexivity].
  destruct Hcase as [Hfar|[Hn|Hn]]; [lia| |]; rewrite Hn; [reflexivity|].
  destruct (parseSequenceFromFilename (AudioFile.originalName a)); reflexivity.
Qed.



(** ** Handlers *)

Lemma last_cons_default {A : Type} (x d : A) (l : list A) :
  last (x :: l) d = last l x.
Proof.
  revert x d. induction l as [|y l IH]; intros x d; [reflexivity|].
  change (last (x :: y :: l) d) with (last (y :: l) d).
  rewrite IH. symmetry. apply IH.
Qed.

Lemma stepwise_app (R : StoreData -> StoreData -> Prop) (s : StoreData)
  (t1 t2 : list StoreData) :
  stepwise R s t1 -> stepwise R (last t1 s) t2 -> stepwise R s (t1 ++ t2).
Proof.
  revert s. induction t1 as [|s1 t1 IH]; intros s H1 H2.
  - exact H2.
  - destruct H1 as [H H1]. split; [exact H|].
    apply IH; [exact H1|]. now rewrite last_cons_default in H2.
Qed.

Lemma last_app_default {A : Type} (d : A) (t1 t2 : list A) :
  last (t1 ++ t2) d = last t2 (last t1 d).
Proof.
  revert d. induction t1 as [|x t1 IH]; intros d; [reflexivity|].
  change ((x :: t1) ++ t2)%list with (x :: (t1 ++ t2))%list.
  now rewrite !last_cons_default, IH.
Qed.

Lemma run_ok_ret {A : Type} R (a : A) s (Q : A -> StoreData -> Prop) :
  Q a s -> run_ok R (ret a) s Q.
Proof. intros H. repeat split; assumption. Qed.

Lemma run_ok_read {A : Type} R (f : StoreData -> A) s
  (Q : A -> StoreData -> Prop) :
  Q (f s) s -> run_ok R (read f) s Q.
Proof. intros H. repeat split; assumption. Qed.

Lemma run_ok_write R (f : StoreData -> StoreData) s
  (Q : unit -> StoreData -> Prop) :
  R s (f s) -> Q tt (f s) -> run_ok R (write f) s Q.
Proof. intros HR H. repeat split; assumption. Qed.

Lemma run_ok_bind {A B : Type} R (m : Handler A) (f : A -> Handler B) s
  (Q1 : A -> StoreData -> Prop) (Q : B -> StoreData -> Prop) :
  run_ok R m s Q1 ->
  (forall a s1, Q1 a s1 -> run_ok R (f a) s1 Q) ->
  run_ok R (bind m f) s Q.
Proof.
  intros (Hs & Hl & Hq) Hf. unfold run_ok, bind, writes_of, final_store, result_of in *.
  destruct (m s) as [[a s1] t1]. simpl in *.
  specialize (Hf a s1 Hq). destruct (f a s1) as [[b s2] t2]. simpl in *.
  destruct Hf as (Hs2 & Hl2 & Hq2). subst s1.
  repeat split.
  - apply stepwise_app; assumption.
  - rewrite last_app_default. exact Hl2.
  - exact Hq2.
Qed.

Lemma run_ok_weaken {A : Type} R (m : Handler A) s
  (Q Q' : A -> StoreData -> Prop) :
  run_ok R m s Q -> (forall a s', Q a s' -> Q' a s') -> run_ok R m s Q'.
Proof. intros (Hs & Hl & Hq) H. repeat split; auto. Qed.

Lemma run_ok_bind_read {A B : Type} R (f : StoreData -> A)
  (k : A -> Handler B) s (Q : B -> StoreData -> Prop) :
  run_ok R (k (f s)) s Q -> run_ok R (bind (read f) k) s Q.
Proof.
  intros H. eapply run_ok_bind with (Q1 := fun a s1 => a = f s /\ s1 = s).
  - now apply run_ok_read.
  - now intros a s1 [-> ->].
Qed.

Lemma run_ok_bind_write {B : Type} R (g : StoreData -> StoreData)
  (k : unit -> Handler B) s (Q : B -> StoreData -> Prop) :
  R s (g s) -> run_ok R (k tt) (g s) Q -> run_ok R (bind (write g) k) s Q.
Proof.
  intros HR H. eapply run_ok_bind with (Q1 := fun _ s1 => s1 = g s).
  - now apply run_ok_write.
  - now intros [] s1 ->.
Qed.

(** *** Writes that leave the recordings alone, and status updates *)

Lemma moves_forward_refl (a : FileStatus) : moves_forward a a.
Proof. now left. Qed.

Lemma statuses_forward_same_files (s s' : StoreData) :
  audioFiles s' = audioFiles s -> statuses_forward s s'.
Proof.
  intros Heq id f Hget. exists f. split; [|apply moves_forward_refl].
  unfold getAudioFile in *. now rewrite Heq.
Qed.

Lemma statuses_forward_update (id : string) (updates : AudioFile.partial)
  (s : StoreData) (f0 : AudioFile.t) :
  getAudioFile id s = Some f0 ->
  moves_forward (AudioFile.status f0)
                (AudioFile.status (AudioFile.spread f0 updates)) ->
  statuses_forward s (updateAudioFile id updates s).
Proof.
  intros Hget Hmove other f Hother.
  unfold getAudioFile, updateAudioFile in *. rewrite Hget. simpl.
  destruct (String.eqb_spec other id) as [->|Hne].
  - rewrite map_get_set_same. eexists; split; [reflexivity|].
    rewrite Hget in Hother. now injection Hother as <-.
  - rewrite map_get_set_other by exact Hne.
    exists f. split; [exact Hother|apply moves_forward_refl].
Qed.

Lemma getAudioFile_update_same (id : string) (updates : AudioFile.partial)
  (s : StoreData) (f0 : AudioFile.t) :
  getAudioFile id s = Some f0 ->
  getAudioFile id (updateAudioFile id updates s)
  = Some (AudioFile.spread f0 updates).
Proof.
  intros Hget. unfold getAudioFile, updateAudioFile in *. rewrite Hget. simpl.
  apply map_get_set_same.
Qed.

Lemma getAudioFile_update_other (id other : string)
  (updates : AudioFile.partial) (s : StoreData) :
  other <> id ->
  getAudioFile other (updateAudioFile id updates s) = getAudioFile other s.
Proof.
  intros Hne. unfold getAudioFile, updateAudioFile.
  destruct (map_get id (audioFiles s)); [|reflexivity]. simpl.
  now apply map_get_set_other.
Qed.

Lemma map_get_in {V : Type} (k : string) (v : V) (m : JsMap V) :
  map_get k m = Some v -> In (k, v) m.
Proof.
  induction m as [|[k' v'] m IH]; simpl; [discriminate|].
  destruct (String.eqb_spec k' k) as [->|Hne].
  - intros [= ->]. now left.
  - intros H. right. now apply IH.
Qed.

Lemma Forall_map_set {V : Type} (P : string * V -> Prop) (k : string) (v : V)
  (m : JsMap V) :
  Forall P m -> P (k, v) -> Forall P (map_set k v m).
Proof.
  intros Hm Hv. induction Hm as [|[k' v'] m Hkv Hm IH]; simpl.
  - now constructor.
  - destruct (String.eqb k' k); constructor; assumption.
Qed.

Lemma well_keyed_same_files (s s' : StoreData) :
  audioFiles s' = audioFiles s -> well_keyed s -> well_keyed s'.
Proof. unfold well_keyed. now intros ->. Qed.

Lemma well_keyed_update (id : string) (updates : AudioFile.partial)
  (s : StoreData) :
  AudioFile.id' updates = None ->
  well_keyed s -> well_keyed (updateAudioFile id updates s).
Proof.
  intros Hid [Hnd Hkey]. unfold updateAudioFile.
  destruct (map_get id (audioFiles s)) as [f0|] eqn:Hget; [|now split].
  split; simpl.
  - now rewrite (map_keys_set_present id _ f0).
  - apply Forall_map_set; [exact Hkey|]. simpl. rewrite Hid. simpl.
    apply map_get_in in Hget.
    rewrite Forall_forall in Hkey. exact (Hkey _ Hget).
Qed.

Lemma well_keyed_lookup (s : StoreData) (f : AudioFile.t) :
  well_keyed s -> In f (getAllAudioFiles s) ->
  getAudioFile (AudioFile.id f) s = Some f.
Proof.
  unfold well_keyed, getAllAudioFiles, getAudioFile, map_values, map_keys.
  generalize (audioFiles s) as m. intros m [Hnd Hkey].
  induction m as [|[k v] m IH]; simpl; [contradiction|].
  inversion Hnd as [|? ? Hnotin Hnd']; subst.
  inversion Hkey as [|? ? Hk Hkey']; subst. simpl in *.
  intros [->|Hin].
  - subst k. now rewrite String.eqb_refl.
  - destruct (String.eqb_spec k (AudioFile.id f)) as [Heq|Hne];
      [|now apply IH].
    exfalso. apply Hnotin. rewrite Heq.
    apply in_map_iff in Hin as [[k' v'] [Hv Hin]]. simpl in Hv. subst v'.
    rewrite Forall_forall in Hkey'. specialize (Hkey' _ Hin). simpl in Hkey'.
    subst k'. apply in_map_iff. now exists (AudioFile.id f, f).
Qed.

Lemma well_keyed_ids (s : StoreData) :
  well_keyed s -> NoDup (map AudioFile.id (getAllAudioFiles s)).
Proof.
  unfold well_keyed, getAllAudioFiles, map_values, map_keys.
  intros [Hnd Hkey]. rewrite map_map.
  erewrite map_ext_in; [exact Hnd|].
  intros kv Hin. rewrite Forall_forall in Hkey. symmetry. now apply Hkey.
Qed.

Lemma NoDup_map_filter {A B : Type} (g : A -> B) (p : A -> bool) (l : list A) :
  NoDup (map g l) -> NoDup (map g (filter p l)).
Proof.
  induction l as [|x l IH]; simpl; [trivial|].
  intros Hnd. inversion Hnd as [|? ? Hnotin Hnd']; subst.
  destruct (p x); simpl; [|now apply IH].
  constructor; [|now apply IH].
  intros Hin. apply Hnotin. apply in_map_iff in Hin as [y [Hy Hin]].
  apply filter_In in Hin as [Hin _]. apply in_map_iff. now exists y.
Qed.

(** Every store that the application builds is well keyed: the empty store
    is, and adding a recording keeps it so. *)
Lemma well_keyed_createStore : well_keyed createStore.
Proof. split; simpl; constructor. Qed.

Lemma map_keys_set_absent {V : Type} (k : string) (v : V) (m : JsMap V) :
  map_get k m = None ->
  map_keys (map_set k v m) = (map_keys m ++ [k])%list /\ ~ In k (map_keys m).
Proof.
  unfold map_keys. induction m as [|[k' v'] m IH]; simpl.
  - intros _. split; [reflexivity|tauto].
  - destruct (String.eqb_spec k' k) as [->|Hne]; [discriminate|].
    intros Hget. destruct (IH Hget) as [Hkeys Hnotin]. simpl.
    split; [now rewrite Hkeys|]. intros [Heq|Hin]; [congruence|tauto].
Qed.

Lemma well_keyed_addAudioFile (file : AudioFile.t) (s : StoreData) :
  well_keyed s -> well_keyed (addAudioFile file s).
Proof.
  intros [Hnd Hkey]. unfold addAudioFile. split; simpl.
  - destruct (map_get (AudioFile.id file) (audioFiles s)) as [f0|] eqn:Hget.
    + now rewrite (map_keys_set_present _ _ f0).
    + destruct (map_keys_set_absent (AudioFile.id file) file _ Hget)
        as [-> Hnotin].
      apply NoDup_app; [exact Hnd|repeat constructor; intros []|].
      intros x Hin [<-|[]]. now apply Hnotin.
  - now apply Forall_map_set.
Qed.

Lemma getAudioFile_same_files (id : string) (s s' : StoreData) :
  audioFiles s' = audioFiles s -> getAudioFile id s' = getAudioFile id s.
Proof. unfold getAudioFile. now intros ->. Qed.

(** One turn of the transcription loop on a recording that is [uploaded]:
    every write moves forward, and no other recording is touched. *)
Lemma transcribe_one_ok (svc : SpeechService) (file : AudioFile.t)
  (s : StoreData) (f0 : AudioFile.t) :
  well_keyed s ->
  getAudioFile (AudioFile.id file) s = Some f0 ->
  AudioFile.status f0 = uploaded ->
  run_ok statuses_forward (transcribe_one svc file) s
    (fun _ s' =>
       well_keyed s'
       /\ forall other, other <> AudioFile.id file ->
                        getAudioFile other s' = getAudioFile other s).
Proof.
  intros Hwk Hget Hst.
  set (id := AudioFile.id file) in *.
  set (s1 := updateAudioFile id (set_status transcribing) s).
  assert (Hget1 : getAudioFile id s1
                  = Some (AudioFile.spread f0 (set_status transcribing)))
    by now apply getAudioFile_update_same.
  assert (Hwk1 : well_keyed s1) by now apply well_keyed_update.
  assert (Hstep1 : statuses_forward s s1).
  { apply (statuses_forward_update id _ s f0 Hget).
    simpl. rewrite Hst. now right. }
  assert (Hframe1 : forall other, other <> id ->
                      getAudioFile other s1 = getAudioFile other s)
    by (intros; now apply getAudioFile_update_other).
  unfold transcribe_one. fold id. fold s1.
  unfold run_ok, bind, write, read, ret, writes_of, final_store, result_of.
  destruct (transcribeAudioFile svc _ id _) as [transcription|message]; simpl;
    fold s1.
  - set (s2 := addTranscription transcription s1).
    set (s3 := updateAudioFile id (set_status transcribed) s2).
    assert (Hget2 : getAudioFile id s2
                    = Some (AudioFile.spread f0 (set_status transcribing)))
      by (rewrite <- Hget1; now apply getAudioFile_same_files).
    repeat split.
    + exact Hstep1.
    + now apply statuses_forward_same_files.
    + apply (statuses_forward_update id _ s2 _ Hget2). now right.
    + now apply statuses_forward_same_files.
    + apply (well_keyed_same_files s3); [reflexivity|].
      apply well_keyed_update; [reflexivity|].
      now apply (well_keyed_same_files s1).
    + apply (well_keyed_same_files s3); [reflexivity|].
      apply well_keyed_update; [reflexivity|].
      now apply (well_keyed_same_files s1).
    + intros other Hne.
      rewrite (getAudioFile_same_files other s3) by reflexivity.
      unfold s3. rewrite getAudioFile_update_other by exact Hne.
      rewrite (getAudioFile_same_files other s1) by reflexivity.
      now apply Hframe1.
  - set (s2 := updateAudioFile id (set_error message) s1).
    repeat split.
    + exact Hstep1.
    + apply (statuses_forward_update id _ s1 _ Hget1). now right.
    + now apply statuses_forward_same_files.
    + apply (well_keyed_same_files s2); [reflexivity|].
      now apply well_keyed_update.
    + apply (well_keyed_same_files s2); [reflexivity|].
      now apply well_keyed_update.
    + intros other Hne.
      rewrite (getAudioFile_same_files other s2) by reflexivity.
      unfold s2. rewrite getAudioFile_update_other by exact Hne.
      now apply Hframe1.
Qed.

(** The loop over recordings that are [uploaded] and pairwise distinct. *)
Lemma transcribe_loop_ok (svc : SpeechService) (files : list AudioFile.t) :
  forall (results : list TranscribeResult) (s : StoreData),
    well_keyed s ->
    NoDup (map AudioFile.id files) ->
    (forall f, In f files ->
       exists f0, getAudioFile (AudioFile.id f) s = Some f0
                  /\ AudioFile.status f0 = uploaded) ->
    run_ok statuses_forward (transcribe_loop svc files results) s
      (fun _ s' => well_keyed s').
Proof.
  induction files as [|file rest IH]; intros results s Hwk Hnd Hup; simpl.
  - now apply run_ok_ret.
  - inversion Hnd as [|? ? Hnotin Hnd']; subst.
    destruct (Hup file (or_introl eq_refl)) as (f0 & Hget & Hst).
    eapply run_ok_bind; [now apply (transcribe_one_ok svc file s f0)|].
    intros r s1 [Hwk1 Hframe]. apply IH; [exact Hwk1|exact Hnd'|].
    intros f Hin. rewrite Hframe; [now apply Hup; right|].
    intros Heq. apply Hnotin. rewrite <- Heq. now apply in_map.
Qed.

(** *** What a transcription request selects *)

Lemma select_files_sub (fileIds : FileIds) (files toTranscribe : list AudioFile.t)
  (f : AudioFile.t) :
  select_files fileIds files = Returns toTranscribe ->
  In f toTranscribe -> In f files.
Proof.
  destruct fileIds as [|ids|text|message]; simpl.
  - intros [= <-] Hin. now apply filter_In in Hin.
  - intros [= <-] Hin. now apply filter_In in Hin.
  - destruct (String.eqb text ""); intros [= <-] Hin;
      now apply filter_In in Hin.
  - destruct files; [|discriminate]. now intros [= <-].
Qed.

Lemma select_files_NoDup (fileIds : FileIds) (files toTranscribe : list AudioFile.t) :
  NoDup (map AudioFile.id files) ->
  select_files fileIds files = Returns toTranscribe ->
  NoDup (map AudioFile.id toTranscribe).
Proof.
  intros Hnd. destruct fileIds as [|ids|text|message]; simpl.
  - intros [= <-]. now apply NoDup_map_filter.
  - intros [= <-]. now apply NoDup_map_filter.
  - destruct (String.eqb text ""); intros [= <-]; now apply NoDup_map_filter.
  - destruct files; [|discriminate]. intros [= <-]. constructor.
Qed.

Lemma selected_sub (body : TranscribeBody) (s : StoreData) (f : AudioFile.t) :
  In f (selected body s) -> In f (getAllAudioFiles s).
Proof.
  destruct body as [message|fileIds]; simpl; [contradiction|].
  destruct (select_files fileIds (getAllAudioFiles s)) as [l|message] eqn:E;
    [|contradiction].
  now apply (select_files_sub fileIds).
Qed.

Lemma selected_NoDup (body : TranscribeBody) (s : StoreData) :
  well_keyed s -> NoDup (map AudioFile.id (selected body s)).
Proof.
  intros Hwk. destruct body as [message|fileIds]; simpl; [constructor|].
  destruct (select_files fileIds (getAllAudioFiles s)) as [l|message] eqn:E;
    [|constructor].
  apply (select_files_NoDup fileIds (getAllAudioFiles s)); [|exact E].
  now apply well_keyed_ids.
Qed.

Lemma transcribe_failure_selected (body : TranscribeBody) (s : StoreData)
  (message : string) :
  transcribe_failure body s = Some message -> selected body s = [].
Proof.
  destruct body as [m|fileIds]; simpl; [reflexivity|].
  now destruct (select_files fileIds (getAllAudioFiles s)).
Qed.

Lemma bind_read {A B : Type} (f : StoreData -> A) (k : A -> Handler B)
  (s : StoreData) :
  bind (read f) k s = k (f s) s.
Proof.
  unfold bind, read. now destruct (k (f s) s) as [[b s2] t2].
Qed.

(** The request by cases: it fails before it has selected, or it goes on
    with what it has selected. *)
Lemma POST_transcribe_cases (svc : SpeechService) (body : TranscribeBody)
  (s : StoreData) :
  POST_transcribe svc body s
  = match transcribe_failure body s with
    | Some message => transcribe_failed message s
    | None => transcribe_files svc (selected body s) s
    end.
Proof.
  destruct body as [message|fileIds]; simpl; [reflexivity|].
  rewrite bind_read.
  now destruct (select_files fileIds (getAllAudioFiles s)).
Qed.

Lemma run_ok_ext {A : Type} R (m m' : Handler A) s
  (Q : A -> StoreData -> Prop) :
  m s = m' s -> run_ok R m' s Q -> run_ok R m s Q.
Proof. unfold run_ok. now intros ->. Qed.

Lemma transcribe_failed_ok (message : string) (s : StoreData) :
  well_keyed s ->
  run_ok statuses_forward (transcribe_failed message) s
    (fun _ s' => well_keyed s').
Proof.
  intros Hwk. unfold transcribe_failed.
  apply run_ok_bind_write; [now apply statuses_forward_same_files|].
  apply run_ok_ret. now apply (well_keyed_same_files s).
Qed.

(** A transcription request that selects only recordings in status
    [uploaded] moves every status forward, write after write. *)
Lemma transcribe_files_ok (svc : SpeechService) (files : list AudioFile.t)
  (s : StoreData) :
  well_keyed s ->
  NoDup (map AudioFile.id files) ->
  (forall f, In f files -> In f (getAllAudioFiles s)) ->
  Forall (fun f => AudioFile.status f = uploaded) files ->
  run_ok statuses_forward (transcribe_files svc files) s
    (fun _ s' => well_keyed s').
Proof.
  intros Hwk Hnd Hsub Hsel. unfold transcribe_files.
  destruct files as [|f rest] eqn:Hfiles.
  - now apply run_ok_ret.
  - rewrite <- Hfiles in *.
    apply run_ok_bind_write; [now apply statuses_forward_same_files|].
    set (s1 := updateStatus (set_phase phase_transcribing) s).
    assert (Hwk1 : well_keyed s1) by now apply (well_keyed_same_files s).
    eapply run_ok_bind.
    { apply transcribe_loop_ok; [exact Hwk1|exact Hnd|].
      intros f' Hin. exists f'. split.
      - rewrite (getAudioFile_same_files _ s) by reflexivity.
        apply well_keyed_lookup; [exact Hwk|now apply Hsub].
      - rewrite Forall_forall in Hsel. now apply Hsel. }
    intros results s2 Hwk2. apply run_ok_bind_read.
    eapply run_ok_bind with (Q1 := fun _ s4 => well_keyed s4).
    { destruct (forallb is_done (getAllAudioFiles s2)).
      - apply run_ok_write; [now apply statuses_forward_same_files|].
        now apply (well_keyed_same_files s2).
      - now apply run_ok_ret. }
    intros _ s4 Hwk4. now apply run_ok_ret.
Qed.

Lemma POST_transcribe_ok (svc : SpeechService) (body : TranscribeBody)
  (s : StoreData) :
  well_keyed s ->
  selects_uploaded body s ->
  run_ok statuses_forward (POST_transcribe svc body) s
    (fun _ s' => well_keyed s').
Proof.
  intros Hwk Hsel.
  destruct (transcribe_failure body s) as [message|] eqn:Hfail.
  - apply (run_ok_ext _ _ (transcribe_failed message)).
    + now rewrite POST_transcribe_cases, Hfail.
    + now apply transcribe_failed_ok.
  - apply (run_ok_ext _ _ (transcribe_files svc (selected body s))).
    + now rewrite POST_transcribe_cases, Hfail.
    + apply transcribe_files_ok; [exact Hwk|now apply selected_NoDup| |exact Hsel].
      intros f. apply selected_sub.
Qed.

Lemma stepwise_mono (R R' : StoreData -> StoreData -> Prop) :
  (forall s s', R s s' -> R' s s') ->
  forall t s, stepwise R s t -> stepwise R' s t.
Proof.
  intros Hsub. induction t as [|s1 t IH]; intros s; simpl; [trivial|].
  intros [H Ht]. split; [now apply Hsub|now apply IH].
Qed.

Lemma run_ok_mono {A : Type} (R R' : StoreData -> StoreData -> Prop)
  (m : Handler A) s (Q : A -> StoreData -> Prop) :
  (forall s s', R s s' -> R' s s') -> run_ok R m s Q -> run_ok R' m s Q.
Proof.
  intros Hsub (Hs & Hl & Hq). repeat split; try assumption.
  now apply (stepwise_mono R R').
Qed.

Lemma run_ok_final {A : Type} R (m : Handler A) s (Q : A -> StoreData -> Prop) :
  run_ok R m s Q ->
  run_ok R m s (fun a s' => Q a s' /\ s' = final_store (m s)).
Proof. intros (Hs & Hl & Hq). repeat split; assumption. Qed.

(** The grouping request never writes to the recordings. *)
Lemma rebuild_keeps_files (h : Host) (sorted : list AudioFile.t)
  (groups : list GroupValue) :
  forall (saved : list Lecture.t) (s : StoreData),
    run_ok (fun s s' => audioFiles s' = audioFiles s)
      (rebuild h sorted groups saved) s
      (fun _ s' => audioFiles s' = audioFiles s).
Proof.
  induction groups as [|[group|message] rest IH]; intros saved s; simpl.
  - now apply run_ok_ret.
  - apply run_ok_bind_read. apply run_ok_bind_write; [reflexivity|].
    eapply run_ok_weaken; [apply IH|]. intros _ s' ->. reflexivity.
  - now apply run_ok_ret.
Qed.

Lemma process_failed_keeps_files (message : string) (s : StoreData) :
  run_ok (fun s s' => audioFiles s' = audioFiles s) (process_failed message) s
    (fun _ s' => audioFiles s' = audioFiles s).
Proof.
  unfold process_failed. apply run_ok_bind_write; [reflexivity|].
  now apply run_ok_ret.
Qed.

Lemma POST_process_keeps_files (h : Host) (inferLectures : GroupingService)
  (s : StoreData) :
  run_ok (fun s s' => audioFiles s' = audioFiles s)
    (POST_process h inferLectures) s
    (fun _ s' => audioFiles s' = audioFiles s).
Proof.
  unfold POST_process. apply run_ok_bind_write; [reflexivity|].
  set (s1 := updateStatus (set_phase phase_processing) s).
  apply run_ok_bind_read.
  destruct (filter is_transcribed (getAllAudioFiles s1)) as [|f files];
    [now apply run_ok_ret|].
  apply run_ok_bind_read.
  destruct (inferLectures _) as [[gs|message]|message].
  - apply run_ok_bind_write; [reflexivity|].
    eapply run_ok_bind; [apply rebuild_keeps_files|].
    intros [saved|message] s3 Hs3; simpl in Hs3.
    + apply run_ok_bind_write; [reflexivity|]. now apply run_ok_ret.
    + eapply run_ok_weaken; [apply process_failed_keeps_files|].
      intros _ s' ->. exact Hs3.
  - apply run_ok_bind_write; [reflexivity|].
    eapply run_ok_weaken; [apply process_failed_keeps_files|].
    intros _ s' ->. reflexivity.
  - eapply run_ok_weaken; [apply process_failed_keeps_files|].
    intros _ s' ->. reflexivity.
Qed.

Lemma final_store_bind {A B : Type} (m : Handler A) (f : A -> Handler B)
  (s : StoreData) :
  final_store (bind m f s)
  = final_store (f (result_of (m s)) (final_store (m s))).
Proof.
  unfold bind, final_store, result_of.
  destruct (m s) as [[a s1] t1]. simpl.
  destruct (f a s1) as [[b s2] t2]. reflexivity.
Qed.

Lemma result_of_bind {A B : Type} (m : Handler A) (f : A -> Handler B)
  (s : StoreData) :
  result_of (bind m f s)
  = result_of (f (result_of (m s)) (final_store (m s))).
Proof.
  unfold bind, final_store, result_of.
  destruct (m s) as [[a s1] t1]. simpl.
  destruct (f a s1) as [[b s2] t2]. reflexivity.
Qed.

(** ** The phase after a transcription batch *)

Lemma transcribe_files_final (svc : SpeechService)
  (files : list AudioFile.t) (s : StoreData) :
  let l := transcribe_loop svc files []
             (updateStatus (set_phase phase_transcribing) s) in
  match files with
  | [] => transcribe_files svc files s = (NoFilesToTranscribe, s, [])
  | _ :: _ =>
      result_of (transcribe_files svc files s) = Transcribed (result_of l)
      /\ final_store (transcribe_files svc files s)
         = if forallb is_done (getAllAudioFiles (final_store l))
           then updateStatus (set_phase phase_processing) (final_store l)
           else final_store l
  end.
Proof.
  cbv zeta. unfold transcribe_files.
  destruct files as [|f files]; [reflexivity|].
  rewrite !result_of_bind, !final_store_bind.
  set (l := transcribe_loop svc (f :: files) [] _).
  change (result_of (read (fun s0 => forallb is_done (getAllAudioFiles s0))
                          (final_store l)))
    with (forallb is_done (getAllAudioFiles (final_store l))).
  change (final_store (read (fun s0 => forallb is_done (getAllAudioFiles s0))
                            (final_store l)))
    with (final_store l).
  destruct (forallb is_done (getAllAudioFiles (final_store l)));
    split; reflexivity.
Qed.

(** A request that has selected a recording goes through the loop. *)
Lemma POST_transcribe_final (svc : SpeechService) (body : TranscribeBody)
  (s : StoreData) :
  selected body s <> [] ->
  let l := transcribe_loop svc (selected body s) []
             (updateStatus (set_phase phase_transcribing) s) in
  result_of (POST_transcribe svc body s) = Transcribed (result_of l)
  /\ final_store (POST_transcribe svc body s)
     = if forallb is_done (getAllAudioFiles (final_store l))
       then updateStatus (set_phase phase_processing) (final_store l)
       else final_store l.
Proof.
  intros Hsel. cbv zeta. rewrite POST_transcribe_cases.
  destruct (transcribe_failure body s) as [message|] eqn:Hfail.
  - now rewrite (transcribe_failure_selected body s message Hfail) in Hsel.
  - pose proof (transcribe_files_final svc (selected body s) s) as H.
    cbv zeta in H. now destruct (selected body s).
Qed.

(** C6: when a transcription request has selected at least one recording
    and leaves every recording of the store [transcribed] or [error], it
    leaves the phase at [processing]. *)
Theorem batch_done_sets_processing (svc : SpeechService)
  (body : TranscribeBody) (s : StoreData) :
  selected body s <> [] ->
  forallb is_done
    (getAllAudioFiles (final_store (POST_transcribe svc body s))) = true ->
  ProcessingStatus.phase (status (final_store (POST_transcribe svc body s)))
  = phase_processing.
Proof.
  intros Hsel.
  destruct (POST_transcribe_final svc body s Hsel) as [_ ->].
  set (s2 := final_store (transcribe_loop svc (selected body s) [] _)).
  destruct (forallb is_done (getAllAudioFiles s2)) eqn:Hdone.
  - intros _. reflexivity.
  - intros H. rewrite H in Hdone. discriminate.
Qed.

Lemma batch_done_sets_processing_witness :
  ProcessingStatus.phase
    (status (final_store
               (POST_transcribe sample_speech (Body NoFileIds) fresh_store)))
  = phase_processing.
Proof.
  apply (batch_done_sets_processing sample_speech (Body NoFileIds) fresh_store).
  - simpl. discriminate.
  - vm_compute. reflexivity.
Defined.

(** ** Failure of the grouping request *)

(** C5, refuted as stated: an answer that parses but has no [lectures]
    array makes the loop throw after the lectures have been cleared; an
    answer whose second group is malformed leaves one rebuilt lecture. *)
Lemma malformed_answer_loses_lectures :
  (result_of (POST_process sample_host
                (fun _ => Returns (NotIterable "lectureGroups is not iterable"))
                sample_store)
   = ProcessFailed "lectureGroups is not iterable"
   /\ map_keys (lectures sample_store) = ["lecture-1"]
   /\ lectures (final_store
                  (POST_process sample_host
                     (fun _ => Returns (NotIterable "lectureGroups is not iterable"))
                     sample_store)) = [])
  /\ (result_of (POST_process sample_host
                   (fun _ => Returns (Groups [WellFormed sample_group;
                                              NoAudioFileIds "x.map is not a function"]))
                   sample_store)
      = ProcessFailed "x.map is not a function"
      /\ map_keys (lectures (final_store
                   (POST_process sample_host
                      (fun _ => Returns (Groups [WellFormed sample_group;
                                                 NoAudioFileIds "x.map is not a function"]))
                      sample_store))) = ["lecture-2"]).
Proof. repeat split; vm_compute; reflexivity. Qed.

(** C5, amended: when [inferLectures] itself throws, the request writes
    the status twice and nothing else: the store it leaves differs from
    the store it found only in the phase, which is [error], and in the
    error message, which is the message thrown. *)
Theorem grouping_failure_keeps_lectures (h : Host)
  (inferLectures : GroupingService) (s : StoreData) (message : string) :
  filter is_transcribed (getAllAudioFiles s) <> [] ->
  inferLectures (process_inputs h s) = Throws message ->
  result_of (POST_process h inferLectures s) = ProcessFailed message
  /\ Forall (fun w => lectures w = lectures s
                      /\ audioFiles w = audioFiles s
                      /\ transcriptions w = transcriptions s
                      /\ podcastScripts w = podcastScripts s)
            (writes_of (POST_process h inferLectures s))
  /\ final_store (POST_process h inferLectures s)
     = with_status
         {| ProcessingStatus.totalFiles :=
              ProcessingStatus.totalFiles (status s);
            ProcessingStatus.transcribedFiles :=
              ProcessingStatus.transcribedFiles (status s);
            ProcessingStatus.lecturesGenerated :=
              ProcessingStatus.lecturesGenerated (status s);
            ProcessingStatus.phase := phase_error;
            ProcessingStatus.errorMessage := Some message |} s.
Proof.
  intros Hsome Hthrows.
  unfold POST_process, bind, read, write, ret, result_of, writes_of, final_store.
  unfold process_inputs in Hthrows.
  change (getAllAudioFiles (updateStatus (set_phase phase_processing) s))
    with (getAllAudioFiles s).
  destruct (filter is_transcribed (getAllAudioFiles s)) as [|f files];
    [contradiction|].
  change (map (input_of (updateStatus (set_phase phase_processing) s)))
    with (map (input_of s)).
  rewrite Hthrows. unfold process_failed, bind, write, ret.
  cbn [fst snd app]. repeat split; repeat constructor.
Qed.

Lemma grouping_failure_keeps_lectures_witness :
  lectures (final_store
              (POST_process sample_host
                 (fun _ => Throws "ANTHROPIC_API_KEY is not set") sample_store))
  = lectures sample_store
  /\ ProcessingStatus.phase
       (status (final_store
                  (POST_process sample_host
                     (fun _ => Throws "ANTHROPIC_API_KEY is not set")
                     sample_store)))
     = phase_error.
Proof.
  destruct (grouping_failure_keeps_lectures sample_host
              (fun _ => Throws "ANTHROPIC_API_KEY is not set") sample_store
              "ANTHROPIC_API_KEY is not set") as (_ & _ & Hfinal).
  - simpl. discriminate.
  - reflexivity.
  - rewrite Hfinal. split; reflexivity.
Defined.

(** * Further properties *)

(** ** The store *)

Lemma map_values_set_absent {V : Type} (k : string) (v : V) (m : JsMap V) :
  map_get k m = None -> map_values (map_set k v m) = (map_values m ++ [v])%list.
Proof.
  unfold map_values. induction m as [|[k' v'] m IH]; simpl; [reflexivity|].
  destruct (String.eqb k' k); [discriminate|].
  intros Hget. simpl. now rewrite IH.
Qed.

Lemma map_values_set_length {V : Type} (k : string) (v v0 : V) (m : JsMap V) :
  map_get k m = Some v0 ->
  List.length (map_values (map_set k v m)) = List.length (map_values m).
Proof.
  unfold map_values. induction m as [|[k' v'] m IH]; simpl; [discriminate|].
  destruct (String.eqb k' k); simpl; [reflexivity|].
  intros Hget. now rewrite IH.
Qed.

(** X1: a recording that has been added is found under its id, every other
    id reads as before, and the list of recordings grows by this one
    recording at its end, or keeps its length when the id was there. *)
Theorem addAudioFile_then_get (file : AudioFile.t) (s : StoreData) :
  getAudioFile (AudioFile.id file) (addAudioFile file s) = Some file
  /\ (forall other, other <> AudioFile.id file ->
        getAudioFile other (addAudioFile file s) = getAudioFile other s)
  /\ match getAudioFile (AudioFile.id file) s with
     | None => getAllAudioFiles (addAudioFile file s)
               = (getAllAudioFiles s ++ [file])%list
     | Some _ => List.length (getAllAudioFiles (addAudioFile file s))
                 = List.length (getAllAudioFiles s)
                 /\ map_keys (audioFiles (addAudioFile file s))
                    = map_keys (audioFiles s)
     end.
Proof.
  unfold getAudioFile, addAudioFile, getAllAudioFiles. simpl.
  split; [apply map_get_set_same|].
  split; [intros other Hne; now apply map_get_set_other|].
  destruct (map_get (AudioFile.id file) (audioFiles s)) as [f0|] eqn:Hget.
  - split; [now apply (map_values_set_length _ _ f0)
           |now apply (map_keys_set_present _ _ f0)].
  - now apply map_values_set_absent.
Qed.

Lemma store_of_snoc (files : list AudioFile.t) (f : AudioFile.t) :
  store_of (files ++ [f]) = addAudioFile f (store_of files).
Proof. unfold store_of. now rewrite fold_left_app. Qed.

Lemma fold_addAudioFile_other (id : string) (post : list AudioFile.t) :
  forall s,
    ~ In id (map AudioFile.id post) ->
    getAudioFile id (fold_left (fun s f => addAudioFile f s) post s)
    = getAudioFile id s.
Proof.
  induction post as [|g post IH]; intros s Hnot; simpl; [reflexivity|].
  rewrite IH by (intros H; apply Hnot; now right).
  unfold getAudioFile, addAudioFile. simpl.
  apply map_get_set_other. intros E. apply Hnot. left. now symmetry.
Qed.

(** X2: however many recordings are added to a new store, and whatever
    their ids, the store holds one entry per id, each under the id of its
    record, and lists no id twice; under an id that was given more than
    once it holds the recording that was added last. *)
Theorem store_of_well_keyed (files : list AudioFile.t) :
  well_keyed (store_of files)
  /\ NoDup (map AudioFile.id (getAllAudioFiles (store_of files)))
  /\ (forall f, In f (getAllAudioFiles (store_of files)) ->
                getAudioFile (AudioFile.id f) (store_of files) = Some f)
  /\ (forall pre f post,
        files = (pre ++ f :: post)%list ->
        ~ In (AudioFile.id f) (map AudioFile.id post) ->
        getAudioFile (AudioFile.id f) (store_of files) = Some f).
Proof.
  assert (Hwk : well_keyed (store_of files)).
  { induction files as [|f files IH] using rev_ind.
    - apply well_keyed_createStore.
    - rewrite store_of_snoc. now apply well_keyed_addAudioFile. }
  split; [exact Hwk|]. split; [now apply well_keyed_ids|].
  split; [intros f Hin; now apply well_keyed_lookup|].
  intros pre f post -> Hnot. unfold store_of.
  rewrite fold_left_app. simpl.
  rewrite fold_addAudioFile_other by exact Hnot.
  unfold getAudioFile, addAudioFile. simpl. apply map_get_set_same.
Qed.

(** X3: a script added under a new id joins the end of the scripts of its
    lecture, and the scripts of every other lecture are as before. *)
Theorem addPodcastScript_appends (script : PodcastScript.t) (s : StoreData) :
  getPodcastScript (PodcastScript.id script) s = None ->
  getPodcastScriptsForLecture (PodcastScript.lectureId script)
    (addPodcastScript script s)
  = (getPodcastScriptsForLecture (PodcastScript.lectureId script) s
     ++ [script])%list
  /\ forall other, other <> PodcastScript.lectureId script ->
       getPodcastScriptsForLecture other (addPodcastScript script s)
       = getPodcastScriptsForLecture other s.
Proof.
  intros Hnew. unfold getPodcastScriptsForLecture, addPodcastScript. simpl.
  rewrite map_values_set_absent by exact Hnew.
  split.
  - rewrite filter_app. simpl. now rewrite String.eqb_refl.
  - intros other Hne. rewrite filter_app. simpl.
    destruct (String.eqb_spec (PodcastScript.lectureId script) other);
      [congruence|apply app_nil_r].
Qed.

Lemma addPodcastScript_appends_witness :
  getPodcastScriptsForLecture "lecture-1"
    (addPodcastScript
       {| PodcastScript.id := "s1"; PodcastScript.lectureId := "lecture-1";
          PodcastScript.format := qa; PodcastScript.title := "T";
          PodcastScript.description := "D"; PodcastScript.script := "S";
          PodcastScript.generatedAt := "2024-01-16T08:00:00.000Z" |}
       sample_store)
  = [{| PodcastScript.id := "s1"; PodcastScript.lectureId := "lecture-1";
        PodcastScript.format := qa; PodcastScript.title := "T";
        PodcastScript.description := "D"; PodcastScript.script := "S";
        PodcastScript.generatedAt := "2024-01-16T08:00:00.000Z" |}].
Proof.
  exact (proj1 (addPodcastScript_appends
                  {| PodcastScript.id := "s1";
                     PodcastScript.lectureId := "lecture-1";
                     PodcastScript.format := qa; PodcastScript.title := "T";
                     PodcastScript.description := "D";
                     PodcastScript.script := "S";
                     PodcastScript.generatedAt := "2024-01-16T08:00:00.000Z" |}
                  sample_store eq_refl)).
Defined.

(** ** The chronological order, further *)

(** X4: [order] returns the recordings it was given, each as often as it
    came in: none is lost and none is added. *)
Theorem order_permutation (rt : Runtime) (recordings : list AudioFile.t) :
  Permutation (order rt recordings) recordings.
Proof. apply js_sort_perm, compareRecordings_antisymmetric. Qed.

Lemma AudioFile_eq_dec (a b : AudioFile.t) : {a = b} + {a <> b}.
Proof.
  decide equality; try apply string_dec; try apply Z.eq_dec.
  - decide equality. apply string_dec.
  - decide equality.
Qed.

(** X5: when every recording has a valid time and any two different
    recordings are five minutes or more apart or do not both carry a
    sequence number, [order] returns them by ascending time. *)
Theorem order_by_time (rt : Runtime) (recordings : list AudioFile.t) :
  (forall f, In f recordings ->
             dateParse rt (AudioFile.recordedAt f) <> None) ->
  (forall a b, In a recordings -> In b recordings -> a <> b ->
     300000 <= Z.abs (time_of rt a - time_of rt b)
     \/ parseSequenceFromFilename (AudioFile.originalName a) = None
     \/ parseSequenceFromFilename (AudioFile.originalName b) = None) ->
  StronglySorted (fun a b => time_of rt a <= time_of rt b)
                 (order rt recordings).
Proof.
  intros Hvalid Hfar. unfold order.
  apply js_sort_sorted_by; [apply compareRecordings_antisymmetric|lia|].
  intros a b Ha Hb.
  destruct (AudioFile_eq_dec a b) as [->|Hne]; [lia|].
  pose proof (Hvalid a Ha) as Hta. pose proof (Hvalid b Hb) as Htb.
  assert (Hfar' := Hfar b a Hb Ha (not_eq_sym Hne)). unfold time_of in *.
  destruct (dateParse rt (AudioFile.recordedAt a)) as [ta|] eqn:Ea; [|congruence].
  destruct (dateParse rt (AudioFile.recordedAt b)) as [tb|] eqn:Eb; [|congruence].
  rewrite (compareRecordings_by_time rt b a tb ta Eb Ea Hfar').
  unfold number_sub. rewrite to_double_is_neg. intros H.
  apply Z.ltb_ge in H. lia.
Qed.

Lemma order_by_time_witness :
  StronglySorted
    (fun a b => time_of utc_iso_runtime a <= time_of utc_iso_runtime b)
    (order utc_iso_runtime
       [sample_file "y" "01_intro.m4a" "2024-01-15T10:10:00.000Z" transcribed;
        sample_file "x" "02_intro.m4a" "2024-01-15T10:00:00.000Z" transcribed]).
Proof.
  apply order_by_time.
  - intros f [<-|[<-|[]]]; vm_compute; discriminate.
  - intros a b [<-|[<-|[]]] [<-|[<-|[]]] Hne;
      try (exfalso; apply Hne; reflexivity);
      left; vm_compute; discriminate.
Defined.

(** ** The transcription request, further *)

Lemma map_keys_update (id : string) (updates : AudioFile.partial)
  (s : StoreData) :
  map_keys (audioFiles (updateAudioFile id updates s)) = map_keys (audioFiles s).
Proof.
  unfold updateAudioFile.
  destruct (map_get id (audioFiles s)) as [f0|] eqn:Hget; [|reflexivity].
  simpl. now apply (map_keys_set_present _ _ f0).
Qed.

Lemma getAudioFile_update (id : string) (updates : AudioFile.partial)
  (s : StoreData) :
  getAudioFile id (updateAudioFile id updates s)
  = option_map (fun f => AudioFile.spread f updates) (getAudioFile id s).
Proof.
  unfold getAudioFile, updateAudioFile.
  destruct (map_get id (audioFiles s)) as [f0|] eqn:Hget; simpl.
  - apply map_get_set_same.
  - exact Hget.
Qed.

(** What one turn of the loop leaves, read off its final store. *)
Lemma transcribe_one_final (svc : SpeechService) (file : AudioFile.t)
  (s : StoreData) :
  let r := transcribe_one svc file s in
  let id := AudioFile.id file in
  (* the recording of the turn *)
  (getAudioFile id (final_store r)
   = option_map
       (fun f0 =>
          match svc (AudioFile.savedPath file) (AudioFile.mimeType file) with
          | Returns _ =>
              AudioFile.spread (AudioFile.spread f0 (set_status transcribing))
                               (set_status transcribed)
          | Throws message =>
              AudioFile.spread (AudioFile.spread f0 (set_status transcribing))
                               (set_error message)
          end) (getAudioFile id s))
  (* its transcript *)
  /\ getTranscription id (final_store r)
     = match svc (AudioFile.savedPath file) (AudioFile.mimeType file) with
       | Returns res =>
           Some {| Transcription.audioFileId := id;
                   Transcription.text := sr_text res;
                   Transcription.words := sr_words res;
                   Transcription.confidence := sr_confidence res;
                   Transcription.duration := sr_duration res;
                   Transcription.paragraphs := sr_paragraphs res |}
       | Throws _ => getTranscription id s
       end
  (* everything else *)
  /\ (forall other, other <> id ->
        getAudioFile other (final_store r) = getAudioFile other s
        /\ getTranscription other (final_store r) = getTranscription other s)
  /\ map_keys (audioFiles (final_store r)) = map_keys (audioFiles s)
  /\ (forall k, In k (map_keys (transcriptions (final_store r))) ->
                k = id \/ In k (map_keys (transcriptions s)))
  /\ lectures (final_store r) = lectures s
  /\ podcastScripts (final_store r) = podcastScripts s
  (* the counter *)
  /\ ProcessingStatus.transcribedFiles (status (final_store r))
     = Z.of_nat (List.length
                   (filter is_transcribed (getAllAudioFiles (final_store r))))
  (* the entry of the answer *)
  /\ result_id (result_of r) = id
  /\ result_status (result_of r)
     = match svc (AudioFile.savedPath file) (AudioFile.mimeType file) with
       | Returns _ => transcribed
       | Throws _ => error
       end.
Proof.
  cbv zeta. unfold transcribe_one, transcribeAudioFile.
  set (id := AudioFile.id file).
  set (s1 := updateAudioFile id (set_status transcribing) s).
  destruct (svc (AudioFile.savedPath file) (AudioFile.mimeType file))
    as [res|message];
    unfold bind, write, read, ret, final_store, result_of; simpl; fold s1.
  - set (t := {| Transcription.audioFileId := id |}).
    set (s2 := addTranscription t s1).
    set (s3 := updateAudioFile id (set_status transcribed) s2).
    repeat split.
    + rewrite (getAudioFile_same_files id s3) by reflexivity.
      unfold s3. rewrite getAudioFile_update.
      rewrite (getAudioFile_same_files id s1 s2) by reflexivity.
      unfold s1. rewrite getAudioFile_update.
      now destruct (getAudioFile id s).
    + unfold getTranscription. simpl.
      replace (transcriptions s3) with (transcriptions s2)
        by (unfold s3, updateAudioFile; now destruct (map_get id (audioFiles s2))).
      simpl. apply map_get_set_same.
    + rewrite (getAudioFile_same_files other s3) by reflexivity.
      unfold s3. rewrite getAudioFile_update_other by assumption.
      rewrite (getAudioFile_same_files other s1 s2) by reflexivity.
      unfold s1. now rewrite getAudioFile_update_other.
    + unfold getTranscription. simpl.
      replace (transcriptions s3) with (transcriptions s2)
        by (unfold s3, updateAudioFile; now destruct (map_get id (audioFiles s2))).
      simpl. rewrite map_get_set_other by assumption.
      unfold s1, updateAudioFile. now destruct (map_get id (audioFiles s)).
    + simpl. unfold s3. rewrite map_keys_update. simpl.
      unfold s1. now rewrite map_keys_update.
    + simpl. intros k.
      replace (transcriptions s3) with (transcriptions s2)
        by (unfold s3, updateAudioFile; now destruct (map_get id (audioFiles s2))).
      simpl.
      replace (transcriptions s1) with (transcriptions s)
        by (unfold s1, updateAudioFile; now destruct (map_get id (audioFiles s))).
      generalize (transcriptions s) as m. intros m.
      induction m as [|[k' v'] m IH]; simpl.
      * intros [<-|[]]. now left.
      * destruct (String.eqb_spec k' id) as [->|Hne]; simpl.
        -- intros [<-|Hin]; [now left|right; now right].
        -- intros [<-|Hin]; [right; now left|].
           destruct (IH Hin) as [->|Hin']; [now left|right; now right].
    + simpl. unfold s3, updateAudioFile.
      destruct (map_get id (audioFiles s2)); simpl;
        unfold s1, updateAudioFile; now destruct (map_get id (audioFiles s)).
    + simpl. unfold s3, updateAudioFile.
      destruct (map_get id (audioFiles s2)); simpl;
        unfold s1, updateAudioFile; now destruct (map_get id (audioFiles s)).
  - set (s2 := updateAudioFile id (set_error message) s1).
    repeat split.
    + rewrite (getAudioFile_same_files id s2) by reflexivity.
      unfold s2. rewrite getAudioFile_update.
      unfold s1. rewrite getAudioFile_update.
      now destruct (getAudioFile id s).
    + unfold getTranscription. simpl. unfold s2, s1, updateAudioFile.
      destruct (map_get id (audioFiles s)) eqn:E; simpl.
      * rewrite map_get_set_same. reflexivity.
      * rewrite E. reflexivity.
    + rewrite (getAudioFile_same_files other s2) by reflexivity.
      unfold s2. rewrite getAudioFile_update_other by assumption.
      unfold s1. now rewrite getAudioFile_update_other.
    + unfold getTranscription. simpl. unfold s2, s1, updateAudioFile.
      destruct (map_get id (audioFiles s)) eqn:E; simpl.
      * rewrite map_get_set_same. reflexivity.
      * rewrite E. reflexivity.
    + simpl. unfold s2. rewrite map_keys_update. unfold s1.
      now rewrite map_keys_update.
    + simpl. intros k Hin. right. revert Hin. unfold s2, s1, updateAudioFile.
      destruct (map_get id (audioFiles s)) eqn:E; simpl.
      * rewrite map_get_set_same. simpl. trivial.
      * rewrite E. trivial.
    + simpl. unfold s2, s1, updateAudioFile.
      destruct (map_get id (audioFiles s)) eqn:E; simpl.
      * rewrite map_get_set_same. reflexivity.
      * rewrite E. reflexivity.
    + simpl. unfold s2, s1, updateAudioFile.
      destruct (map_get id (audioFiles s)) eqn:E; simpl.
      * rewrite map_get_set_same. reflexivity.
      * rewrite E. reflexivity.
Qed.

(** What the loop leaves when the recordings it runs over have different
    ids. *)
Lemma transcribe_loop_final (svc : SpeechService) (files : list AudioFile.t) :
  forall (results : list TranscribeResult) (s : StoreData),
    let r := transcribe_loop svc files results s in
    (NoDup (map AudioFile.id files) ->
     forall f, In f files ->
       getAudioFile (AudioFile.id f) (final_store r)
       = option_map
           (fun f0 =>
              match svc (AudioFile.savedPath f) (AudioFile.mimeType f) with
              | Returns _ =>
                  AudioFile.spread
                    (AudioFile.spread f0 (set_status transcribing))
                    (set_status transcribed)
              | Throws message =>
                  AudioFile.spread
                    (AudioFile.spread f0 (set_status transcribing))
                    (set_error message)
              end) (getAudioFile (AudioFile.id f) s)
       /\ getTranscription (AudioFile.id f) (final_store r)
          = match svc (AudioFile.savedPath f) (AudioFile.mimeType f) with
            | Returns res =>
                Some {| Transcription.audioFileId := AudioFile.id f;
                        Transcription.text := sr_text res;
                        Transcription.words := sr_words res;
                        Transcription.confidence := sr_confidence res;
                        Transcription.duration := sr_duration res;
                        Transcription.paragraphs := sr_paragraphs res |}
            | Throws _ => getTranscription (AudioFile.id f) s
            end)
    /\ (forall other, ~ In other (map AudioFile.id files) ->
          getAudioFile other (final_store r) = getAudioFile other s
          /\ getTranscription other (final_store r) = getTranscription other s)
    /\ map_keys (audioFiles (final_store r)) = map_keys (audioFiles s)
    /\ (forall k, In k (map_keys (transcriptions (final_store r))) ->
                  In k (map AudioFile.id files)
                  \/ In k (map_keys (transcriptions s)))
    /\ lectures (final_store r) = lectures s
    /\ podcastScripts (final_store r) = podcastScripts s
    /\ (files <> [] ->
        ProcessingStatus.transcribedFiles (status (final_store r))
        = Z.of_nat (List.length
                      (filter is_transcribed
                              (getAllAudioFiles (final_store r)))))
    /\ map result_id (result_of r)
       = (map result_id results ++ map AudioFile.id files)%list.
Proof.
  induction files as [|file rest IH]; intros results s; cbv zeta.
  - simpl. repeat split; try tauto; try contradiction.
    now rewrite app_nil_r.
  - change (transcribe_loop svc (file :: rest) results s)
      with (bind (transcribe_one svc file)
                 (fun r => transcribe_loop svc rest (results ++ [r])%list) s).
    rewrite final_store_bind, result_of_bind.
    destruct (transcribe_one_final svc file s)
      as (Hfile & Htr & Hother & Hkeys & Htkeys & Hlec & Hpod & Hcount
          & Hrid & _).
    set (s1 := final_store (transcribe_one svc file s)) in *.
    set (r1 := result_of (transcribe_one svc file s)) in *.
    destruct (IH (results ++ [r1])%list s1)
      as (Hfiles' & Hother' & Hkeys' & Htkeys' & Hlec' & Hpod' & Hcount'
          & Hres').
    set (r := transcribe_loop svc rest (results ++ [r1])%list s1) in *.
    split; [|split; [|repeat split]].
    + intros Hnd f Hf. inversion Hnd as [|? ? Hnotin Hnd']; subst.
      destruct Hf as [<-|Hin].
      * destruct (Hother' (AudioFile.id file) Hnotin) as [-> ->].
        now split.
      * destruct (Hfiles' Hnd' f Hin) as [-> ->].
        assert (Hne : AudioFile.id f <> AudioFile.id file)
          by (intros Heq; apply Hnotin; rewrite <- Heq; now apply in_map).
        destruct (Hother _ Hne) as [-> ->]. now split.
    + intros other Hnot. simpl in Hnot.
      destruct (Hother' other) as [-> ->]; [tauto|].
      destruct (Hother other) as [-> ->]; [intros ->; tauto|now split].
    + now rewrite Hkeys'.
    + intros k Hk. destruct (Htkeys' k Hk) as [Hin|Hin].
      * left. now right.
      * destruct (Htkeys k Hin) as [->|Hin']; [left; now left|now right].
    + now rewrite Hlec'.
    + now rewrite Hpod'.
    + intros _. destruct rest as [|f' rest'].
      * exact Hcount.
      * apply Hcount'. discriminate.
    + rewrite Hres', map_app. simpl. rewrite Hrid, <- app_assoc. reflexivity.
Qed.

(** The request as a whole: nothing when nothing is selected; otherwise
    the loop from the store with the phase set, and the phase set again
    when every recording is done. *)
Lemma well_keyed_key_of (s : StoreData) (f : AudioFile.t) :
  well_keyed s -> In f (getAllAudioFiles s) ->
  In (AudioFile.id f) (map_keys (audioFiles s)).
Proof.
  intros Hwk Hin. pose proof (well_keyed_lookup s f Hwk Hin) as Hget.
  apply map_get_in in Hget. unfold map_keys.
  apply in_map_iff. now exists (AudioFile.id f, f).
Qed.

(** X6: failures are kept to their recording.  Every recording that a
    transcription request selects ends as the speech service decided for
    it, whatever happened to the others: transcribed, with the text of the
    service stored as its transcript, or in error with the message of the
    service; in both cases with the name and the recording time it had. *)
Theorem transcription_outcome_per_recording (svc : SpeechService)
  (body : TranscribeBody) (s : StoreData) (f : AudioFile.t) :
  well_keyed s ->
  In f (selected body s) ->
  match svc (AudioFile.savedPath f) (AudioFile.mimeType f) with
  | Returns res =>
      (exists f',
          getAudioFile (AudioFile.id f)
            (final_store (POST_transcribe svc body s)) = Some f'
          /\ AudioFile.status f' = transcribed
          /\ AudioFile.originalName f' = AudioFile.originalName f
          /\ AudioFile.recordedAt f' = AudioFile.recordedAt f)
      /\ (exists t,
             getTranscription (AudioFile.id f)
               (final_store (POST_transcribe svc body s)) = Some t
             /\ Transcription.audioFileId t = AudioFile.id f
             /\ Transcription.text t = sr_text res)
  | Throws message =>
      exists f',
        getAudioFile (AudioFile.id f)
          (final_store (POST_transcribe svc body s)) = Some f'
        /\ AudioFile.status f' = error
        /\ AudioFile.errorMessage f' = Some message
        /\ AudioFile.originalName f' = AudioFile.originalName f
        /\ AudioFile.recordedAt f' = AudioFile.recordedAt f
  end.
Proof.
  intros Hwk Hin.
  assert (Hsel : selected body s <> []) by (intros E; now rewrite E in Hin).
  destruct (POST_transcribe_final svc body s Hsel) as [_ Hstore].
  pose proof (selected_NoDup body s Hwk) as Hnd.
  pose proof (well_keyed_lookup s f Hwk (selected_sub _ _ _ Hin)) as Hget.
  destruct (transcribe_loop_final svc (selected body s) []
              (updateStatus (set_phase phase_transcribing) s))
    as (Hfiles & _).
  destruct (Hfiles Hnd f Hin) as [Hfile Htr].
  set (l := transcribe_loop svc (selected body s) [] _) in *.
  assert (Hsame : forall id,
            getAudioFile id (final_store (POST_transcribe svc body s))
            = getAudioFile id (final_store l)
            /\ getTranscription id (final_store (POST_transcribe svc body s))
               = getTranscription id (final_store l)).
  { intros id. rewrite Hstore.
    destruct (forallb is_done (getAllAudioFiles (final_store l)));
      split; reflexivity. }
  destruct (Hsame (AudioFile.id f)) as [-> ->]. rewrite Hfile, Htr.
  rewrite (getAudioFile_same_files _ s) by reflexivity. rewrite Hget. simpl.
  destruct (svc (AudioFile.savedPath f) (AudioFile.mimeType f)) as [res|message].
  - split; eexists; repeat split; reflexivity.
  - eexists; repeat split; reflexivity.
Qed.

Lemma transcription_outcome_per_recording_witness :
  exists f',
    getAudioFile "a"
      (final_store
         (POST_transcribe failing_speech (Body (IdArray ["a"])) fresh_store))
    = Some f'
    /\ AudioFile.status f' = error
    /\ AudioFile.errorMessage f'
       = Some "Deepgram transcription error: timeout"
    /\ AudioFile.originalName f' = "01_intro.m4a"
    /\ AudioFile.recordedAt f' = "2024-01-15T10:00:00.000Z".
Proof.
  refine (transcription_outcome_per_recording failing_speech
            (Body (IdArray ["a"])) fresh_store
            (sample_file "a" "01_intro.m4a" "2024-01-15T10:00:00.000Z" uploaded)
            _ _).
  - split; simpl.
    + constructor; [intros []|constructor].
    + constructor; [reflexivity|constructor].
  - simpl. now left.
Defined.

(** X7: after a transcription request that selected at least one
    recording, the counter of transcribed files is the number of
    recordings of the store in status [transcribed]. *)
Theorem transcribed_counter_is_count (svc : SpeechService)
  (body : TranscribeBody) (s : StoreData) :
  selected body s <> [] ->
  ProcessingStatus.transcribedFiles
    (status (final_store (POST_transcribe svc body s)))
  = Z.of_nat
      (List.length
         (filter is_transcribed
            (getAllAudioFiles (final_store (POST_transcribe svc body s))))).
Proof.
  intros Hsel.
  destruct (POST_transcribe_final svc body s Hsel) as [_ ->].
  destruct (transcribe_loop_final svc (selected body s) []
              (updateStatus (set_phase phase_transcribing) s))
    as (_ & _ & _ & _ & _ & _ & Hcount & _).
  specialize (Hcount Hsel).
  destruct (forallb is_done _); exact Hcount.
Qed.

Lemma transcribed_counter_is_count_witness :
  ProcessingStatus.transcribedFiles
    (status (final_store
               (POST_transcribe sample_speech (Body NoFileIds) fresh_store)))
  = 1.
Proof.
  rewrite (transcribed_counter_is_count sample_speech (Body NoFileIds)
             fresh_store).
  - vm_compute. reflexivity.
  - simpl. discriminate.
Defined.

(** What a request writes when it has selected nothing: nothing, or the
    failure. *)
Lemma POST_transcribe_nothing (svc : SpeechService) (body : TranscribeBody)
  (s : StoreData) :
  selected body s = [] ->
  POST_transcribe svc body s
  = match transcribe_failure body s with
    | Some message =>
        (TranscribeFailed message, updateStatus (set_failure message) s,
         [updateStatus (set_failure message) s])
    | None => (NoFilesToTranscribe, s, [])
    end.
Proof.
  intros Hsel. rewrite POST_transcribe_cases, Hsel.
  now destruct (transcribe_failure body s).
Qed.

(** X8: a transcription request keeps every transcript filed under the id
    of a recording of the store. *)
Theorem transcripts_keep_their_recordings (svc : SpeechService)
  (body : TranscribeBody) (s : StoreData) :
  well_keyed s ->
  transcripts_have_recordings s ->
  transcripts_have_recordings (final_store (POST_transcribe svc body s)).
Proof.
  intros Hwk Hinv.
  destruct (selected body s) as [|f1 files] eqn:Hsel.
  - rewrite (POST_transcribe_nothing svc body s Hsel).
    now destruct (transcribe_failure body s).
  - assert (Hne : selected body s <> []) by (rewrite Hsel; discriminate).
    destruct (POST_transcribe_final svc body s Hne) as [_ Hstore].
    destruct (transcribe_loop_final svc (selected body s) []
                (updateStatus (set_phase phase_transcribing) s))
      as (_ & _ & Hkeys & Htkeys & _).
    set (l := transcribe_loop svc (selected body s) [] _) in *.
    assert (Hsame : audioFiles (final_store (POST_transcribe svc body s))
                    = audioFiles (final_store l)
                    /\ transcriptions (final_store (POST_transcribe svc body s))
                       = transcriptions (final_store l)).
    { rewrite Hstore.
      destruct (forallb is_done (getAllAudioFiles (final_store l)));
        split; reflexivity. }
    destruct Hsame as [Ha Ht]. intros id. rewrite Ha, Ht, Hkeys. simpl.
    intros Hid. destruct (Htkeys id Hid) as [Hin|Hin].
    + apply in_map_iff in Hin as (f & <- & Hf).
      apply well_keyed_key_of; [exact Hwk|].
      now apply (selected_sub body).
    + now apply Hinv.
Qed.

Lemma transcripts_keep_their_recordings_witness :
  transcripts_have_recordings
    (final_store (POST_transcribe sample_speech (Body NoFileIds) fresh_store)).
Proof.
  apply transcripts_keep_their_recordings.
  - split; simpl.
    + constructor; [intros []|constructor].
    + constructor; [reflexivity|constructor].
  - intros id [].
Defined.

(** X9: a transcription request leaves alone what it did not select: a
    recording it did not select and its transcript read as before, no
    recording is added or removed, and lectures and scripts are as they
    were.  Its answer has one entry per selected recording, in order.  A
    request that selects nothing writes nothing at all, unless it fails on
    its body or on [fileIds]: then its one write sets the phase to [error]
    with the message, and the rest of the status stays. *)
Theorem transcription_touches_selected_only (svc : SpeechService)
  (body : TranscribeBody) (s : StoreData) :
  (forall id,
      ~ In id (map AudioFile.id (selected body s)) ->
      getAudioFile id (final_store (POST_transcribe svc body s))
      = getAudioFile id s
      /\ getTranscription id (final_store (POST_transcribe svc body s))
         = getTranscription id s)
  /\ map_keys (audioFiles (final_store (POST_transcribe svc body s)))
     = map_keys (audioFiles s)
  /\ lectures (final_store (POST_transcribe svc body s)) = lectures s
  /\ podcastScripts (final_store (POST_transcribe svc body s))
     = podcastScripts s
  /\ (selected body s <> [] ->
      exists results,
        result_of (POST_transcribe svc body s) = Transcribed results
        /\ map result_id results = map AudioFile.id (selected body s))
  /\ (selected body s = [] ->
      match transcribe_failure body s with
      | None => POST_transcribe svc body s = (NoFilesToTranscribe, s, [])
      | Some message =>
          POST_transcribe svc body s
          = (TranscribeFailed message, updateStatus (set_failure message) s,
             [updateStatus (set_failure message) s])
          /\ audioFiles (updateStatus (set_failure message) s) = audioFiles s
          /\ transcriptions (updateStatus (set_failure message) s)
             = transcriptions s
          /\ ProcessingStatus.phase
               (status (updateStatus (set_failure message) s)) = phase_error
          /\ ProcessingStatus.errorMessage
               (status (updateStatus (set_failure message) s)) = Some message
          /\ ProcessingStatus.totalFiles
               (status (updateStatus (set_failure message) s))
             = ProcessingStatus.totalFiles (status s)
          /\ ProcessingStatus.transcribedFiles
               (status (updateStatus (set_failure message) s))
             = ProcessingStatus.transcribedFiles (status s)
          /\ ProcessingStatus.lecturesGenerated
               (status (updateStatus (set_failure message) s))
             = ProcessingStatus.lecturesGenerated (status s)
      end).
Proof.
  destruct (selected body s) as [|f1 files] eqn:Hsel.
  - rewrite (POST_transcribe_nothing svc body s Hsel).
    destruct (transcribe_failure body s) as [message|];
      (split; [|split; [|split; [|split; [|split]]]]);
      try reflexivity; try (intros; split; reflexivity);
      try (intros H; now contradiction H).
    intros _. repeat split; reflexivity.
  - assert (Hne : selected body s <> []) by (rewrite Hsel; discriminate).
    destruct (POST_transcribe_final svc body s Hne) as [Hresult Hstore].
    destruct (transcribe_loop_final svc (selected body s) []
                (updateStatus (set_phase phase_transcribing) s))
      as (_ & Hother & Hkeys & _ & Hlec & Hpod & _ & Hres).
    set (l := transcribe_loop svc (selected body s) [] _) in *.
    assert (Hsame : audioFiles (final_store (POST_transcribe svc body s))
                    = audioFiles (final_store l)
                    /\ transcriptions (final_store (POST_transcribe svc body s))
                       = transcriptions (final_store l)
                    /\ lectures (final_store (POST_transcribe svc body s))
                       = lectures (final_store l)
                    /\ podcastScripts (final_store (POST_transcribe svc body s))
                       = podcastScripts (final_store l)).
    { rewrite Hstore.
      destruct (forallb is_done (getAllAudioFiles (final_store l)));
        repeat split; reflexivity. }
    destruct Hsame as (Ha & Ht & Hl & Hp).
    rewrite <- Hsel.
    split; [|split; [|split; [|split; [|split]]]].
    + intros id Hnot. unfold getAudioFile, getTranscription.
      rewrite Ha, Ht. exact (Hother id Hnot).
    + now rewrite Ha, Hkeys.
    + now rewrite Hl, Hlec.
    + now rewrite Hp, Hpod.
    + intros _. exists (result_of l). split; [exact Hresult|exact Hres].
    + intros E. now contradiction Hne.
Qed.

(** ** The grouping request, further *)

(** X10: without a transcribed recording the grouping request answers
    that there is nothing to process and does not call the service; the
    phase has been set to [processing] all the same, and nothing else has
    changed. *)
Theorem process_without_transcripts (h : Host)
  (inferLectures : GroupingService) (s : StoreData) :
  filter is_transcribed (getAllAudioFiles s) = [] ->
  POST_process h inferLectures s
  = (NoTranscribedFiles,
     updateStatus (set_phase phase_processing) s,
     [updateStatus (set_phase phase_processing) s])
  /\ ProcessingStatus.phase
       (status (final_store (POST_process h inferLectures s)))
     = phase_processing
  /\ lectures (final_store (POST_process h inferLectures s)) = lectures s.
Proof.
  intros Hnone.
  assert (Heq : POST_process h inferLectures s
                = (NoTranscribedFiles,
                   updateStatus (set_phase phase_processing) s,
                   [updateStatus (set_phase phase_processing) s])).
  { unfold POST_process, bind, read, write, ret.
    change (getAllAudioFiles (updateStatus (set_phase phase_processing) s))
      with (getAllAudioFiles s).
    rewrite Hnone. reflexivity. }
  rewrite Heq. repeat split.
Qed.

Lemma process_without_transcripts_witness :
  result_of (POST_process sample_host (fun _ => Throws "not called") fresh_store)
  = NoTranscribedFiles
  /\ ProcessingStatus.phase
       (status (final_store
                  (POST_process sample_host (fun _ => Throws "not called")
                     fresh_store)))
     = phase_processing.
Proof.
  destruct (process_without_transcripts sample_host
              (fun _ => Throws "not called") fresh_store) as (Heq & Hphase & _).
  - reflexivity.
  - rewrite Heq. split; reflexivity.
Defined.

(** X11: the files of a group are the recordings that its ids name among
    the ordered recordings, in the order of the ids; an id that names none
    is passed over. *)
Theorem groupFiles_of_ids (sorted : list AudioFile.t) (ids : list string) :
  map AudioFile.id (groupFiles_of sorted ids)
  = filter (fun id => existsb (fun f => String.eqb (AudioFile.id f) id) sorted)
           ids
  /\ Forall (fun f => In f sorted) (groupFiles_of sorted ids).
Proof.
  unfold groupFiles_of, find_file.
  induction ids as [|id ids [IHids IHin]]; simpl; [now split|].
  destruct (find (fun f => String.eqb (AudioFile.id f) id) sorted)
    as [f|] eqn:Hfind.
  - apply find_some in Hfind as [Hin Hid]. apply String.eqb_eq in Hid.
    assert (Hex : existsb (fun f => String.eqb (AudioFile.id f) id) sorted = true).
    { apply existsb_exists. exists f. split; [exact Hin|].
      now apply String.eqb_eq. }
    rewrite Hex. simpl. split; [now rewrite Hid, IHids|now constructor].
  - assert (Hex : existsb (fun f => String.eqb (AudioFile.id f) id) sorted = false).
    { destruct (existsb _ sorted) eqn:E; [|reflexivity].
      apply existsb_exists in E as (f & Hin & Hid).
      now rewrite (find_none _ _ Hfind f Hin) in Hid. }
    rewrite Hex. simpl. now split.
Qed.

Lemma fold_min_le (l : list Z) :
  forall a, fold_left Z.min l a <= a
            /\ Forall (fun d => fold_left Z.min l a <= d) l
            /\ (fold_left Z.min l a = a \/ In (fold_left Z.min l a) l).
Proof.
  induction l as [|x l IH]; intros a; simpl.
  - repeat split; [lia|constructor|now left].
  - destruct (IH (Z.min a x)) as (Hle & Hall & Hin).
    repeat split.
    + lia.
    + constructor; [lia|exact Hall].
    + destruct Hin as [Heq|Hin]; [|right; now right].
      rewrite Heq. destruct (Z.min_spec a x) as [[_ ->]|[_ ->]];
        [now left|right; now left].
Qed.

(** X12: the creation time of a lecture is the earliest of the valid
    times of the recordings of its group, and the time of the request when
    the group has no recording with a valid time. *)
Theorem lecture_created_at_earliest (h : Host) (s : StoreData)
  (sorted : list AudioFile.t) (k : nat) (group : LectureGroup) :
  match valid_times (runtime h)
          (groupFiles_of sorted (group_audioFileIds group)) with
  | [] => Lecture.createdAt (build_lecture h s sorted k group)
          = toISOString h (now h)
  | t :: rest =>
      exists m,
        Lecture.createdAt (build_lecture h s sorted k group) = toISOString h m
        /\ In m (t :: rest)
        /\ Forall (fun d => m <= d) (t :: rest)
  end.
Proof.
  unfold build_lecture. simpl.
  destruct (valid_times _ _) as [|t rest]; [reflexivity|]. simpl.
  exists (fold_left Z.min rest t).
  destruct (fold_min_le rest t) as (Hle & Hall & Hin).
  split; [reflexivity|]. split.
  - destruct Hin as [->|Hin]; [now left|now right].
  - constructor; [exact Hle|exact Hall].
Qed.

Lemma build_lecture_same (h : Host) (s s' : StoreData)
  (sorted : list AudioFile.t) (k : nat) (group : LectureGroup) :
  transcriptions s' = transcriptions s ->
  build_lecture h s' sorted k group = build_lecture h s sorted k group.
Proof.
  intros Heq. unfold build_lecture, section_of, transcript_text, getTranscription.
  now rewrite Heq.
Qed.

Lemma lectures_from_same (h : Host) (s s' : StoreData)
  (sorted : list AudioFile.t) (groups : list LectureGroup) :
  transcriptions s' = transcriptions s ->
  forall k, lectures_from h s' sorted k groups = lectures_from h s sorted k groups.
Proof.
  intros Heq. induction groups as [|g rest IH]; intros k; simpl; [reflexivity|].
  now rewrite IH, (build_lecture_same h s s').
Qed.

Lemma lectures_from_fields (h : Host) (s : StoreData)
  (sorted : list AudioFile.t) (groups : list LectureGroup) :
  forall k,
    map Lecture.id (lectures_from h s sorted k groups)
    = map (uuidv4 h) (seq k (List.length groups))
    /\ map Lecture.lectureNumber (lectures_from h s sorted k groups)
       = map group_lectureNumber groups
    /\ map Lecture.title (lectures_from h s sorted k groups)
       = map group_title groups
    /\ map Lecture.audioFileIds (lectures_from h s sorted k groups)
       = map group_audioFileIds groups.
Proof.
  induction groups as [|g rest IH]; intros k; simpl; [now repeat split|].
  destruct (IH (S k)) as (-> & -> & -> & ->). now repeat split.
Qed.

Lemma fold_addLecture_parts (L : list Lecture.t) :
  forall s,
    audioFiles (fold_left (fun st l => addLecture l st) L s) = audioFiles s
    /\ transcriptions (fold_left (fun st l => addLecture l st) L s)
       = transcriptions s
    /\ podcastScripts (fold_left (fun st l => addLecture l st) L s)
       = podcastScripts s
    /\ status (fold_left (fun st l => addLecture l st) L s) = status s.
Proof.
  induction L as [|l L IH]; intros s; simpl; [now repeat split|].
  destruct (IH (addLecture l s)) as (-> & -> & -> & ->). now repeat split.
Qed.

(** The loop over well-formed groups: it saves the lectures of the groups,
    one after the other. *)
Lemma rebuild_well_formed (h : Host) (sorted : list AudioFile.t)
  (groups : list LectureGroup) :
  forall (saved : list Lecture.t) (s : StoreData),
    result_of (rebuild h sorted (map WellFormed groups) saved s)
    = Returns (saved ++ lectures_from h s sorted (List.length saved) groups)%list
    /\ final_store (rebuild h sorted (map WellFormed groups) saved s)
       = fold_left (fun st l => addLecture l st)
           (lectures_from h s sorted (List.length saved) groups) s.
Proof.
  induction groups as [|g rest IH]; intros saved s; simpl map.
  - simpl. now rewrite app_nil_r.
  - change (rebuild h sorted (WellFormed g :: map WellFormed rest) saved s)
      with (bind (read (fun s0 => build_lecture h s0 sorted (List.length saved) g))
              (fun lecture =>
                 bind (write (addLecture lecture))
                      (fun _ => rebuild h sorted (map WellFormed rest)
                                  (saved ++ [lecture])%list)) s).
    rewrite !result_of_bind, !final_store_bind.
    change (result_of (read (fun s0 => build_lecture h s0 sorted
                                         (List.length saved) g) s))
      with (build_lecture h s sorted (List.length saved) g).
    change (final_store (read (fun s0 => build_lecture h s0 sorted
                                           (List.length saved) g) s))
      with s.
    set (lec := build_lecture h s sorted (List.length saved) g).
    change (final_store (write (addLecture lec) s)) with (addLecture lec s).
    destruct (IH (saved ++ [lec])%list (addLecture lec s)) as [-> ->].
    rewrite length_app. simpl List.length.
    replace (List.length saved + 1)%nat with (S (List.length saved)) by lia.
    rewrite (lectures_from_same h s (addLecture lec s)) by reflexivity.
    simpl lectures_from. fold lec. simpl fold_left.
    now rewrite <- app_assoc.
Qed.

Lemma fold_addLecture_values (L : list Lecture.t) :
  forall s,
    NoDup (map_keys (lectures s) ++ map Lecture.id L) ->
    map_values (lectures (fold_left (fun st l => addLecture l st) L s))
    = (map_values (lectures s) ++ L)%list.
Proof.
  induction L as [|l L IH]; intros s Hnd; simpl.
  - now rewrite app_nil_r.
  - assert (Hnew : map_get (Lecture.id l) (lectures s) = None).
    { destruct (map_get (Lecture.id l) (lectures s)) as [v|] eqn:E;
        [|reflexivity].
      exfalso. apply map_get_in in E.
      apply NoDup_remove_2 in Hnd. apply Hnd. apply in_or_app. left.
      unfold map_keys. apply in_map_iff. now exists (Lecture.id l, v). }
    rewrite IH.
    + simpl. rewrite map_values_set_absent by exact Hnew.
      now rewrite <- app_assoc.
    + simpl. destruct (map_keys_set_absent (Lecture.id l) l _ Hnew) as [-> _].
      rewrite <- app_assoc. exact Hnd.
Qed.

Lemma map_set_in {V : Type} (k : string) (v : V) (m : JsMap V)
  (kv : string * V) :
  In kv (map_set k v m) -> kv = (k, v) \/ In kv m.
Proof.
  induction m as [|[k' v'] m IH]; simpl.
  - intros [<-|[]]. now left.
  - destruct (String.eqb k' k); simpl.
    + intros [<-|Hin]; [now left|right; now right].
    + intros [<-|Hin]; [right; now left|].
      destruct (IH Hin) as [->|Hin']; [now left|right; now right].
Qed.

Lemma fold_addLecture_in (L : list Lecture.t) :
  forall s kv,
    In kv (lectures (fold_left (fun st l => addLecture l st) L s)) ->
    (In (snd kv) L /\ fst kv = Lecture.id (snd kv)) \/ In kv (lectures s).
Proof.
  induction L as [|l L IH]; intros s kv; simpl; [now right|].
  intros Hin. destruct (IH _ _ Hin) as [[HL Hk]|Hs]; [left; split; [now right|exact Hk]|].
  simpl in Hs. destruct (map_set_in _ _ _ _ Hs) as [->|Hin'];
    [left; split; [now left|reflexivity]|now right].
Qed.

(** The run of a grouping request whose answer is a list of well-formed
    groups. *)
Lemma POST_process_well_formed (h : Host) (inferLectures : GroupingService)
  (s : StoreData) (groups : list LectureGroup) :
  filter is_transcribed (getAllAudioFiles s) <> [] ->
  inferLectures (process_inputs h s) = Returns (Groups (map WellFormed groups)) ->
  result_of (POST_process h inferLectures s)
  = LecturesSaved
      (lectures_from h s
         (order (runtime h) (filter is_transcribed (getAllAudioFiles s))) 0
         groups)
  /\ final_store (POST_process h inferLectures s)
     = updateStatus (set_complete (Z.of_nat (List.length groups)))
         (fold_left (fun st l => addLecture l st)
            (lectures_from h s
               (order (runtime h) (filter is_transcribed (getAllAudioFiles s)))
               0 groups)
            (clearLectures (updateStatus (set_phase phase_processing) s))).
Proof.
  intros Hsome Hanswer. unfold process_inputs in Hanswer.
  remember (filter is_transcribed (getAllAudioFiles s)) as tf eqn:Htf.
  set (sorted := order (runtime h) tf) in *.
  set (s1 := updateStatus (set_phase phase_processing) s).
  set (s2 := clearLectures s1).
  set (L := lectures_from h s sorted 0 groups).
  destruct (rebuild_well_formed h sorted groups [] s2) as [Hres Hfin].
  simpl List.length in Hres, Hfin. simpl app in Hres.
  rewrite (lectures_from_same h s s2) in Hres, Hfin by reflexivity.
  fold L in Hres, Hfin.
  assert (Hrun : result_of (POST_process h inferLectures s) = LecturesSaved L
                 /\ final_store (POST_process h inferLectures s)
                    = updateStatus (set_complete (Z.of_nat (List.length L)))
                        (fold_left (fun st l => addLecture l st) L s2)).
  { unfold POST_process.
    rewrite !result_of_bind, !final_store_bind.
    change (final_store (write (updateStatus (set_phase phase_processing)) s))
      with s1.
    change (result_of (read getAllAudioFiles s1)) with (getAllAudioFiles s).
    change (final_store (read getAllAudioFiles s1)) with s1.
    rewrite <- Htf. subst sorted.
    destruct tf as [|f files]; [contradiction|].
    set (sorted := order (runtime h) (f :: files)) in *.
    rewrite !result_of_bind, !final_store_bind.
    change (result_of (read (fun s0 => map (input_of s0) sorted) s1))
      with (map (input_of s) sorted).
    change (final_store (read (fun s0 => map (input_of s0) sorted) s1)) with s1.
    rewrite Hanswer.
    rewrite !result_of_bind, !final_store_bind.
    change (final_store (write clearLectures s1)) with s2.
    rewrite Hres, Hfin.
    rewrite !result_of_bind, !final_store_bind. split; reflexivity. }
  destruct (lectures_from_fields h s (order (runtime h) tf) groups 0)
    as (_ & Hnum & _).
  apply (f_equal (@List.length _)) in Hnum. rewrite !length_map in Hnum.
  rewrite <- Hnum. exact Hrun.
Qed.

(** X13: when the service answers with well-formed groups, the grouping
    request replaces the lectures of the store by those of the answer:
    it saves one lecture per group, in order, with the number, the title
    and the ids of the group and the identifiers drawn for them; no
    lecture from before is left; the counter of lectures is the number of
    groups and the phase is [complete].  An error message that the status
    held is still there. *)
Theorem grouping_replaces_lectures (h : Host) (inferLectures : GroupingService)
  (s : StoreData) (groups : list LectureGroup) :
  filter is_transcribed (getAllAudioFiles s) <> [] ->
  inferLectures (process_inputs h s) = Returns (Groups (map WellFormed groups)) ->
  exists saved,
    result_of (POST_process h inferLectures s) = LecturesSaved saved
    /\ map Lecture.id saved
       = map (uuidv4 h) (seq 0 (List.length groups))
    /\ map Lecture.lectureNumber saved = map group_lectureNumber groups
    /\ map Lecture.title saved = map group_title groups
    /\ map Lecture.audioFileIds saved = map group_audioFileIds groups
    /\ (forall id l,
           getLecture id (final_store (POST_process h inferLectures s)) = Some l ->
           In l saved)
    /\ (NoDup (map (uuidv4 h) (seq 0 (List.length groups))) ->
        map_values (lectures (final_store (POST_process h inferLectures s)))
        = saved)
    /\ ProcessingStatus.lecturesGenerated
         (status (final_store (POST_process h inferLectures s)))
       = Z.of_nat (List.length groups)
    /\ ProcessingStatus.phase
         (status (final_store (POST_process h inferLectures s)))
       = phase_complete
    /\ ProcessingStatus.errorMessage
         (status (final_store (POST_process h inferLectures s)))
       = ProcessingStatus.errorMessage (status s).
Proof.
  intros Hsome Hanswer.
  destruct (POST_process_well_formed h inferLectures s groups Hsome Hanswer)
    as [Hresult Hstore].
  set (sorted := order (runtime h) (filter is_transcribed (getAllAudioFiles s)))
    in *.
  set (s2 := clearLectures (updateStatus (set_phase phase_processing) s)) in *.
  set (L := lectures_from h s sorted 0 groups) in *.
  destruct (lectures_from_fields h s sorted groups 0) as (Hids & Hnum & Htit & Haud).
  fold L in Hids, Hnum, Htit, Haud.
  assert (Hlen : List.length L = List.length groups).
  { rewrite <- (length_map Lecture.lectureNumber L), Hnum. apply length_map. }
  exists L. rewrite Hstore.
  destruct (fold_addLecture_parts L s2) as (_ & _ & _ & Hst).
  repeat split; try assumption.
  - intros id l Hget. unfold getLecture in Hget. simpl in Hget.
    apply map_get_in in Hget.
    destruct (fold_addLecture_in L s2 _ Hget) as [[Hin _]|[]]. exact Hin.
  - intros Hnd. simpl.
    rewrite fold_addLecture_values; [reflexivity|]. simpl. now rewrite Hids.
  - simpl. now rewrite Hst.
Qed.

Lemma grouping_replaces_lectures_witness :
  exists saved,
    result_of (POST_process sample_host
                 (fun _ => Returns (Groups [WellFormed sample_group]))
                 sample_store)
    = LecturesSaved saved
    /\ map Lecture.id saved = ["lecture-2"].
Proof.
  destruct (grouping_replaces_lectures sample_host
              (fun _ => Returns (Groups [WellFormed sample_group]))
              sample_store [sample_group])
    as (saved & Hres & Hids & _).
  - simpl. discriminate.
  - reflexivity.
  - exists saved. split; [exact Hres|exact Hids].
Defined.

(** *** What grouping does not write to *)

Lemma same_recordings_refl (s : StoreData) : same_recordings s s.
Proof. now repeat split. Qed.

Lemma same_recordings_trans (a b c : StoreData) :
  same_recordings a b -> same_recordings b c -> same_recordings a c.
Proof.
  unfold same_recordings. intros (-> & -> & ->) (-> & -> & ->). now repeat split.
Qed.

Lemma stepwise_all (R : StoreData -> StoreData -> Prop) :
  (forall a b c, R a b -> R b c -> R a c) ->
  forall t s, stepwise R s t -> Forall (R s) t.
Proof.
  intros Htrans. induction t as [|s1 t IH]; intros s; simpl; [constructor|].
  intros [H Ht]. constructor; [exact H|].
  apply (Forall_impl _ (P := R s1)); [|now apply IH].
  intros c Hc. now apply (Htrans s s1 c).
Qed.

Lemma rebuild_same_recordings (h : Host) (sorted : list AudioFile.t)
  (groups : list GroupValue) :
  forall (saved : list Lecture.t) (s : StoreData),
    run_ok same_recordings (rebuild h sorted groups saved) s
      (fun _ s' => same_recordings s s').
Proof.
  induction groups as [|[group|message] rest IH]; intros saved s; simpl.
  - apply run_ok_ret, same_recordings_refl.
  - apply run_ok_bind_read. apply run_ok_bind_write; [now repeat split|].
    eapply run_ok_weaken; [apply IH|]. intros u s' Hs'.
    eapply same_recordings_trans; [|exact Hs']. now repeat split.
  - apply run_ok_ret, same_recordings_refl.
Qed.

Lemma process_failed_same_recordings (message : string) (s : StoreData) :
  run_ok same_recordings (process_failed message) s
    (fun _ s' => same_recordings s s').
Proof.
  unfold process_failed. apply run_ok_bind_write; [now repeat split|].
  apply run_ok_ret. now repeat split.
Qed.

Lemma POST_process_same_recordings (h : Host) (inferLectures : GroupingService)
  (s : StoreData) :
  run_ok same_recordings (POST_process h inferLectures) s
    (fun _ s' => same_recordings s s').
Proof.
  unfold POST_process. apply run_ok_bind_write; [now repeat split|].
  set (s1 := updateStatus (set_phase phase_processing) s).
  assert (H1 : same_recordings s s1) by now repeat split.
  apply run_ok_bind_read.
  destruct (filter is_transcribed (getAllAudioFiles s1)) as [|f files];
    [now apply run_ok_ret|].
  apply run_ok_bind_read.
  destruct (inferLectures _) as [[gs|message]|message].
  - apply run_ok_bind_write; [now repeat split|].
    set (s2 := clearLectures s1).
    assert (H2 : same_recordings s s2) by now repeat split.
    eapply run_ok_bind; [apply rebuild_same_recordings|].
    intros [saved|message] s3 Hs3.
    + apply run_ok_bind_write; [now repeat split|]. apply run_ok_ret.
      apply (same_recordings_trans s s2); [exact H2|].
      apply (same_recordings_trans s2 s3); [exact Hs3|now repeat split].
    + eapply run_ok_weaken; [apply process_failed_same_recordings|].
      intros u s' Hs'.
      apply (same_recordings_trans s s2); [exact H2|].
      now apply (same_recordings_trans s2 s3).
  - apply run_ok_bind_write; [now repeat split|].
    eapply run_ok_weaken; [apply process_failed_same_recordings|].
    intros u s' Hs'.
    apply (same_recordings_trans s (clearLectures s1)); [now repeat split|exact Hs'].
  - eapply run_ok_weaken; [apply process_failed_same_recordings|].
    intros u s' Hs'. now apply (same_recordings_trans s s1).
Qed.

(** X14: whatever the grouping service answers, the grouping request
    writes to the lectures and to the status only: in every store it
    writes, and in the one it leaves, the recordings, the transcripts and
    the scripts are those it found. *)
Theorem grouping_keeps_recordings (h : Host) (inferLectures : GroupingService)
  (s : StoreData) :
  Forall (same_recordings s) (writes_of (POST_process h inferLectures s))
  /\ same_recordings s (final_store (POST_process h inferLectures s)).
Proof.
  destruct (POST_process_same_recordings h inferLectures s) as (Hsteps & _ & Hq).
  split; [|exact Hq].
  apply (stepwise_all same_recordings); [apply same_recordings_trans|exact Hsteps].
Qed.

(** *** Uploads *)

Lemma getRecordedAt_written (rt : Runtime) (fs : FileSystem)
  (filePath originalName : string) (mtime : Z) :
  getRecordedAt rt (written fs filePath mtime) filePath originalName
  = Returns match parseDateFromFilename rt originalName with
            | Some fromName => fromName
            | None => mtime
            end.
Proof.
  unfold getRecordedAt, statSync_mtime, written.
  destruct (parseDateFromFilename rt originalName); [reflexivity|].
  now rewrite String.eqb_refl.
Qed.

Lemma upload_loop_spec (h : Host) (disk : Disk) :
  forall (files : list UploadedFile) (fs : FileSystem)
         (saved : list AudioFile.t) (errors : list string) (s : StoreData),
  exists added,
    final_store (upload_loop h disk files fs saved errors s)
    = fold_left (fun st f => addAudioFile f st) added s
    /\ map AudioFile.id added
       = map (uuidv4 h) (seq (List.length saved) (List.length added))
    /\ match fst (result_of (upload_loop h disk files fs saved errors s)) with
       | Returns (savedFiles, errs) =>
           savedFiles = (saved ++ added)%list
           /\ errs = (errors ++ map unsupported (filter is_rejected files))%list
           /\ Forall2 (records h disk) (filter is_accepted files) added
       | Throws message =>
           exists before file after,
             files = (before ++ file :: after)%list
             /\ is_accepted file = true
             /\ disk (saved_path
                        (uuidv4 h (List.length saved + List.length added)) file)
                = Throws message
             /\ Forall2 (records h disk) (filter is_accepted before) added
       end.
Proof.
  induction files as [|file rest IH]; intros fs saved errors s.
  - exists []. simpl. rewrite !app_nil_r. repeat split. constructor.
  - simpl upload_loop. unfold is_accepted, is_rejected. simpl filter.
    fold is_accepted. fold is_rejected.
    destruct (String.eqb (file_name file) "") eqn:Hname; simpl negb; simpl andb.
    + destruct (IH fs saved errors s) as (added & Hfin & Hids & Hres).
      exists added. repeat split; try assumption.
      destruct (fst (result_of (upload_loop h disk rest fs saved errors s)))
        as [[sv er]|m]; [exact Hres|].
      destruct Hres as (before & file' & after & -> & Hacc & Hdisk & Hrec).
      exists (file :: before), file', after. repeat split; try assumption.
      simpl. unfold is_accepted at 1. now rewrite Hname.
    + destruct (isAllowedAudioType (mime_of file) (file_name file)) eqn:Hok;
        [change (negb true) with false|change (negb false) with true];
        cbv iota.
      * set (id := uuidv4 h (List.length saved)).
        destruct (disk (saved_path id file)) as [mtime|m] eqn:Hdisk.
        -- rewrite getRecordedAt_written.
           set (f := uploaded_record h id file _).
           rewrite final_store_bind, result_of_bind.
           change (final_store (write (addAudioFile f) s)) with (addAudioFile f s).
           destruct (IH (written fs (saved_path id file) mtime)
                        (saved ++ [f])%list errors (addAudioFile f s))
             as (added & Hfin & Hids & Hres).
           rewrite length_app in Hids. simpl List.length in Hids.
           rewrite Nat.add_1_r in Hids.
           exists (f :: added). split; [exact Hfin|]. split.
           { simpl. now rewrite Hids. }
           assert (Hf : records h disk file f).
           { exists mtime. split; [exact Hdisk|reflexivity]. }
           destruct (fst (result_of (upload_loop h disk rest _ _ errors _)))
             as [[sv er]|m].
           ++ destruct Hres as (-> & -> & Hrec).
              rewrite <- app_assoc. repeat split. now constructor.
           ++ destruct Hres as (before & file' & after & -> & Hacc & Hthrow & Hrec).
              exists (file :: before), file', after.
              rewrite length_app in Hthrow. simpl List.length in Hthrow.
              rewrite <- Nat.add_assoc in Hthrow. simpl Nat.add in Hthrow.
              repeat split; try assumption.
              simpl filter. unfold is_accepted at 1. rewrite Hname, Hok. simpl.
              now constructor.
        -- exists []. simpl. rewrite Nat.add_0_r. repeat split.
           exists [], file, rest. repeat split.
           ++ unfold is_accepted. now rewrite Hname, Hok.
           ++ exact Hdisk.
           ++ constructor.
      * destruct (IH fs saved (errors ++ [unsupported file])%list s)
          as (added & Hfin & Hids & Hres).
        exists added. repeat split; try assumption.
        destruct (fst (result_of (upload_loop h disk rest fs saved _ s)))
          as [[sv er]|m].
        -- destruct Hres as (-> & -> & Hrec). rewrite <- app_assoc.
           repeat split. exact Hrec.
        -- destruct Hres as (before & file' & after & -> & Hacc & Hdisk & Hrec).
           exists (file :: before), file', after. repeat split; try assumption.
           simpl. unfold is_accepted at 1. now rewrite Hname, Hok.
Qed.

Lemma fold_addAudioFile_parts (L : list AudioFile.t) :
  forall s,
    transcriptions (fold_left (fun st f => addAudioFile f st) L s)
    = transcriptions s
    /\ lectures (fold_left (fun st f => addAudioFile f st) L s) = lectures s
    /\ podcastScripts (fold_left (fun st f => addAudioFile f st) L s)
       = podcastScripts s
    /\ status (fold_left (fun st f => addAudioFile f st) L s) = status s.
Proof.
  induction L as [|f L IH]; intros s; simpl; [now repeat split|].
  destruct (IH (addAudioFile f s)) as (-> & -> & -> & ->). now repeat split.
Qed.

Lemma fold_addAudioFile_values (L : list AudioFile.t) :
  forall s,
    NoDup (map_keys (audioFiles s) ++ map AudioFile.id L) ->
    getAllAudioFiles (fold_left (fun st f => addAudioFile f st) L s)
    = (getAllAudioFiles s ++ L)%list.
Proof.
  unfold getAllAudioFiles.
  induction L as [|f L IH]; intros s Hnd; simpl.
  - now rewrite app_nil_r.
  - assert (Hnew : map_get (AudioFile.id f) (audioFiles s) = None).
    { destruct (map_get (AudioFile.id f) (audioFiles s)) as [v|] eqn:E;
        [|reflexivity].
      exfalso. apply map_get_in in E.
      apply NoDup_remove_2 in Hnd. apply Hnd. apply in_or_app. left.
      unfold map_keys. apply in_map_iff. now exists (AudioFile.id f, v). }
    rewrite IH.
    + simpl. rewrite map_values_set_absent by exact Hnew.
      now rewrite <- app_assoc.
    + simpl. destruct (map_keys_set_absent (AudioFile.id f) f _ Hnew) as [-> _].
      rewrite <- app_assoc. exact Hnd.
Qed.

Lemma POST_upload_run (h : Host) (disk : Disk) (fs : FileSystem)
  (files : list UploadedFile) (s : StoreData) :
  files <> [] ->
  exists added,
    map AudioFile.id added = map (uuidv4 h) (seq 0 (List.length added))
    /\ match fst (result_of (POST_upload h disk fs files s)) with
       | Uploaded savedFiles errs =>
           savedFiles = added
           /\ errs = map unsupported (filter is_rejected files)
           /\ Forall2 (records h disk) (filter is_accepted files) added
           /\ final_store (POST_upload h disk fs files s)
              = updateStatus
                  (set_totalFiles
                     (Z.of_nat
                        (List.length
                           (getAllAudioFiles
                              (fold_left (fun st f => addAudioFile f st)
                                 added s)))))
                  (fold_left (fun st f => addAudioFile f st) added s)
       | UploadFailed message =>
           final_store (POST_upload h disk fs files s)
           = fold_left (fun st f => addAudioFile f st) added s
           /\ exists before file after,
               files = (before ++ file :: after)%list
               /\ is_accepted file = true
               /\ disk (saved_path (uuidv4 h (List.length added)) file)
                  = Throws message
               /\ Forall2 (records h disk) (filter is_accepted before) added
       | NoFilesProvided => False
       end.
Proof.
  intros Hfiles. destruct files as [|file0 rest]; [contradiction|].
  unfold POST_upload. rewrite result_of_bind, final_store_bind.
  destruct (upload_loop_spec h disk (file0 :: rest) fs [] [] s)
    as (added & Hfin & Hids & Hres).
  exists added. split; [exact Hids|].
  destruct (result_of (upload_loop h disk (file0 :: rest) fs [] [] s))
    as [[[sv er]|m] fs'] eqn:Hr; simpl fst in Hres.
  - destruct Hres as (-> & -> & Hrec). simpl app.
    rewrite result_of_bind, final_store_bind, Hfin.
    repeat split. exact Hrec.
  - simpl. split; [exact Hfin|exact Hres].
Qed.

(** X15: an upload request that is answered with the saved files has a
    record for every named entry of an accepted type, in the order of the
    form, stored under the identifiers drawn in turn, and a message for
    every named entry of another type; an entry without a name leaves no
    trace.  Each record is [uploaded] and dated by the name of its entry
    or, when the name holds no date, by the time its file was written.
    The status then counts all the recordings of the store, and the phase
    is [uploading] as soon as there is one, whatever it was before. *)
Theorem upload_accounts_for_entries (h : Host) (disk : Disk) (fs fs' : FileSystem)
  (files : list UploadedFile) (s : StoreData) (savedFiles : list AudioFile.t)
  (errs : list string) :
  result_of (POST_upload h disk fs files s) = (Uploaded savedFiles errs, fs') ->
  Forall2 (records h disk) (filter is_accepted files) savedFiles
  /\ errs = map unsupported (filter is_rejected files)
  /\ map AudioFile.id savedFiles
     = map (uuidv4 h) (seq 0 (List.length savedFiles))
  /\ ProcessingStatus.totalFiles
       (status (final_store (POST_upload h disk fs files s)))
     = Z.of_nat (List.length
                   (getAllAudioFiles (final_store (POST_upload h disk fs files s))))
  /\ ProcessingStatus.phase
       (status (final_store (POST_upload h disk fs files s)))
     = match getAllAudioFiles (final_store (POST_upload h disk fs files s)) with
       | [] => phase_idle
       | _ :: _ => phase_uploading
       end
  /\ (NoDup (map_keys (audioFiles s) ++ map AudioFile.id savedFiles) ->
      getAllAudioFiles (final_store (POST_upload h disk fs files s))
      = (getAllAudioFiles s ++ savedFiles)%list).
Proof.
  intros Hres.
  assert (Hfiles : files <> []).
  { intros ->. discriminate Hres. }
  destruct (POST_upload_run h disk fs files s Hfiles) as (added & Hids & Hrun).
  rewrite Hres in Hrun. simpl fst in Hrun.
  destruct Hrun as (-> & -> & Hrec & ->).
  repeat split; try assumption.
  - set (s' := fold_left _ added s).
    change (getAllAudioFiles (updateStatus ?u s')) with (getAllAudioFiles s').
    simpl. destruct (getAllAudioFiles s') as [|f l]; reflexivity.
  - intros Hnd. change (getAllAudioFiles (updateStatus ?u ?x))
      with (getAllAudioFiles x).
    now apply fold_addAudioFile_values.
Qed.

Lemma upload_accounts_for_entries_witness :
  let files := [sample_upload "2024-01-15 intro.mp3" "audio/mpeg";
                sample_upload "notes.txt" "text/plain";
                sample_upload "" "audio/mpeg"] in
  ProcessingStatus.totalFiles
    (status (final_store
               (POST_upload sample_host sample_disk (fun _ => None) files
                  createStore)))
  = Z.of_nat (List.length
                (getAllAudioFiles
                   (final_store
                      (POST_upload sample_host sample_disk (fun _ => None) files
                         createStore)))).
Proof.
  intros files.
  refine (proj1 (proj2 (proj2 (proj2
    (upload_accounts_for_entries sample_host sample_disk (fun _ => None)
       (written (fun _ => None) "/tmp/crammer-uploads/lecture-2.mp3"
          1700000000000)
       files createStore
       [uploaded_record sample_host "lecture-2"
          (sample_upload "2024-01-15 intro.mp3" "audio/mpeg") 1705276800000]
       ["notes.txt: unsupported file type (text/plain)"] _))))).
  vm_compute. reflexivity.
Defined.

(** X16: once the form has been read, an upload request is answered
    with a failure only when the writing of the file of an accepted entry
    threw; the date of a record never fails, for the file it would read
    has just been written.  The
    store then holds the records of the accepted entries that came before
    that one, and its status is the one the request found: what was
    stored is not taken back and the counter is not brought up to date. *)
Theorem upload_failure_keeps_earlier_files (h : Host) (disk : Disk)
  (fs fs' : FileSystem) (files : list UploadedFile) (s : StoreData)
  (message : string) :
  result_of (POST_upload h disk fs files s) = (UploadFailed message, fs') ->
  status (final_store (POST_upload h disk fs files s)) = status s
  /\ exists before file after added,
      files = (before ++ file :: after)%list
      /\ is_accepted file = true
      /\ disk (saved_path (uuidv4 h (List.length added)) file) = Throws message
      /\ Forall2 (records h disk) (filter is_accepted before) added
      /\ final_store (POST_upload h disk fs files s)
         = fold_left (fun st f => addAudioFile f st) added s.
Proof.
  intros Hres.
  assert (Hfiles : files <> []).
  { intros ->. discriminate Hres. }
  destruct (POST_upload_run h disk fs files s Hfiles) as (added & Hids & Hrun).
  rewrite Hres in Hrun. simpl fst in Hrun.
  destruct Hrun as (Hfin & before & file & after & Hsplit & Hacc & Hdisk & Hrec).
  split.
  - rewrite Hfin. now destruct (fold_addAudioFile_parts added s) as (_ & _ & _ & ->).
  - exists before, file, after, added. now repeat split.
Qed.

Lemma upload_failure_keeps_earlier_files_witness :
  status (final_store
            (POST_upload sample_host full_disk (fun _ => None)
               [sample_upload "intro.mp3" "audio/mpeg"] createStore))
  = status createStore.
Proof.
  refine (proj1
    (upload_failure_keeps_earlier_files sample_host full_disk (fun _ => None)
       (fun _ => None) [sample_upload "intro.mp3" "audio/mpeg"] createStore
       "ENOSPC: no space left on device, write" _)).
  vm_compute. reflexivity.
Defined.

(** *** The script of a lecture *)

Lemma lit_i_colon (c : ascii) : lit_i ":" c = true -> c = ":"%char.
Proof.
  destruct c as [[] [] [] [] [] [] [] []]; vm_compute; intros H;
    first [discriminate H | reflexivity].
Qed.

Lemma space_not_colon (c : ascii) : is_space c = true -> Ascii.eqb c ":" = false.
Proof.
  intros H. destruct (Ascii.eqb_spec c ":"%char) as [->|]; [|reflexivity].
  vm_compute in H. discriminate H.
Qed.

Lemma matcher_word_inv (l : chars) :
  forall (k : cont) prev input caps res,
    l <> [] ->
    matcher (seq_of (map (fun c => Chr (lit_i c)) l)) k prev input caps
    = Some res ->
    exists l' rest,
      input = (l' ++ rest)%list
      /\ Forall2 (fun c x => lit_i c x = true) l l'
      /\ exists prev', k prev' rest caps = Some res.
Proof.
  induction l as [|c l IH]; intros k prev input caps res Hl; [contradiction|].
  destruct l as [|c' l].
  - simpl. destruct input as [|x rest]; [discriminate|].
    destruct (lit_i c x) eqn:Hx; [|discriminate]. intros Hk.
    exists [x], rest. repeat split.
    + constructor; [exact Hx|constructor].
    + now exists (Some x).
  - change (seq_of (map (fun c0 => Chr (lit_i c0)) (c :: c' :: l)))
      with (Seq (Chr (lit_i c))
              (seq_of (map (fun c0 => Chr (lit_i c0)) (c' :: l)))).
    simpl matcher. destruct input as [|x rest]; [discriminate|].
    destruct (lit_i c x) eqn:Hx; [|discriminate]. intros Hk.
    destruct (IH _ _ _ _ _ ltac:(discriminate) Hk)
      as (l' & rest' & -> & Hall & Hres).
    exists (x :: l'), rest'. repeat split; [|exact Hres].
    now constructor.
Qed.

Lemma matcher_word_prefix (l : chars) :
  forall (k : cont) prev l' rest caps res,
    l <> [] ->
    Forall2 (fun c x => lit_i c x = true) l l' ->
    (forall prev', k prev' rest caps = Some res) ->
    matcher (seq_of (map (fun c => Chr (lit_i c)) l)) k prev (l' ++ rest)%list caps
    = Some res.
Proof.
  induction l as [|c l IH]; intros k prev l' rest caps res Hl Hall Hk;
    [contradiction|].
  inversion Hall as [|c0 x l0 l'' Hx Hall' E1 E2]; subst.
  destruct l as [|c' l].
  - inversion Hall'; subst. simpl. rewrite Hx. apply Hk.
  - change (seq_of (map (fun c0 => Chr (lit_i c0)) (c :: c' :: l)))
      with (Seq (Chr (lit_i c))
              (seq_of (map (fun c0 => Chr (lit_i c0)) (c' :: l)))).
    simpl matcher. simpl app. rewrite Hx.
    apply IH; [discriminate|exact Hall'|exact Hk].
Qed.

Lemma rep_greedy (p : ascii -> bool) (k : cont) :
  forall u min prev tail caps res,
    forallb p u = true ->
    (min <= List.length u)%nat ->
    match tail with c :: _ => p c = false | [] => True end ->
    (forall prev', k prev' tail caps = Some res) ->
    rep p min None k prev (u ++ tail)%list caps = Some res.
Proof.
  induction u as [|a u IH]; intros min prev tail caps res Hu Hmin Htail Hk.
  - simpl in Hmin. assert (min = O) as -> by lia. simpl app.
    destruct tail as [|c rest]; simpl; [apply Hk|].
    rewrite Htail. simpl. apply Hk.
  - simpl in Hu. apply andb_prop in Hu as [Ha Hu]. simpl app. simpl rep.
    rewrite Ha. simpl andb. cbv iota.
    rewrite (IH (Nat.pred min) (Some a) tail caps res); try assumption;
      [reflexivity|]. simpl in Hmin. lia.
Qed.

Lemma firstn_consumed {A : Type} (t tail : list A) :
  firstn (List.length (t ++ tail) - List.length tail) (t ++ tail)%list = t.
Proof.
  rewrite length_app.
  replace (List.length t + List.length tail - List.length tail)%nat
    with (List.length t + 0)%nat by lia.
  rewrite firstn_app_2. simpl. apply app_nil_r.
Qed.

Lemma line_text_dots (t : chars) :
  line_text t = true ->
  forallb is_dot_char t = true /\ (1 <= List.length t)%nat
  /\ match t with c :: _ => is_space c = false | [] => True end.
Proof.
  destruct t as [|c t]; [discriminate|]. unfold line_text.
  intros H. apply andb_prop in H as [Hc Ht]. repeat split.
  - exact Ht.
  - simpl. lia.
  - now apply negb_true_iff.
Qed.

Lemma label_Forall2 (l : chars) :
  Forall (fun c => lit_i c c = true) l ->
  Forall2 (fun c x => lit_i c x = true) l l.
Proof. induction 1; constructor; assumption. Qed.

(** A label, blanks, the text of a line and a line feed: the pattern of
    the label captures the text. *)
Lemma matcher_label_at (label : string) (sp t more : chars) (prev : option ascii)
  (caps : captures) :
  list_ascii_of_string label <> [] ->
  Forall (fun c => lit_i c c = true) (list_ascii_of_string label) ->
  forallb is_space sp = true ->
  line_text t = true ->
  matcher (re_label label) accept prev
    (list_ascii_of_string label ++ sp ++ t ++ ascii_of_nat 10 :: more)%list caps
  = Some (caps ++ [t])%list.
Proof.
  intros Hne Hlab Hsp Ht.
  destruct (line_text_dots t Ht) as (Hdots & Hlen & Hfirst).
  change (re_label label)
    with (Seq (word_i label)
            (Seq (Rep is_space 0 None) (Group (Rep is_dot_char 1 None)))).
  simpl matcher. unfold word_i.
  apply matcher_word_prefix; [exact Hne|now apply label_Forall2|].
  intros prev1. apply rep_greedy; try assumption.
  - simpl. lia.
  - destruct t as [|c t]; [discriminate|]. exact Hfirst.
  - intros prev2. apply rep_greedy; try assumption; [reflexivity|].
    intros prev3. unfold accept.
    change (t ++ ascii_of_nat 10 :: more)%list
      with (t ++ (ascii_of_nat 10 :: more))%list.
    now rewrite firstn_consumed.
Qed.

(** The same text under the pattern of the whole line: the match ends
    after the line feed. *)
Lemma matcher_label_line_at (label : string) (sp t more : chars)
  (prev : option ascii) :
  list_ascii_of_string label <> [] ->
  Forall (fun c => lit_i c c = true) (list_ascii_of_string label) ->
  forallb is_space sp = true ->
  line_text t = true ->
  matcher (re_label_line label) accept_rest prev
    (list_ascii_of_string label ++ sp ++ t ++ ascii_of_nat 10 :: more)%list []
  = Some [more].
Proof.
  intros Hne Hlab Hsp Ht.
  destruct (line_text_dots t Ht) as (Hdots & Hlen & Hfirst).
  change (re_label_line label)
    with (Seq (word_i label)
            (Seq (Rep is_space 0 None)
               (Seq (Rep is_dot_char 1 None)
                  (Rep (lit (ascii_of_nat 10)) 0 (Some 1%nat))))).
  simpl matcher. unfold word_i.
  apply matcher_word_prefix; [exact Hne|now apply label_Forall2|].
  intros prev1. apply rep_greedy; try assumption.
  - simpl. lia.
  - destruct t as [|c t]; [discriminate|]. exact Hfirst.
  - intros prev2. apply rep_greedy; try assumption; [reflexivity|].
    intros prev3. destruct more as [|c more]; [reflexivity|].
    simpl. destruct (lit (ascii_of_nat 10) c); reflexivity.
Qed.

Lemma Forall2_nth_error {A B : Type} (R : A -> B -> Prop) (l : list A)
  (l' : list B) :
  Forall2 R l l' ->
  forall n a, nth_error l n = Some a ->
              exists b, nth_error l' n = Some b /\ R a b.
Proof.
  induction 1 as [|a0 b0 l l' Hab Hall IH]; intros n a Hn.
  - destruct n; discriminate.
  - destruct n as [|n]; simpl in *.
    + injection Hn as <-. now exists b0.
    + now apply IH.
Qed.

(** A word of the pattern asks for each of its characters at its place. *)
Lemma word_needs_at (l : chars) (n : nat) (c : ascii) (k : cont) prev input caps :
  l <> [] ->
  nth_error l n = Some c ->
  (forall x, nth_error input n = Some x -> lit_i c x = false) ->
  matcher (seq_of (map (fun c => Chr (lit_i c)) l)) k prev input caps = None.
Proof.
  intros Hl Hn Hno.
  destruct (matcher _ k prev input caps) as [res|] eqn:E; [|reflexivity].
  destruct (matcher_word_inv l k prev input caps res Hl E)
    as (l' & rest & -> & Hall & _).
  destruct (Forall2_nth_error _ _ _ Hall n c Hn) as (x & Hx & Hcx).
  rewrite (Hno x) in Hcx; [discriminate|].
  rewrite nth_error_app1; [exact Hx|].
  apply nth_error_Some. now rewrite Hx.
Qed.

Lemma colon_free_nth (v rest : chars) (n : nat) (x : ascii) :
  colon_free v = true -> (n < List.length v)%nat ->
  nth_error (v ++ rest) n = Some x -> lit_i ":" x = false.
Proof.
  intros Hv Hn Hx. rewrite nth_error_app1 in Hx by exact Hn.
  apply nth_error_In in Hx. unfold colon_free in Hv.
  rewrite forallb_forall in Hv. specialize (Hv x Hx).
  destruct (lit_i ":" x) eqn:E; [|reflexivity].
  apply lit_i_colon in E. subst x. discriminate Hv.
Qed.

Lemma colon_free_no_colon (v : chars) (n : nat) (x : ascii) :
  colon_free v = true -> nth_error v n = Some x -> lit_i ":" x = false.
Proof.
  intros Hv Hx. apply (colon_free_nth v [] n x Hv).
  - apply nth_error_Some. now rewrite Hx.
  - now rewrite app_nil_r.
Qed.

Lemma search_none (r : regex) :
  forall input prev,
    (forall a b prev', input = (a ++ b)%list ->
                       matcher r accept prev' b [] = None) ->
    search r prev input = None.
Proof.
  induction input as [|c input IH]; intros prev Hno; simpl.
  - now rewrite (Hno [] [] prev).
  - rewrite (Hno [] (c :: input) prev) by reflexivity.
    apply IH. intros a b prev' ->. now apply (Hno (c :: a) b prev').
Qed.

Lemma search_cut_none (r : regex) :
  forall input prev before,
    (forall a b prev', input = (a ++ b)%list ->
                       matcher r accept_rest prev' b [] = None) ->
    search_cut r prev before input = None.
Proof.
  induction input as [|c input IH]; intros prev before Hno; simpl.
  - now rewrite (Hno [] [] prev).
  - rewrite (Hno [] (c :: input) prev) by reflexivity.
    apply IH. intros a b prev' ->. now apply (Hno (c :: a) b prev').
Qed.

Lemma search_here (r : regex) (prev : option ascii) (input : chars)
  (caps : captures) :
  matcher r accept prev input [] = Some caps -> search r prev input = Some caps.
Proof. intros H. destruct input; simpl; now rewrite H. Qed.

Lemma search_skip (r : regex) :
  forall pre prev rest,
    (forall a b prev', pre = (a ++ b)%list -> b <> [] ->
                       matcher r accept prev' (b ++ rest)%list [] = None) ->
    exists prev', search r prev (pre ++ rest)%list = search r prev' rest.
Proof.
  induction pre as [|c pre IH]; intros prev rest Hno.
  - now exists prev.
  - pose proof (Hno [] (c :: pre) prev eq_refl ltac:(discriminate)) as H0.
    simpl app in *. simpl search. rewrite H0.
    apply IH. intros a b prev' -> Hb. now apply (Hno (c :: a) b prev').
Qed.

Lemma colon_free_suffix (a b : chars) :
  colon_free (a ++ b)%list = true -> colon_free b = true.
Proof.
  unfold colon_free. rewrite forallb_app. intros H.
  now apply andb_prop in H as [_ H].
Qed.

Lemma label_colon_index (label : string) :
  In ":"%char (list_ascii_of_string label) ->
  exists n, nth_error (list_ascii_of_string label) n = Some ":"%char.
Proof. apply In_nth_error. Qed.

(** A text without a colon matches neither pattern of a label that holds
    one. *)
Lemma colon_free_no_label (label : string) (input : chars) :
  In ":"%char (list_ascii_of_string label) ->
  colon_free input = true ->
  str_match input (re_label label) = None
  /\ remove_first input (re_label_line label) = input.
Proof.
  intros Hin Hfree.
  destruct (label_colon_index label Hin) as (n & Hn).
  assert (Hne : list_ascii_of_string label <> []).
  { intros E. rewrite E in Hin. contradiction. }
  split.
  - unfold str_match. apply search_none. intros a b prev' ->.
    change (re_label label)
      with (Seq (word_i label)
              (Seq (Rep is_space 0 None) (Group (Rep is_dot_char 1 None)))).
    simpl matcher. unfold word_i.
    apply (word_needs_at _ n ":"%char); [exact Hne|exact Hn|].
    intros x Hx. apply (colon_free_no_colon b n x); [|exact Hx].
    now apply (colon_free_suffix a).
  - unfold remove_first. rewrite search_cut_none; [reflexivity|].
    intros a b prev' ->.
    change (re_label_line label)
      with (Seq (word_i label)
              (Seq (Rep is_space 0 None)
                 (Seq (Rep is_dot_char 1 None)
                    (Rep (lit (ascii_of_nat 10)) 0 (Some 1%nat))))).
    simpl matcher. unfold word_i.
    apply (word_needs_at _ n ":"%char); [exact Hne|exact Hn|].
    intros x Hx. apply (colon_free_no_colon b n x); [|exact Hx].
    now apply (colon_free_suffix a).
Qed.

(** X17: an answer that holds no colon has no label: the script is given
    the title of the lecture followed by [" - Podcast"], the summary of
    the lecture as its description, and the whole answer, trimmed, as its
    text. *)
Theorem script_without_labels (lecture : Lecture.t) (answer : string) :
  colon_free (list_ascii_of_string answer) = true ->
  script_parts lecture answer
  = {| part_title := Lecture.title lecture ++ " - Podcast";
       part_description := Lecture.summary lecture;
       part_script := text (trim (list_ascii_of_string answer)) |}.
Proof.
  intros Hfree. unfold script_parts.
  destruct (colon_free_no_label "TITLE:" _ ltac:(simpl; tauto) Hfree)
    as [-> ->].
  destruct (colon_free_no_label "DESCRIPTION:" _ ltac:(simpl; tauto) Hfree)
    as [-> ->].
  reflexivity.
Qed.

Lemma script_without_labels_witness :
  script_parts sample_lecture "  HOST - Welcome to the show.  "
  = {| part_title := Lecture.title sample_lecture ++ " - Podcast";
       part_description := Lecture.summary sample_lecture;
       part_script := "HOST - Welcome to the show." |}.
Proof.
  apply (script_without_labels sample_lecture "  HOST - Welcome to the show.  ").
  reflexivity.
Defined.

Lemma suffix_cons {A : Type} (c : A) (X a b : list A) :
  (a ++ b)%list = c :: X ->
  (a = [] /\ b = c :: X) \/ exists a', a = c :: a' /\ (a' ++ b)%list = X.
Proof.
  destruct a as [|c' a']; simpl; intros H.
  - now left.
  - injection H as -> H. right. now exists a'.
Qed.

Lemma colon_free_spaces (sp : chars) :
  forallb is_space sp = true -> colon_free sp = true.
Proof.
  unfold colon_free. induction sp as [|c sp IH]; simpl; [reflexivity|].
  intros H. apply andb_prop in H as [Hc Hsp].
  now rewrite (space_not_colon c Hc), IH.
Qed.

(** Before the line of the description, nothing of an answer in the
    layout matches the pattern of the description. *)
Lemma description_not_before (sp1 t rest a b : chars) (prev : option ascii) :
  forallb is_space sp1 = true ->
  colon_free t = true ->
  (list_ascii_of_string "TITLE:" ++ sp1 ++ t ++ [ascii_of_nat 10])%list
  = (a ++ b)%list ->
  b <> [] ->
  matcher (re_label "DESCRIPTION:") accept prev
    (b ++ list_ascii_of_string "DESCRIPTION:" ++ rest)%list [] = None.
Proof.
  intros Hsp Ht Hsplit Hb.
  set (k := matcher
              (Seq (Rep is_space 0 None) (Group (Rep is_dot_char 1 None)))
              accept).
  set (word := list_ascii_of_string "DESCRIPTION:").
  change (matcher (re_label "DESCRIPTION:") accept)
    with (matcher (seq_of (map (fun c => Chr (lit_i c)) word)) k).
  assert (Hfirst : forall c X,
             b = c :: X -> lit_i "D" c = false ->
             matcher (seq_of (map (fun c0 => Chr (lit_i c0)) word)) k
               prev (b ++ word ++ rest)%list []
             = None).
  { intros c X -> Hc. apply (word_needs_at word 0 "D"%char);
      [discriminate|reflexivity|].
    simpl. intros x Hx. injection Hx as <-. exact Hc. }
  symmetry in Hsplit. simpl app in Hsplit.
  repeat match type of Hsplit with
         | (a ++ b)%list = _ :: _ =>
             apply suffix_cons in Hsplit as [[-> Hsplit]|(a' & -> & Hsplit)];
             [now apply (Hfirst _ _ Hsplit)|rename a' into a]
         end.
  assert (Hfree : colon_free b = true).
  { apply (colon_free_suffix a). rewrite Hsplit.
    unfold colon_free. rewrite !forallb_app.
    fold (colon_free sp1). fold (colon_free t).
    now rewrite (colon_free_spaces sp1 Hsp), Ht. }
  apply (word_needs_at word 11 ":"%char); [discriminate|reflexivity|].
  intros x Hx.
  change (b ++ word ++ rest)%list
    with (b ++ list_ascii_of_string "DESCRIPTION"
            ++ (":"%char :: rest))%list in Hx.
  rewrite app_assoc in Hx.
  apply (colon_free_nth _ _ _ _) in Hx; [exact Hx| |].
  - unfold colon_free. rewrite forallb_app. fold (colon_free b).
    now rewrite Hfree.
  - rewrite length_app. simpl. destruct b; [contradiction|simpl; lia].
Qed.

Lemma search_cut_here (r : regex) (input after : chars) :
  matcher r accept_rest None input [] = Some [after] ->
  remove_first input r = after.
Proof.
  intros H. unfold remove_first.
  destruct input; simpl search_cut; rewrite H; reflexivity.
Qed.

Lemma label_chars_i (label : string) :
  forallb (fun c => lit_i c c) (list_ascii_of_string label) = true ->
  Forall (fun c => lit_i c c = true) (list_ascii_of_string label).
Proof. intros H. apply Forall_forall. now apply forallb_forall. Qed.

(** X18: an answer in the layout that the prompt asks for, a line
    labelled [TITLE:], a line labelled [DESCRIPTION:], then the script,
    is read back as written: the title and the description are the texts
    of their lines and the script is what follows them, each trimmed.  The
    title is to hold no colon. *)
Theorem script_of_labelled_answer (lecture : Lecture.t)
  (sp1 title sp2 description body : chars) :
  forallb is_space sp1 = true -> line_text title = true ->
  colon_free title = true ->
  forallb is_space sp2 = true -> line_text description = true ->
  script_parts lecture (text (labelled_answer sp1 title sp2 description body))
  = {| part_title := text (trim title);
       part_description := text (trim description);
       part_script := text (trim body) |}.
Proof.
  intros Hsp1 Ht Hfree Hsp2 Hd. unfold script_parts, text.
  rewrite list_ascii_of_string_of_list_ascii.
  assert (Htitle : str_match (labelled_answer sp1 title sp2 description body)
                     (re_label "TITLE:") = Some [title]).
  { unfold str_match. apply search_here. unfold labelled_answer.
    apply (matcher_label_at "TITLE:" sp1 title _ None []);
      [discriminate|now apply label_chars_i|exact Hsp1|exact Ht]. }
  assert (Hdesc : str_match (labelled_answer sp1 title sp2 description body)
                    (re_label "DESCRIPTION:") = Some [description]).
  { unfold str_match.
    replace (labelled_answer sp1 title sp2 description body)
      with ((list_ascii_of_string "TITLE:" ++ sp1 ++ title
             ++ [ascii_of_nat 10])
            ++ list_ascii_of_string "DESCRIPTION:" ++ sp2 ++ description
            ++ [ascii_of_nat 10] ++ body)%list
      by (unfold labelled_answer; now rewrite <- !app_assoc).
    destruct (search_skip (re_label "DESCRIPTION:")
                (list_ascii_of_string "TITLE:" ++ sp1 ++ title
                 ++ [ascii_of_nat 10])%list None
                (list_ascii_of_string "DESCRIPTION:" ++ sp2 ++ description
                 ++ [ascii_of_nat 10] ++ body)%list) as (prev' & ->).
    - intros a b prev0 Hsplit Hb.
      now apply (description_not_before sp1 title _ a b prev0).
    - apply search_here.
      apply (matcher_label_at "DESCRIPTION:" sp2 description body prev' []);
        [discriminate|now apply label_chars_i|exact Hsp2|exact Hd]. }
  rewrite Htitle, Hdesc.
  rewrite (search_cut_here (re_label_line "TITLE:")
             (labelled_answer sp1 title sp2 description body)
             (list_ascii_of_string "DESCRIPTION:" ++ sp2 ++ description
              ++ [ascii_of_nat 10] ++ body)%list).
  - rewrite (search_cut_here (re_label_line "DESCRIPTION:") _ body);
      [reflexivity|].
    apply (matcher_label_line_at "DESCRIPTION:" sp2 description body None);
      [discriminate|now apply label_chars_i|exact Hsp2|exact Hd].
  - unfold labelled_answer.
    apply (matcher_label_line_at "TITLE:" sp1 title _ None);
      [discriminate|now apply label_chars_i|exact Hsp1|exact Ht].
Qed.

Lemma script_of_labelled_answer_witness :
  script_parts sample_lecture
    (text (labelled_answer (list_ascii_of_string " ")
             (list_ascii_of_string "Limits, slowly ")
             (list_ascii_of_string " ")
             (list_ascii_of_string "What a limit is: a promise.")
             (list_ascii_of_string "HOST: Welcome back.")))
  = {| part_title := "Limits, slowly";
       part_description := "What a limit is: a promise.";
       part_script := "HOST: Welcome back." |}.
Proof.
  apply (script_of_labelled_answer sample_lecture
           (list_ascii_of_string " ")
           (list_ascii_of_string "Limits, slowly ")
           (list_ascii_of_string " ")
           (list_ascii_of_string "What a limit is: a promise.")
           (list_ascii_of_string "HOST: Welcome back.")); reflexivity.
Defined.

(** X19: when lectures are grouped anew, the scripts written for the
    lectures of before stay in the store, but a script whose lecture id
    is not among the identifiers drawn for the new lectures refers to no
    lecture any more. *)
Theorem regrouping_orphans_scripts (h : Host) (inferLectures : GroupingService)
  (s : StoreData) (groups : list LectureGroup) (script : PodcastScript.t) :
  filter is_transcribed (getAllAudioFiles s) <> [] ->
  inferLectures (process_inputs h s) = Returns (Groups (map WellFormed groups)) ->
  getPodcastScript (PodcastScript.id script) s = Some script ->
  ~ In (PodcastScript.lectureId script)
       (map (uuidv4 h) (seq 0 (List.length groups))) ->
  getPodcastScript (PodcastScript.id script)
    (final_store (POST_process h inferLectures s)) = Some script
  /\ getLecture (PodcastScript.lectureId script)
       (final_store (POST_process h inferLectures s)) = None.
Proof.
  intros Hsome Hanswer Hscript Hfresh.
  destruct (POST_process_well_formed h inferLectures s groups Hsome Hanswer)
    as [_ ->].
  set (sorted := order (runtime h) (filter is_transcribed (getAllAudioFiles s))).
  set (s2 := clearLectures (updateStatus (set_phase phase_processing) s)).
  set (L := lectures_from h s sorted 0 groups).
  destruct (fold_addLecture_parts L s2) as (_ & _ & Hps & _).
  split.
  - unfold getPodcastScript in *. simpl. now rewrite Hps.
  - unfold getLecture. simpl.
    destruct (map_get _ _) as [l|] eqn:Hget; [|reflexivity].
    exfalso. apply map_get_in in Hget.
    destruct (fold_addLecture_in L s2 _ Hget) as [[Hin Hk]|[]].
    simpl in Hin, Hk. apply Hfresh. rewrite Hk.
    destruct (lectures_from_fields h s sorted groups 0) as (<- & _).
    now apply in_map.
Qed.

Lemma regrouping_orphans_scripts_witness :
  let script :=
    {| PodcastScript.id := "script-1"; PodcastScript.lectureId := "lecture-1";
       PodcastScript.format := qa; PodcastScript.title := "Limits";
       PodcastScript.description := "";
       PodcastScript.script := "HOST: Welcome.";
       PodcastScript.generatedAt := "2024-01-16T08:00:00.000Z" |} in
  getLecture "lecture-1"
    (final_store
       (POST_process sample_host
          (fun _ => Returns (Groups [WellFormed sample_group]))
          (addPodcastScript script sample_store))) = None.
Proof.
  intros script.
  refine (proj2 (regrouping_orphans_scripts sample_host
                   (fun _ => Returns (Groups [WellFormed sample_group]))
                   (addPodcastScript script sample_store) [sample_group] script
                   _ _ _ _)).
  - simpl. discriminate.
  - reflexivity.
  - reflexivity.
  - vm_compute. intros [H|[]]. discriminate H.
Defined.

(** *** Requests for a script *)

(** X20: a request for a script writes to the store once, when it answers
    with a script, and then adds this script and nothing else; the script
    is filed under a lecture that the store holds and carries a format of
    the three.  Under every other answer the store is left as found. *)
Theorem script_request_writes_one_script (h : Host) (svc : ScriptService)
  (body : outcome (string * string)) (s : StoreData) :
  match result_of (POST_generate_podcast h svc body s) with
  | ScriptCreated script =>
      writes_of (POST_generate_podcast h svc body s) = [addPodcastScript script s]
      /\ final_store (POST_generate_podcast h svc body s)
         = addPodcastScript script s
      /\ PodcastScript.id script = uuidv4 h 0
      /\ getLecture (PodcastScript.lectureId script) s <> None
      /\ exists format,
          body = Returns (PodcastScript.lectureId script, format)
          /\ format_of format = Some (PodcastScript.format script)
  | _ =>
      writes_of (POST_generate_podcast h svc body s) = []
      /\ final_store (POST_generate_podcast h svc body s) = s
  end.
Proof.
  unfold POST_generate_podcast.
  destruct body as [[lectureId format]|message]; [|now split].
  destruct (String.eqb lectureId "" || String.eqb format ""); [now split|].
  destruct (format_of format) as [fmt|] eqn:Hfmt; [|now split].
  unfold bind, read, write, ret, result_of, final_store, writes_of. simpl.
  destruct (getLecture lectureId s) as [lecture|] eqn:Hlec; [|now split].
  simpl.
  destruct (generatePodcastScript svc lecture (files_of_lecture s lecture)
              (Lecture.fullTranscript lecture) fmt) as [parts|message];
    [|now split].
  simpl. repeat split.
  - intros H. rewrite Hlec in H. discriminate H.
  - exists format. now split.
Qed.

(** *** File names without a digit *)

Lemma dead_suffix (k : cont) (a b : chars) : dead k (a ++ b)%list -> dead k b.
Proof.
  intros H a' b' prev caps ->. apply (H (a ++ a')%list b').
  now rewrite app_assoc.
Qed.

Lemma rep_dead (p : ascii -> bool) (k : cont) :
  forall input, dead k input ->
                forall min max prev caps, rep p min max k prev input caps = None.
Proof.
  induction input as [|c rest IH]; intros Hk min max prev caps.
  - simpl. destruct min; [|reflexivity]. now apply (Hk [] []).
  - assert (Hstop : match min with
                    | O => k prev (c :: rest) caps
                    | S _ => None
                    end = None).
    { destruct min; [|reflexivity]. now apply (Hk [] (c :: rest)). }
    simpl. rewrite Hstop.
    destruct (p c && can_take max); [|reflexivity].
    rewrite IH; [reflexivity|]. now apply (dead_suffix k [c]).
Qed.

Lemma matcher_dead (r : regex) :
  forall k input, dead k input -> dead (matcher r k) input.
Proof.
  induction r as [|p|r1 IH1 r2 IH2|p min max|r1 IH1| | | |p|p];
    intros k input Hk a b prev caps Hsplit; simpl.
  - now apply (Hk a b).
  - destruct b as [|c rest]; [reflexivity|].
    destruct (p c); [|reflexivity].
    apply (Hk (a ++ [c])%list rest). now rewrite <- app_assoc.
  - apply (IH1 (matcher r2 k) input (IH2 k input Hk) a b). exact Hsplit.
  - apply rep_dead. subst input. now apply (dead_suffix k a).
  - apply (IH1 _ b) with (a := []) (b := b); [|reflexivity].
    intros a' b' prev' caps' ->.
    apply (Hk (a ++ a')%list b'). subst input. now rewrite app_assoc.
  - destruct prev; [reflexivity|]. now apply (Hk a b).
  - destruct b; [|reflexivity]. now apply (Hk a []).
  - destruct (xorb _ _); [|reflexivity]. now apply (Hk a b).
  - destruct (opt_test p prev); [reflexivity|]. now apply (Hk a b).
  - destruct (opt_test p (hd_error b)); [reflexivity|]. now apply (Hk a b).
Qed.

Lemma hopeless_seq_l (r1 r2 : regex) (input : chars) :
  hopeless r1 input -> hopeless (Seq r1 r2) input.
Proof. intros H k. apply (H (matcher r2 k)). Qed.

Lemma hopeless_seq_r (r1 r2 : regex) (input : chars) :
  hopeless r2 input -> hopeless (Seq r1 r2) input.
Proof. intros H k. apply (matcher_dead r1), H. Qed.

Lemma hopeless_group (r : regex) (input : chars) :
  hopeless r input -> hopeless (Group r) input.
Proof. intros H k a b prev caps Hsplit. simpl. now apply (H _ a b). Qed.

Lemma hopeless_digits (input : chars) (min : nat) (max : option nat) :
  no_digit input = true -> hopeless (Rep is_digit (S min) max) input.
Proof.
  intros Hno k a b prev caps ->. simpl.
  unfold no_digit in Hno. rewrite forallb_app in Hno.
  apply andb_prop in Hno as [_ Hb].
  destruct b as [|c rest]; [reflexivity|]. simpl in Hb.
  apply andb_prop in Hb as [Hc _]. apply negb_true_iff in Hc.
  simpl. now rewrite Hc.
Qed.

Lemma hopeless_no_match (r : regex) (input : chars) :
  hopeless r input -> str_match input r = None.
Proof.
  intros H. unfold str_match. apply search_none.
  intros a b prev' Hsplit. now apply (H accept a b).
Qed.

Ltac hopeless_digit :=
  first [ apply hopeless_digits; assumption
        | apply hopeless_group; hopeless_digit
        | apply hopeless_seq_l; hopeless_digit
        | apply hopeless_seq_r; hopeless_digit ].

Lemma is_digit_lower (c : ascii) : is_digit (lower_char c) = is_digit c.
Proof. destruct c as [[] [] [] [] [] [] [] []]; vm_compute; reflexivity. Qed.

Lemma no_digit_lower (s : chars) : no_digit (toLowerCase s) = no_digit s.
Proof.
  unfold no_digit, toLowerCase. induction s as [|c s IH]; simpl; [reflexivity|].
  now rewrite is_digit_lower, IH.
Qed.

Lemma month_loop_no_digit (rt : Runtime) (lower : chars) :
  no_digit lower = true ->
  forall months, month_loop rt lower months = None.
Proof.
  intros Hno. induction months as [|[mon full] months IH]; [reflexivity|].
  simpl. unfold month_attempt, try_short, try_reverse.
  rewrite (hopeless_no_match (shortPattern mon) lower),
          (hopeless_no_match (reversePattern mon) lower); [exact IH| |].
  - unfold reversePattern, digits_1_2. cbn [seq_of]. hopeless_digit.
  - unfold shortPattern, digits_1_2, digits. cbn [seq_of]. hopeless_digit.
Qed.

(** X21: a file name that holds no digit before its extension gives
    neither a sequence number nor a date, on every host; the date of such
    a recording is the modification time of its file, and asking for it
    fails when the file is missing. *)
Theorem name_without_digit (filename : string) :
  no_digit (base_of filename) = true ->
  parseSequenceFromFilename filename = None
  /\ (forall rt, parseDateFromFilename rt filename = None)
  /\ (forall rt fs filePath,
         getRecordedAt rt fs filePath filename = statSync_mtime fs filePath).
Proof.
  intros Hbase.
  assert (Hdate : forall rt, parseDateFromFilename rt filename = None).
  { intros rt. unfold parseDateFromFilename, try_ymd, try_compact. cbv zeta.
    rewrite (hopeless_no_match re_ymd), (hopeless_no_match re_compact).
    - apply month_loop_no_digit. now rewrite no_digit_lower.
    - unfold re_compact, digits. cbn [seq_of]. hopeless_digit.
    - unfold re_ymd, digits. cbn [seq_of]. hopeless_digit. }
  split; [|split; [exact Hdate|]].
  - unfold parseSequenceFromFilename. cbv zeta.
    rewrite (hopeless_no_match re_leading), (hopeless_no_match re_part),
            (hopeless_no_match re_trailing), (hopeless_no_match re_bare);
      [reflexivity| | | |].
    + unfold re_bare, digits_plus. cbn [seq_of]. hopeless_digit.
    + unfold re_trailing, digits_plus. cbn [seq_of]. hopeless_digit.
    + unfold re_part, digits_plus. cbn [seq_of]. hopeless_digit.
    + unfold re_leading, digits_plus. cbn [seq_of]. hopeless_digit.
  - intros rt fs filePath. unfold getRecordedAt. now rewrite Hdate.
Qed.

Lemma name_without_digit_witness :
  parseSequenceFromFilename "intro to limits.m4a" = None
  /\ (forall rt, parseDateFromFilename rt "intro to limits.m4a" = None)
  /\ (forall rt fs filePath,
         getRecordedAt rt fs filePath "intro to limits.m4a"
         = statSync_mtime fs filePath).
Proof. apply name_without_digit. reflexivity. Defined.

(** *** File names that start with a date *)

Lemma rep_exact (p : ascii -> bool) (k : cont) :
  forall u n prev tail caps res,
    forallb p u = true -> List.length u = n ->
    (forall prev', k prev' tail caps = Some res) ->
    rep p n (Some n) k prev (u ++ tail)%list caps = Some res.
Proof.
  induction u as [|a u IH]; intros n prev tail caps res Hu Hn Hk.
  - simpl in Hn. subst n. simpl app.
    destruct tail as [|c rest]; simpl; [apply Hk|].
    rewrite andb_false_r. apply Hk.
  - simpl in Hn. subst n. simpl in Hu. apply andb_prop in Hu as [Ha Hu].
    simpl app. simpl rep. rewrite Ha. simpl andb. cbv iota.
    now rewrite (IH (List.length u) (Some a) tail caps res).
Qed.

Lemma matcher_seq (r1 r2 : regex) (k : cont) :
  matcher (Seq r1 r2) k = matcher r1 (matcher r2 k).
Proof. reflexivity. Qed.

Lemma matcher_group_digits (n : nat) (k : cont) (u tail : chars)
  (prev : option ascii) (caps res : captures) :
  forallb is_digit u = true -> List.length u = n ->
  (forall prev', k prev' tail (caps ++ [u])%list = Some res) ->
  matcher (Group (digits n)) k prev (u ++ tail)%list caps = Some res.
Proof.
  intros Hu Hn Hk. unfold digits. simpl matcher.
  apply rep_exact; [exact Hu|exact Hn|].
  intros prev'. rewrite firstn_consumed. apply Hk.
Qed.

Lemma matcher_chr (p : ascii -> bool) (k : cont) (prev : option ascii)
  (c : ascii) (rest : chars) (caps : captures) :
  p c = true -> matcher (Chr p) k prev (c :: rest) caps = k (Some c) rest caps.
Proof. intros H. simpl. now rewrite H. Qed.

Lemma is_digit_value (c : ascii) :
  is_digit c = true -> 0 <= digit_value c <= 9.
Proof.
  unfold is_digit, digit_value. intros H. apply andb_prop in H as [H1 H2].
  apply Z.leb_le in H1, H2. lia.
Qed.

Lemma decimal_2 (ds : chars) :
  forallb is_digit ds = true -> List.length ds = 2%nat -> 0 <= decimal ds <= 99.
Proof.
  destruct ds as [|a [|b [|c ds]]]; try discriminate. intros H _.
  simpl in H. rewrite andb_true_r in H. apply andb_prop in H as [Ha Hb].
  apply is_digit_value in Ha, Hb. unfold decimal. cbn [fold_left]. lia.
Qed.

Lemma decimal_4 (ds : chars) :
  forallb is_digit ds = true -> List.length ds = 4%nat -> 0 <= decimal ds <= 9999.
Proof.
  destruct ds as [|a [|b [|c [|d [|e ds]]]]]; try discriminate. intros H _.
  simpl in H. rewrite andb_true_r in H.
  apply andb_prop in H as [Ha H]. apply andb_prop in H as [Hb H].
  apply andb_prop in H as [Hc Hd].
  apply is_digit_value in Ha, Hb, Hc, Hd. unfold decimal. cbn [fold_left]. lia.
Qed.

Lemma to_double_small (z : Z) : - 2 ^ 53 < z < 2 ^ 53 -> to_double z = Fin z.
Proof.
  intros Hz. unfold to_double. destruct (Z.ltb_spec z 0).
  - rewrite round_nonneg_small by lia. simpl. now rewrite Z.opp_involutive.
  - apply round_nonneg_small. lia.
Qed.

(** The separated pattern on a text that starts with four digits, a
    separator, two digits, a separator and two digits. *)
Lemma re_ymd_prefix (y4 m2 d2 rest : chars) (s1 s2 : ascii) :
  forallb is_digit y4 = true -> List.length y4 = 4%nat ->
  is_sep_dot s1 = true ->
  forallb is_digit m2 = true -> List.length m2 = 2%nat ->
  is_sep_dot s2 = true ->
  forallb is_digit d2 = true -> List.length d2 = 2%nat ->
  str_match (y4 ++ s1 :: m2 ++ s2 :: d2 ++ rest)%list re_ymd
  = Some [y4; m2; d2].
Proof.
  intros Hy Hy4 Hs1 Hm Hm2 Hs2 Hd Hd2. unfold str_match. apply search_here.
  unfold re_ymd. cbn [seq_of]. rewrite !matcher_seq.
  apply matcher_group_digits; [exact Hy|exact Hy4|]. intros prev1.
  rewrite matcher_chr by exact Hs1.
  apply matcher_group_digits; [exact Hm|exact Hm2|]. intros prev2.
  rewrite matcher_chr by exact Hs2.
  apply matcher_group_digits; [exact Hd|exact Hd2|]. intros prev3.
  reflexivity.
Qed.

(** X22: a file name whose base starts with four digits, a separator, two
    digits, a separator and two digits, the first four above 2000, has a
    date, whatever the two pairs of digits are: local midnight of the day
    that the date constructor makes of the three numbers, a month of 00
    or above 12 and a day of 00 or beyond the month carried over.  The
    offset of local time is to be of a day at most. *)
Theorem parseDate_separated_prefix (rt : Runtime) (filename : string)
  (y4 m2 d2 rest : chars) (s1 s2 : ascii) :
  base_of filename = (y4 ++ s1 :: m2 ++ s2 :: d2 ++ rest)%list ->
  forallb is_digit y4 = true -> List.length y4 = 4%nat ->
  is_sep_dot s1 = true ->
  forallb is_digit m2 = true -> List.length m2 = 2%nat ->
  is_sep_dot s2 = true ->
  forallb is_digit d2 = true -> List.length d2 = 2%nat ->
  2000 < decimal y4 ->
  Z.abs (localOffset rt
           (MakeDay (decimal y4) (decimal m2 - 1) (decimal d2) * msPerDay))
  <= msPerDay ->
  parseDateFromFilename rt filename
  = Some (MakeDay (decimal y4) (decimal m2 - 1) (decimal d2) * msPerDay
          - localOffset rt
              (MakeDay (decimal y4) (decimal m2 - 1) (decimal d2) * msPerDay)).
Proof.
  intros Hbase Hy Hy4 Hs1 Hm Hm2 Hs2 Hd Hd2 Hyear Hoff.
  pose proof (decimal_4 y4 Hy Hy4) as By.
  pose proof (decimal_2 m2 Hm Hm2) as Bm.
  pose proof (decimal_2 d2 Hd Hd2) as Bd.
  rewrite parseDate_first_match. cbv zeta. rewrite Hbase.
  assert (Hymd : try_ymd rt (y4 ++ s1 :: m2 ++ s2 :: d2 ++ rest)%list
                 = Some (MakeDay (decimal y4) (decimal m2 - 1) (decimal d2)
                         * msPerDay
                         - localOffset rt
                             (MakeDay (decimal y4) (decimal m2 - 1) (decimal d2)
                              * msPerDay))).
  { unfold try_ymd. rewrite re_ymd_prefix by assumption.
    unfold group, parseInt. simpl nth.
    rewrite !round_nonneg_small by lia.
    unfold number_sub. rewrite to_double_small by lia.
    rewrite new_Date_carries by (try assumption; lia).
    simpl number_ltb. now replace (2000 <? decimal y4) with true
      by (symmetry; apply Z.ltb_lt; exact Hyear). }
  now rewrite Hymd.
Qed.

Lemma parseDate_separated_prefix_witness :
  parseDateFromFilename utc_iso_runtime "2024.00.31 lab.m4a"
  = Some (MakeDay 2024 (-1) 31 * msPerDay
          - localOffset utc_iso_runtime (MakeDay 2024 (-1) 31 * msPerDay)).
Proof.
  apply (parseDate_separated_prefix utc_iso_runtime "2024.00.31 lab.m4a"
           (list_ascii_of_string "2024") (list_ascii_of_string "00")
           (list_ascii_of_string "31") (list_ascii_of_string " lab")
           "."%char "."%char);
    try reflexivity.
  vm_compute. discriminate.
Defined.

(** X23: an entry of the form that declares no media type is taken for
    [audio/mpeg], a type of the table: it is accepted whatever its name
    is, and never reported as unsupported. *)
Theorem entry_without_type_is_accepted (file : UploadedFile) :
  file_type file = "" -> file_name file <> "" ->
  is_accepted file = true /\ is_rejected file = false.
Proof.
  intros Htype Hname. unfold is_accepted, is_rejected, mime_of.
  rewrite Htype. apply String.eqb_neq in Hname. rewrite Hname.
  change ("" =? "")%string with true. cbv iota.
  unfold isAllowedAudioType.
  change (known_type "audio/mpeg") with true. split; reflexivity.
Qed.

Lemma entry_without_type_is_accepted_witness :
  is_accepted (sample_upload "minutes.txt" "") = true
  /\ is_rejected (sample_upload "minutes.txt" "") = false.
Proof.
  apply entry_without_type_is_accepted; [reflexivity|discriminate].
Defined.

(** *** File names that start with a number *)

Lemma sep_space_not_digit (c : ascii) :
  is_sep_space c = true -> is_digit c = false.
Proof.
  destruct c as [[] [] [] [] [] [] [] []]; vm_compute; intros H;
    first [reflexivity | discriminate H].
Qed.

(** X24: a file name whose base starts with digits followed by an
    underscore, a hyphen or a blank has these digits, all of them, as its
    sequence number; the other patterns are not consulted. *)
Theorem parseSequence_leading_number (filename : string) (ds rest : chars)
  (sep : ascii) :
  base_of filename = (ds ++ sep :: rest)%list ->
  ds <> [] -> forallb is_digit ds = true -> is_sep_space sep = true ->
  parseSequenceFromFilename filename = Some (parseInt ds).
Proof.
  intros Hbase Hne Hds Hsep. unfold parseSequenceFromFilename. cbv zeta.
  rewrite Hbase.
  assert (Hm : str_match (ds ++ sep :: rest)%list re_leading = Some [ds]).
  { unfold str_match. apply search_here.
    unfold re_leading, digits_plus. cbn [seq_of]. rewrite !matcher_seq.
    change (matcher Bol ?k None ?i ?c) with (k None i c).
    change (matcher (Group (Rep is_digit 1 None)) ?k ?p ?i ?c)
      with (rep is_digit 1 None
              (fun prev' input' caps' =>
                 k prev' input'
                   (caps' ++ [firstn (List.length i - List.length input') i])%list)
              p i c).
    apply rep_greedy.
    - exact Hds.
    - destruct ds; [contradiction|simpl; lia].
    - now apply sep_space_not_digit.
    - intros prev'. rewrite firstn_consumed.
      now rewrite matcher_chr by exact Hsep. }
  now rewrite Hm.
Qed.

Lemma parseSequence_leading_number_witness :
  parseSequenceFromFilename "012 part 7.mp3"
  = Some (parseInt (list_ascii_of_string "012")).
Proof.
  apply (parseSequence_leading_number "012 part 7.mp3"
           (list_ascii_of_string "012") (list_ascii_of_string "part 7")
           " "%char); [reflexivity|discriminate|reflexivity|reflexivity].
Defined.

Lemma addAudioFile_then_get_witness :
  getAudioFile "a"
    (addAudioFile
       (sample_file "b" "02_limits.m4a" "2024-01-16T10:00:00.000Z" uploaded)
       fresh_store)
  = getAudioFile "a" fresh_store.
Proof.
  apply (proj1 (proj2 (addAudioFile_then_get
           (sample_file "b" "02_limits.m4a" "2024-01-16T10:00:00.000Z" uploaded)
           fresh_store))).
  discriminate.
Defined.

(** Two recordings under one id: the store holds the second. *)
Lemma store_of_well_keyed_witness :
  let a := sample_file "a" "01_intro.m4a" "2024-01-15T10:00:00.000Z" uploaded in
  let a' := sample_file "a" "01_intro (1).m4a" "2024-01-15T10:00:00.000Z"
              uploaded in
  getAudioFile "a" (store_of [a; a']) = Some a'
  /\ getAllAudioFiles (store_of [a; a']) = [a'].
Proof.
  intros a a'. split; [|vm_compute; reflexivity].
  apply (proj2 (proj2 (proj2 (store_of_well_keyed [a; a']))) [a] a' []).
  - reflexivity.
  - intros [].
Defined.

Lemma transcription_touches_selected_only_witness :
  getAudioFile "b"
    (final_store
       (POST_transcribe sample_speech (Body (IdArray ["a"])) two_files_store))
  = Some (sample_file "b" "02_membranes.m4a" "2024-01-15T11:00:00.000Z"
            uploaded).
Proof.
  refine (eq_trans
            (proj1 (proj1 (transcription_touches_selected_only sample_speech
                             (Body (IdArray ["a"])) two_files_store) "b" _))
            eq_refl).
  vm_compute. intros [H|[]]. discriminate H.
Defined.

(** ** The life cycle of a recording *)

Lemma statuses_forward_add (file : AudioFile.t) (s : StoreData) :
  match getAudioFile (AudioFile.id file) s with
  | None => True
  | Some f0 => moves_forward (AudioFile.status f0) (AudioFile.status file)
  end ->
  statuses_forward s (addAudioFile file s).
Proof.
  intros H other f Hother. unfold getAudioFile, addAudioFile in *. simpl.
  destruct (String.eqb_spec other (AudioFile.id file)) as [->|Hne].
  - rewrite map_get_set_same. exists file. split; [reflexivity|].
    now rewrite Hother in H.
  - rewrite map_get_set_other by exact Hne.
    exists f. split; [exact Hother|apply moves_forward_refl].
Qed.

(** The loop of an upload: every id that it may still draw is new to the
    store or names a recording that this request has added. *)
Lemma upload_loop_ok (h : Host) (disk : Disk) (files : list UploadedFile) :
  forall (fs : FileSystem) (savedFiles : list AudioFile.t)
         (errors : list string) (s : StoreData),
    well_keyed s ->
    (forall k, (List.length savedFiles <= k
                < List.length savedFiles + List.length files)%nat ->
       match getAudioFile (uuidv4 h k) s with
       | None => True
       | Some f0 => AudioFile.status f0 = uploaded
       end) ->
    run_ok statuses_forward (upload_loop h disk files fs savedFiles errors) s
      (fun _ s' => well_keyed s').
Proof.
  induction files as [|file rest IH]; intros fs savedFiles errors s Hwk Hnew;
    cbn [upload_loop].
  - now apply run_ok_ret.
  - assert (Hrest : forall k,
              (List.length savedFiles <= k
               < List.length savedFiles + List.length rest)%nat ->
              match getAudioFile (uuidv4 h k) s with
              | None => True
              | Some f0 => AudioFile.status f0 = uploaded
              end).
    { intros k Hk. apply Hnew. cbn [List.length]. lia. }
    destruct (String.eqb (file_name file) ""); [now apply IH|].
    destruct (negb (isAllowedAudioType (mime_of file) (file_name file)));
      [now apply IH|].
    cbv zeta.
    destruct (disk (saved_path (uuidv4 h (List.length savedFiles)) file))
      as [mtime|message]; [|now apply run_ok_ret].
    destruct (getRecordedAt _ _ _ _) as [recordedAt|message];
      [|now apply run_ok_ret].
    set (audioFile := uploaded_record h (uuidv4 h (List.length savedFiles))
                        file recordedAt).
    apply run_ok_bind_write.
    + apply statuses_forward_add.
      change (AudioFile.id audioFile) with (uuidv4 h (List.length savedFiles)).
      specialize (Hnew (List.length savedFiles)).
      destruct (getAudioFile (uuidv4 h (List.length savedFiles)) s) as [f0|];
        [|exact I].
      left. rewrite Hnew by (cbn [List.length]; lia). reflexivity.
    + apply IH; [now apply well_keyed_addAudioFile|].
      intros k Hk. rewrite length_app in Hk. cbn [List.length] in Hk.
      unfold getAudioFile, addAudioFile. simpl.
      destruct (String.eqb_spec (uuidv4 h k) (AudioFile.id audioFile))
        as [->|Hne].
      * now rewrite map_get_set_same.
      * rewrite map_get_set_other by exact Hne.
        apply Hnew. cbn [List.length]. lia.
Qed.

Lemma POST_upload_ok (h : Host) (disk : Disk) (fs : FileSystem)
  (files : list UploadedFile) (s : StoreData) :
  well_keyed s ->
  draws_new_ids h files s ->
  run_ok statuses_forward (POST_upload h disk fs files) s
    (fun _ s' => well_keyed s').
Proof.
  intros Hwk Hnew. unfold POST_upload.
  destruct files as [|file rest] eqn:Hfiles; [now apply run_ok_ret|].
  rewrite <- Hfiles in *.
  eapply run_ok_bind.
  - apply upload_loop_ok; [exact Hwk|].
    intros k Hk. cbn [List.length] in Hk. rewrite Hnew by lia. exact I.
  - intros [[[savedFiles errors]|message] fs'] s1 Hwk1;
      [|now apply run_ok_ret].
    apply run_ok_bind_read.
    apply run_ok_bind_write; [now apply statuses_forward_same_files|].
    apply run_ok_ret. now apply (well_keyed_same_files s1).
Qed.

Lemma POST_generate_podcast_keeps_files (h : Host) (svc : ScriptService)
  (body : outcome (string * string)) (s : StoreData) :
  run_ok (fun s s' => audioFiles s' = audioFiles s)
    (POST_generate_podcast h svc body) s
    (fun _ s' => audioFiles s' = audioFiles s).
Proof.
  unfold POST_generate_podcast.
  destruct body as [[lectureId format]|message]; [|now apply run_ok_ret].
  destruct (String.eqb lectureId "" || String.eqb format "");
    [now apply run_ok_ret|].
  destruct (format_of format) as [fmt|]; [|now apply run_ok_ret].
  apply run_ok_bind_read.
  destruct (getLecture lectureId s) as [lecture|]; [|now apply run_ok_ret].
  apply run_ok_bind_read.
  destruct (generatePodcastScript svc lecture (files_of_lecture s lecture)
              (Lecture.fullTranscript lecture) fmt) as [parts|message];
    [|now apply run_ok_ret].
  apply run_ok_bind_write; [reflexivity|]. now apply run_ok_ret.
Qed.

Lemma statuses_forward_lifecycle (s s' : StoreData) :
  statuses_forward s s' -> lifecycle_step s s'.
Proof. now right. Qed.

Lemma run_operation_ok (op : Operation) (s : StoreData) :
  well_keyed s ->
  match op with
  | Transcribe _ body => selects_uploaded body s
  | Upload h _ _ files => draws_new_ids h files s
  | _ => True
  end ->
  run_ok lifecycle_step (run_operation op) s (fun _ s' => well_keyed s').
Proof.
  intros Hwk Hop.
  destruct op as [h disk fs files| |svc body|h inferLectures|h svc body]; simpl.
  - eapply run_ok_bind.
    + eapply run_ok_mono; [apply statuses_forward_lifecycle|].
      now apply POST_upload_ok.
    + intros u s1 Hwk1. now apply run_ok_ret.
  - apply run_ok_write; [now left|apply well_keyed_createStore].
  - eapply run_ok_bind.
    + eapply run_ok_mono; [apply statuses_forward_lifecycle|].
      now apply POST_transcribe_ok.
    + intros u s1 Hwk1. now apply run_ok_ret.
  - eapply run_ok_bind.
    + eapply run_ok_mono; [|apply POST_process_keeps_files].
      intros s0 s0' H. right. now apply statuses_forward_same_files.
    + intros u s1 Hs1. apply run_ok_ret.
      now apply (well_keyed_same_files s).
  - eapply run_ok_bind.
    + eapply run_ok_mono; [|apply POST_generate_podcast_keeps_files].
      intros s0 s0' H. right. now apply statuses_forward_same_files.
    + intros u s1 Hs1. apply run_ok_ret.
      now apply (well_keyed_same_files s).
Qed.

Lemma run_operations_ok (ops : list Operation) :
  forall s,
    well_keyed s ->
    run_in_order ops s ->
    run_ok lifecycle_step (run_operations ops) s (fun _ s' => well_keyed s').
Proof.
  induction ops as [|op rest IH]; intros s Hwk Hsel; simpl.
  - now apply run_ok_ret.
  - destruct Hsel as [Hop Hrest].
    eapply run_ok_bind;
      [apply run_ok_final, run_operation_ok; assumption|].
    intros u s1 [Hwk1 Heq]. subst s1. now apply IH.
Qed.

(** *** A request sets what it selects to [transcribing] *)

Lemma writes_of_bind {A B : Type} (m : Handler A) (f : A -> Handler B)
  (s : StoreData) :
  writes_of (bind m f s)
  = (writes_of (m s)
     ++ writes_of (f (result_of (m s)) (final_store (m s))))%list.
Proof.
  unfold bind, final_store, result_of, writes_of.
  destruct (m s) as [[a s1] t1]. simpl.
  destruct (f a s1) as [[b s2] t2]. reflexivity.
Qed.

Lemma transcribe_one_sets_transcribing (svc : SpeechService)
  (file : AudioFile.t) (s : StoreData) :
  getAudioFile (AudioFile.id file) s <> None ->
  exists s' f',
    In s' (writes_of (transcribe_one svc file s))
    /\ getAudioFile (AudioFile.id file) s' = Some f'
    /\ AudioFile.status f' = transcribing.
Proof.
  intros Hheld.
  destruct (getAudioFile (AudioFile.id file) s) as [f0|] eqn:Hget;
    [|contradiction].
  exists (updateAudioFile (AudioFile.id file) (set_status transcribing) s),
         (AudioFile.spread f0 (set_status transcribing)).
  split; [|split].
  - unfold transcribe_one. rewrite writes_of_bind. apply in_or_app. left.
    now left.
  - now apply getAudioFile_update_same.
  - reflexivity.
Qed.

Lemma transcribe_loop_sets_transcribing (svc : SpeechService)
  (files : list AudioFile.t) (f : AudioFile.t) :
  forall (results : list TranscribeResult) (s : StoreData),
    In f files ->
    (forall g, In g files -> getAudioFile (AudioFile.id g) s <> None) ->
    exists s' f',
      In s' (writes_of (transcribe_loop svc files results s))
      /\ getAudioFile (AudioFile.id f) s' = Some f'
      /\ AudioFile.status f' = transcribing.
Proof.
  induction files as [|g rest IH]; intros results s Hin Hheld; [contradiction|].
  cbn [transcribe_loop]. rewrite writes_of_bind.
  destruct Hin as [->|Hin].
  - destruct (transcribe_one_sets_transcribing svc f s
                (Hheld f (or_introl eq_refl))) as (s' & f' & Hs' & Hf').
    exists s', f'. split; [apply in_or_app; now left|exact Hf'].
  - destruct (IH (results ++ [result_of (transcribe_one svc g s)])%list
                (final_store (transcribe_one svc g s)) Hin)
      as (s' & f' & Hs' & Hf').
    + intros g' Hg'.
      destruct (transcribe_one_final svc g s)
        as (Hsame & _ & Hother & _).
      destruct (String.eqb_spec (AudioFile.id g') (AudioFile.id g)) as [E|E].
      * rewrite E, Hsame.
        pose proof (Hheld g (or_introl eq_refl)) as Hg.
        destruct (getAudioFile (AudioFile.id g) s); [discriminate|contradiction].
      * rewrite (proj1 (Hother _ E)). apply Hheld. now right.
    + exists s', f'. split; [apply in_or_app; now right|exact Hf'].
Qed.

Lemma POST_transcribe_sets_transcribing (svc : SpeechService)
  (body : TranscribeBody) (s : StoreData) (f : AudioFile.t) :
  well_keyed s ->
  In f (selected body s) ->
  exists s' f',
    In s' (writes_of (POST_transcribe svc body s))
    /\ getAudioFile (AudioFile.id f) s' = Some f'
    /\ AudioFile.status f' = transcribing.
Proof.
  intros Hwk Hin. rewrite POST_transcribe_cases.
  destruct (transcribe_failure body s) as [message|] eqn:Hfail.
  { now rewrite (transcribe_failure_selected body s message Hfail) in Hin. }
  unfold transcribe_files.
  destruct (selected body s) as [|g rest] eqn:Hsel; [contradiction|].
  rewrite <- Hsel in *.
  destruct (transcribe_loop_sets_transcribing svc (selected body s) f []
              (updateStatus (set_phase phase_transcribing) s) Hin)
    as (s' & f' & Hs' & Hf').
  - intros g' Hg'. rewrite (getAudioFile_same_files _ s) by reflexivity.
    rewrite (well_keyed_lookup s g' Hwk (selected_sub body s g' Hg')).
    discriminate.
  - exists s', f'. split; [|exact Hf'].
    rewrite !writes_of_bind. apply in_or_app. right.
    apply in_or_app. now left.
Qed.

(** C4, amended: from a store that is a map of recordings under their ids,
    through every run of requests that write to the store (uploads, the
    reset, transcription, grouping, scripts) in which each transcription
    request selects only recordings in status [uploaded] and each upload
    draws ids that the store does not hold, every write either resets the
    store or leaves each recording in place with its status unchanged or
    moved along one edge of the life cycle.  And every transcription
    request sets each recording that it selects to [transcribing],
    whatever its status was. *)
Theorem statuses_only_move_forward (ops : list Operation) (s : StoreData) :
  well_keyed s ->
  (run_in_order ops s ->
   stepwise lifecycle_step s (writes_of (run_operations ops s)))
  /\ (forall svc body f,
        In f (selected body s) ->
        exists s' f',
          In s' (writes_of (POST_transcribe svc body s))
          /\ getAudioFile (AudioFile.id f) s' = Some f'
          /\ AudioFile.status f' = transcribing).
Proof.
  intros Hwk. split.
  - intros Hsel. exact (proj1 (run_operations_ok ops s Hwk Hsel)).
  - intros svc body f. now apply POST_transcribe_sets_transcribing.
Qed.

Lemma statuses_only_move_forward_witness :
  stepwise lifecycle_step fresh_store
    (writes_of
       (run_operations
          [Transcribe sample_speech (Body (IdArray ["a"]));
           Process sample_host (fun _ => Throws "GEMINI_API_KEY is not set");
           Upload sample_host sample_disk (fun _ => None)
             [sample_upload "02_membranes.m4a" "audio/x-m4a"];
           Transcribe failing_speech (Body NoFileIds);
           GeneratePodcast sample_host (fun _ _ _ _ => Throws "no answer")
             (Returns ("lecture-1", "qa"));
           Transcribe sample_speech (BodyNull "Cannot read properties of null");
           Delete] fresh_store)).
Proof.
  assert (Hwk : well_keyed fresh_store).
  { split; simpl.
    - constructor; [intros []|constructor].
    - constructor; [reflexivity|constructor]. }
  apply (proj1 (statuses_only_move_forward _ fresh_store Hwk)).
  cbn [run_in_order].
  refine (conj _ (conj I (conj _ (conj _ (conj I (conj _ (conj I I))))))).
  - vm_compute. repeat constructor.
  - intros k Hk. destruct k as [|k]; [vm_compute; reflexivity|].
    cbn [List.length] in Hk. lia.
  - vm_compute. repeat constructor.
  - vm_compute. constructor.
Defined.

(** C4, refuted as stated: a request that names a recording already
    transcribed sets it back to [transcribing] (and here on to [error]). *)
Lemma retranscription_moves_status_back :
  map (fun s => option_map AudioFile.status (getAudioFile "a" s))
      (sample_store
         :: writes_of (POST_transcribe failing_speech (Body (IdArray ["a"]))
                         sample_store))
  = [Some transcribed; Some transcribed; Some transcribing; Some error;
     Some error; Some error]
  /\ ~ stepwise lifecycle_step sample_store
         (writes_of (POST_transcribe failing_speech (Body (IdArray ["a"]))
                       sample_store)).
Proof.
  split; [vm_compute; reflexivity|].
  intros H. simpl in H. destruct H as (_ & [Hreset|Hback] & _).
  - apply (f_equal audioFiles) in Hreset. vm_compute in Hreset.
    discriminate Hreset.
  - destruct (Hback "a" _ eq_refl) as (f' & Hget & Hmove).
    vm_compute in Hget. injection Hget as <-.
    destruct Hmove as [Heq|Hedge]; discriminate.
Qed.
